(** * PathWire: ring buffer, frame encoder, frame parser and dispatcher

    A shallow embedding of the protocol core of PathWire
    (core/ring_buffer.h, core/cmnd_sender, core/cmnd_parser,
    core/cmnd_executer) together with the properties of its
    specification.

    Conventions.
    - [uint16_t] and [int32_t] values are integers of [Z]; where the C++
      code stores the result of an [int] computation into a [uint16_t]
      the truncation is written out with [u16].
    - Bytes and characters are [ascii]; a C string is the list of
      characters found at a pointer, read up to the first NUL (or the end
      of the modelled region).
    - Caller supplied storage is a [list], read with stdpp's total lookup
      and written with stdpp's insert. *)

From Stdlib Require Import ZArith Ascii String List Lia Bool.
From Stdlib Require Import Floats.SpecFloat.
From stdpp Require Import base list.

Local Open Scope Z_scope.

(* ================================================================== *)
(** * Machine integers, characters and C strings *)
(* ================================================================== *)

(** Truncation of an [int] to [uint16_t]. *)
Definition u16 (x : Z) : Z := x mod 65536.

(** Characters. [code] is the value of a byte, [char_of_int] the
    conversion of an [int] to [char] (low eight bits). *)
Definition code (c : ascii) : Z := Z.of_N (N_of_ascii c).
Definition char_of_int (x : Z) : ascii := ascii_of_N (Z.to_N (x mod 256)).
Definition NUL : ascii := Ascii.zero.
Definition is_nul (c : ascii) : bool := Ascii.eqb c NUL.
Definition text (s : string) : list ascii := list_ascii_of_string s.

#[global] Instance ascii_inhabited : Inhabited ascii := populate NUL.

(** The string a [const char*] denotes: the characters before the first
    NUL of the region it points to. *)
Fixpoint c_str (region : list ascii) : list ascii :=
  match region with
  | [] => []
  | c :: rest => if is_nul c then [] else c :: c_str rest
  end.

(** [len] bytes of a region starting at offset [off]. *)
Definition slice (region : list ascii) (off len : Z) : list ascii :=
  take (Z.to_nat len) (drop (Z.to_nat off) region).

(* ================================================================== *)
(** * core/ring_buffer.h *)
(* ================================================================== *)

Module RingBuffer.
Section ring_buffer.
Context {T : Type} `{!Inhabited T}.

(** [template<typename T> class ring_buffer]: the storage pointer, the
    element count of the storage, the producer and the consumer index. *)
Record ring_buffer : Type := RB {
  buffer : list T;
  buffer_size : Z;
  prd : Z;
  cns : Z
}.

(** The constructor: both indices start at 0. *)
Definition make (storage : list T) (bufferSize : Z) : ring_buffer :=
  {| buffer := storage; buffer_size := bufferSize; prd := 0; cns := 0 |}.

(** The slot written by [push] and the slot read by [pop]
    ([buffer[prd % buffer_size]], [buffer[cns % buffer_size]]). *)
Definition push_slot (rb : ring_buffer) : Z := prd rb mod buffer_size rb.
Definition pop_slot (rb : ring_buffer) : Z := cns rb mod buffer_size rb.

(** [bool push(const T& item)]. The result is the returned flag and the
    state afterwards. *)
Definition push (item : T) (rb : ring_buffer) : bool * ring_buffer :=
  let next := u16 ((prd rb + 1) mod buffer_size rb) in
  if next =? cns rb then (false, rb)
  else (true,
        {| buffer := <[Z.to_nat (push_slot rb) := item]> (buffer rb);
           buffer_size := buffer_size rb;
           prd := next;
           cns := cns rb |}).

(** [bool pop(T& out)]. [None] is the [false] return (with [out] left
    alone), [Some x] the [true] return with [out = x]. A read outside
    the storage, which C++ leaves undefined, yields the inhabitant of
    [T]; [index_invariant] below shows that it does not happen. *)
Definition pop (rb : ring_buffer) : option T * ring_buffer :=
  if cns rb =? prd rb then (None, rb)
  else (Some (buffer rb !!! Z.to_nat (pop_slot rb)),
        {| buffer := buffer rb;
           buffer_size := buffer_size rb;
           prd := prd rb;
           cns := u16 ((cns rb + 1) mod buffer_size rb) |}).

(** ** Derived notions *)

(** The conditions tested by [push] and [pop], as the specification
    words them. *)
Definition full (rb : ring_buffer) : Prop :=
  (prd rb + 1) mod buffer_size rb = cns rb.
Definition empty (rb : ring_buffer) : Prop := prd rb = cns rb.

(** Both indices inside the ring. *)
Definition indices_ok (rb : ring_buffer) : Prop :=
  0 <= prd rb < buffer_size rb /\ 0 <= cns rb < buffer_size rb.

(** A queue as the constructor's contract wants it: capacity above 1
    and representable in [uint16_t], storage of that many elements. *)
Record wf (rb : ring_buffer) : Prop := WF {
  wf_size : 1 < buffer_size rb < 65536;
  wf_idx : indices_ok rb;
  wf_len : length (buffer rb) = Z.to_nat (buffer_size rb)
}.

(** Number of live elements and of free slots. *)
Definition count (rb : ring_buffer) : Z :=
  (prd rb - cns rb) mod buffer_size rb.
Definition room (rb : ring_buffer) : Z := buffer_size rb - 1 - count rb.

(** The live elements, oldest first: what a consumer would pop. *)
Fixpoint read_from (b : list T) (C c : Z) (n : nat) : list T :=
  match n with
  | O => []
  | S n' => (b !!! Z.to_nat c) :: read_from b C ((c + 1) mod C) n'
  end.

Definition contents (rb : ring_buffer) : list T :=
  read_from (buffer rb) (buffer_size rb) (cns rb) (Z.to_nat (count rb)).

(** Pushing a sequence of items, stopping at the first refusal. *)
Fixpoint push_list (xs : list T) (rb : ring_buffer) : bool * ring_buffer :=
  match xs with
  | [] => (true, rb)
  | x :: xs' =>
      let '(ok, rb') := push x rb in
      if ok then push_list xs' rb' else (false, rb')
  end.

(** Operations of the two roles, and the run of a sequence of them
    from a given state: the final state, the items accepted by
    successful pushes and the items returned by successful pops. *)
Inductive op : Type := Push (x : T) | Pop.

Record run_state : Type := Run {
  queue : ring_buffer;
  accepted : list T;
  popped : list T
}.

Definition step (s : run_state) (o : op) : run_state :=
  match o with
  | Push x =>
      let '(ok, rb') := push x (queue s) in
      {| queue := rb';
         accepted := if ok then accepted s ++ [x] else accepted s;
         popped := popped s |}
  | Pop =>
      let '(out, rb') := pop (queue s) in
      {| queue := rb';
         accepted := accepted s;
         popped := match out with
                   | Some x => popped s ++ [x]
                   | None => popped s
                   end |}
  end.

Definition run (ops : list op) (rb : ring_buffer) : run_state :=
  fold_left step ops {| queue := rb; accepted := []; popped := [] |}.

End ring_buffer.
Arguments ring_buffer T : clear implicits.
Arguments op T : clear implicits.
Arguments run_state T : clear implicits.
End RingBuffer.

(* ================================================================== *)
(** * core/cmnd_frame.h *)
(* ================================================================== *)

Module Frame.
(** A [const char*] held by a frame: [nullptr], or the address of an
    element of the parser's work buffer, kept as its offset. *)
Definition ptr : Type := option Z.

Record cmnd_frame : Type := Build {
  path : ptr;
  path_len : Z;
  data : ptr;
  data_len : Z
}.

#[global] Instance cmnd_frame_inhabited : Inhabited cmnd_frame :=
  populate {| path := None; path_len := 0; data := None; data_len := 0 |}.

(** The region a pointer points to inside the work buffer [mem].
    Dereferencing [nullptr] is undefined in C++; it reads as the empty
    region here. *)
Definition deref (mem : list ascii) (p : ptr) : list ascii :=
  match p with
  | Some off => drop (Z.to_nat off) mem
  | None => []
  end.

(** [p - workBuffer]. *)
Definition offset (p : ptr) : Z :=
  match p with Some off => off | None => 0 end.
End Frame.

(* ================================================================== *)
(** * IEEE 754 binary32, the [float] of the target *)
(* ================================================================== *)

Module F32.
Definition prec : Z := 24.
Definition emax : Z := 128.
Definition float : Type := spec_float.

Definition zero : float := S754_zero false.
#[global] Instance float_inhabited : Inhabited float := populate zero.
(** [(float)n] for an integer [n], rounding to nearest even. *)
Definition of_int (n : Z) : float := binary_normalize prec emax n 0 false.
Definition add : float -> float -> float := SFadd prec emax.
Definition sub : float -> float -> float := SFsub prec emax.
Definition mul : float -> float -> float := SFmul prec emax.
Definition div : float -> float -> float := SFdiv prec emax.
Definition opp : float -> float := SFopp.
Definition ltb : float -> float -> bool := SFltb.

(** [(int32_t)x]: truncation toward zero. The conversion of NaN, of an
    infinity or of a value outside [int32_t] is undefined in C++; here
    the first two give 0 and the last is not truncated. *)
Definition to_int (x : float) : Z :=
  match x with
  | S754_finite s m e =>
      let a := if 0 <=? e then Z.pos m * 2 ^ e else Z.pos m / 2 ^ (- e) in
      if s then - a else a
  | _ => 0
  end.

(** The constants [1000.0f] and [0.5f]. *)
Definition thousand : float := of_int 1000.
Definition half : float := binary_normalize prec emax 1 (-1) false.

(** The float written [m]e-[k] in decimal, e.g. [decimal 19995 4] for
    [1.9995f]: the nearest binary32 value. *)
Definition decimal (m : Z) (k : Z) : float := div (of_int m) (of_int (10 ^ k)).
End F32.

(* ================================================================== *)
(** * core/tx_notifier and core/cmnd_sender *)
(* ================================================================== *)

Module Sender.
Import RingBuffer.

(** What a [cmnd_sender] acts on: its TX queue, and the number of
    [notify_tx_ready()] calls made so far (the registered callback is
    the transport's business). *)
Record tx_state : Type := Tx {
  tx_queue : ring_buffer ascii;
  notified : nat
}.

(** A member function returning [bool]. *)
Definition action : Type := tx_state -> bool * tx_state.

Definition done_true : action := fun s => (true, s).

(** [if (!f) return false; k] *)
Definition and_then (f k : action) : action :=
  fun s => let '(ok, s') := f s in if ok then k s' else (false, s').

Notation "f ;;; k" := (and_then f k) (at level 51, right associativity).

Definition notify_tx_ready (s : tx_state) : tx_state :=
  {| tx_queue := tx_queue s; notified := S (notified s) |}.

Definition push_char (c : ascii) : action :=
  fun s =>
    let '(ok, q) := push c (tx_queue s) in
    if ok
    then (true, notify_tx_ready {| tx_queue := q; notified := notified s |})
    else (false, {| tx_queue := q; notified := notified s |}).

(** The loop over the characters of [s] up to its NUL, each sent with
    [push_char]; the first refusal returns [false]. *)
Fixpoint push_string (s : list ascii) : action :=
  match s with
  | [] => done_true
  | c :: s' => if is_nul c then done_true else push_char c ;;; push_string s'
  end.

(** A sequence of characters sent one after the other. *)
Fixpoint push_chars (cs : list ascii) : action :=
  match cs with
  | [] => done_true
  | c :: cs' => push_char c ;;; push_chars cs'
  end.

(** [f] sends the characters [cs]: it is [push_char] on each of them
    in turn, given up at the first refusal. *)
Definition emits (f : action) (cs : list ascii) : Prop :=
  forall s, f s = push_chars cs s.

Definition INT32_MIN : Z := -2147483648.
Definition INT32_MAX : Z := 2147483647.

(** [while (v > 0) { buf[i++] = '0' + (v % 10); v /= 10; }] with [buf]
    the characters written so far. [v] shrinks at every round, so
    [digits_fuel v] rounds are enough ([digits_loop_spec]). *)
Fixpoint digits_loop (fuel : nat) (v : Z) (buf : list ascii) : Z * list ascii :=
  match fuel with
  | O => (v, buf)
  | S fuel' =>
      if 0 <? v
      then digits_loop fuel' (Z.quot v 10) (buf ++ [char_of_int (code "0" + Z.rem v 10)])
      else (v, buf)
  end.

Definition digits_fuel (v : Z) : nat := S (Z.to_nat (Z.log2 v)).

(** [while (i--) if (!push_char(buf[i])) return false;] *)
Fixpoint push_backwards (buf : list ascii) (i : nat) : action :=
  match i with
  | O => done_true
  | S i' => push_char (buf !!! i') ;;; push_backwards buf i'
  end.

Definition push_int (v : Z) : action :=
  if v =? INT32_MIN then push_string (text "-2147483648")
  else if v =? 0 then push_char "0"
  else
    let negative := v <? 0 in
    let v := if negative then - v else v in
    let '(_, buf) := digits_loop (digits_fuel v) v [] in
    let buf := if negative then buf ++ ["-"%char] else buf in
    push_backwards buf (length buf).

(** The body of [push_float] after the sign has been dealt with. The
    integer part is sent before the fraction is rounded; the
    [int_part + 1] of the carry branch is kept as the source has it. *)
Definition push_float_magnitude (v : F32.float) : action :=
  let int_part := F32.to_int v in
  let frac := F32.sub v (F32.of_int int_part) in
  push_int int_part ;;;
  push_char "." ;;;
  (let frac_part := F32.to_int (F32.add (F32.mul frac F32.thousand) F32.half) in
   let '(frac_part, int_part) :=
     if 1000 <=? frac_part then (0, int_part + 1) else (frac_part, int_part) in
   (if frac_part <? 100 then push_char "0" else done_true) ;;;
   (if frac_part <? 10 then push_char "0" else done_true) ;;;
   push_int frac_part).

Definition push_float (v : F32.float) : action :=
  if F32.ltb v F32.zero
  then push_char "-" ;;; push_float_magnitude (F32.opp v)
  else push_float_magnitude v.

Definition begin_frame (path : list ascii) : action :=
  push_char "{" ;;; push_char "p" ;;; push_char ":" ;;;
  push_string path ;;;
  push_char ":" ;;; push_char "d" ;;; push_char ":" ;;; done_true.

Definition end_frame : action := push_char "}" ;;; done_true.

Definition send_trigger (path : list ascii) : action :=
  begin_frame path ;;; end_frame.

(** [for (uint16_t i = 0; i < count; ++i)] over a value array, [n]
    rounds left, [push_value] being [push_int], [push_float] or
    [push_string]. An element past the end of the array, which C++
    leaves undefined, reads as the inhabitant. *)
Fixpoint send_loop {A} `{!Inhabited A} (push_value : A -> action)
    (values : list A) (i n : nat) : action :=
  match n with
  | O => done_true
  | S n' =>
      (if (i =? 0)%nat then done_true else push_char ",") ;;;
      push_value (values !!! i) ;;;
      send_loop push_value values (S i) n'
  end.

Definition send_int (path : list ascii) (values : list Z) (count : Z) : action :=
  begin_frame path ;;;
  send_loop push_int values 0 (Z.to_nat count) ;;;
  end_frame.

Definition send_float (path : list ascii) (values : list F32.float) (count : Z)
  : action :=
  begin_frame path ;;;
  send_loop push_float values 0 (Z.to_nat count) ;;;
  end_frame.

Definition send_string (path : list ascii) (values : list (list ascii)) (count : Z)
  : action :=
  begin_frame path ;;;
  send_loop push_string values 0 (Z.to_nat count) ;;;
  end_frame.
End Sender.

(* ================================================================== *)
(** * core/cmnd_parser *)
(* ================================================================== *)

Module Parser.
Import RingBuffer.
Export Frame(cmnd_frame).

Inductive state_t : Type :=
  | WAIT_START | WAIT_P | WAIT_P_COLON | READ_PATH | WAIT_D | WAIT_D_COLON
  | READ_DATA | WAIT_END | ERROR.

Record cmnd_parser : Type := Build {
  rx_queue : ring_buffer ascii;
  frame_queue : ring_buffer cmnd_frame;
  workBuffer : list ascii;
  work_buf_size : Z;
  idx : Z;
  path_ptr : Frame.ptr;
  path_len : Z;
  data_ptr : Frame.ptr;
  data_len : Z;
  state : state_t
}.

(** The constructor. *)
Definition make (rx_buffer : ring_buffer ascii)
    (frame_buffer : ring_buffer cmnd_frame)
    (work_buffer : list ascii) (work_buffer_size : Z) : cmnd_parser :=
  {| rx_queue := rx_buffer; frame_queue := frame_buffer;
     workBuffer := work_buffer; work_buf_size := work_buffer_size;
     idx := 0; path_ptr := None; path_len := 0;
     data_ptr := None; data_len := 0; state := WAIT_START |}.

(** Assignments to single members. *)
Definition set_rx_queue (q : ring_buffer ascii) (p : cmnd_parser) :=
  Build q (frame_queue p) (workBuffer p) (work_buf_size p) (idx p)
        (path_ptr p) (path_len p) (data_ptr p) (data_len p) (state p).
Definition set_frame_queue (q : ring_buffer cmnd_frame) (p : cmnd_parser) :=
  Build (rx_queue p) q (workBuffer p) (work_buf_size p) (idx p)
        (path_ptr p) (path_len p) (data_ptr p) (data_len p) (state p).
Definition set_state (s : state_t) (p : cmnd_parser) :=
  Build (rx_queue p) (frame_queue p) (workBuffer p) (work_buf_size p) (idx p)
        (path_ptr p) (path_len p) (data_ptr p) (data_len p) s.
Definition set_idx (i : Z) (p : cmnd_parser) :=
  Build (rx_queue p) (frame_queue p) (workBuffer p) (work_buf_size p) i
        (path_ptr p) (path_len p) (data_ptr p) (data_len p) (state p).
Definition set_path_ptr (a : Frame.ptr) (p : cmnd_parser) :=
  Build (rx_queue p) (frame_queue p) (workBuffer p) (work_buf_size p) (idx p)
        a (path_len p) (data_ptr p) (data_len p) (state p).
Definition set_path_len (n : Z) (p : cmnd_parser) :=
  Build (rx_queue p) (frame_queue p) (workBuffer p) (work_buf_size p) (idx p)
        (path_ptr p) n (data_ptr p) (data_len p) (state p).
Definition set_data_ptr (a : Frame.ptr) (p : cmnd_parser) :=
  Build (rx_queue p) (frame_queue p) (workBuffer p) (work_buf_size p) (idx p)
        (path_ptr p) (path_len p) a (data_len p) (state p).
Definition set_data_len (n : Z) (p : cmnd_parser) :=
  Build (rx_queue p) (frame_queue p) (workBuffer p) (work_buf_size p) (idx p)
        (path_ptr p) (path_len p) (data_ptr p) n (state p).

(** [workBuffer[idx++] = c] *)
Definition store (c : ascii) (p : cmnd_parser) : cmnd_parser :=
  Build (rx_queue p) (frame_queue p)
        (<[Z.to_nat (idx p) := c]> (workBuffer p)) (work_buf_size p)
        (u16 (idx p + 1))
        (path_ptr p) (path_len p) (data_ptr p) (data_len p) (state p).

Definition reset (p : cmnd_parser) : cmnd_parser :=
  Build (rx_queue p) (frame_queue p) (workBuffer p) (work_buf_size p)
        0 None 0 None 0 WAIT_START.

(** The [switch] on the state for one byte [ch]. [WAIT_END] has no case
    of its own and takes the [default] one. *)
Definition on_state (ch : ascii) (p : cmnd_parser) : cmnd_parser :=
  match state p with
  | WAIT_START =>
      if Ascii.eqb ch "{" then set_state WAIT_P (reset p) else p
  | WAIT_P =>
      set_state (if Ascii.eqb ch "p" then WAIT_P_COLON else ERROR) p
  | WAIT_P_COLON =>
      let p := set_state (if Ascii.eqb ch ":" then READ_PATH else ERROR) p in
      match state p with
      | READ_PATH => set_path_ptr (Some (idx p)) p
      | _ => p
      end
  | READ_PATH =>
      if Ascii.eqb ch ":" then
        let p := store NUL p in
        let p := set_path_len (u16 (idx p - 1)) p in
        set_state WAIT_D p
      else store ch p
  | WAIT_D =>
      set_state (if Ascii.eqb ch "d" then WAIT_D_COLON else ERROR) p
  | WAIT_D_COLON =>
      if Ascii.eqb ch ":"
      then set_state READ_DATA (set_data_ptr (Some (idx p)) p)
      else set_state ERROR p
  | READ_DATA =>
      if Ascii.eqb ch "}" then
        let p := store NUL p in
        let p := set_data_len (u16 (idx p - Frame.offset (data_ptr p) - 1)) p in
        let frame :=
          {| Frame.path := path_ptr p; Frame.path_len := path_len p;
             Frame.data := data_ptr p; Frame.data_len := data_len p |} in
        let '(ok, q) := push frame (frame_queue p) in
        let p := set_frame_queue q p in
        if ok then reset p else set_state ERROR (reset p)
      else store ch p
  | ERROR =>
      let p := set_idx 0 p in
      if Ascii.eqb ch "{" then set_state WAIT_P (reset p) else p
  | WAIT_END => reset p
  end.

(** The body of the loop of [poll] for one byte [ch] taken from the RX
    queue: the overflow guard, which drops the byte, or else the switch
    on the state. *)
Definition consume (ch : ascii) (p : cmnd_parser) : cmnd_parser :=
  if work_buf_size p <=? idx p then set_state ERROR (reset p)
  else on_state ch p.

(** [while (rx_queue.pop(ch)) ...]: every round removes one byte from
    the RX queue, so [buffer_size] rounds empty a well-formed queue
    ([poll_returns]); [None] would be a loop cut short. *)
Fixpoint poll_loop (fuel : nat) (p : cmnd_parser) : option cmnd_parser :=
  match fuel with
  | O => None
  | S fuel' =>
      match pop (rx_queue p) with
      | (Some ch, q) => poll_loop fuel' (consume ch (set_rx_queue q p))
      | (None, _) => Some p
      end
  end.

Definition poll (p : cmnd_parser) : option cmnd_parser :=
  poll_loop (Z.to_nat (buffer_size (rx_queue p))) p.

(** The bytes of a stream given to the loop body one after the other. *)
Definition feed (bytes : list ascii) (p : cmnd_parser) : cmnd_parser :=
  fold_left (fun p ch => consume ch p) bytes p.
End Parser.

(* ================================================================== *)
(** * core/cmnd_executer *)
(* ================================================================== *)

Module Executer.
Import RingBuffer.
Export Frame(cmnd_frame).

Definition MAX_CSV_ITEMS : Z := 8.

Inductive data_type : Type := NONE | INT | FLOAT | STRING.

Definition data_type_eqb (a b : data_type) : bool :=
  match a, b with
  | NONE, NONE | INT, INT | FLOAT, FLOAT | STRING, STRING => true
  | _, _ => false
  end.

(** A routing table entry. The handler is user code; it is identified
    by the position of its entry in the table. *)
Record path_entry : Type := Entry {
  path : list ascii;
  expected_type : data_type
}.

(** The array handed to a handler as [const void* data]: [nullptr], or
    the first [count] elements of the local [values] array. String
    values are pointers into the work buffer. *)
Inductive values : Type :=
  | no_values
  | int_values (v : list Z)
  | float_values (v : list F32.float)
  | string_values (v : list Frame.ptr).

(** One invocation [path_table[route].handler(type, data, count)]. *)
Record call : Type := Call {
  route : nat;
  type : data_type;
  args : values;
  count : Z
}.

(** [strcmp] of the C library: the difference of the first pair of
    characters that differ, 0 when both strings end together. The end
    of a region reads as NUL. *)
Fixpoint strcmp (a b : list ascii) : Z :=
  match a, b with
  | ca :: a', cb :: b' =>
      if Ascii.eqb ca cb then (if is_nul ca then 0 else strcmp a' b')
      else code ca - code cb
  | ca :: _, [] => code ca
  | [], cb :: _ => - code cb
  | [], [] => 0
  end.

Fixpoint detect_type_from (has_dot : bool) (p : list ascii) : data_type :=
  match p with
  | [] => if has_dot then FLOAT else INT
  | c :: p' =>
      if is_nul c then (if has_dot then FLOAT else INT)
      else if Ascii.eqb c "." then detect_type_from true p'
      else if ((code c <? code "0") || (code "9" <? code c))
              && negb (Ascii.eqb c "-") && negb (Ascii.eqb c ",")
           then STRING
           else detect_type_from has_dot p'
  end.

Definition detect_type (data : list ascii) : data_type :=
  detect_type_from false data.

Fixpoint count_csv_from (count : Z) (p : list ascii) : Z :=
  match p with
  | [] => count
  | c :: p' =>
      if is_nul c then count
      else count_csv_from (if Ascii.eqb c "," then u16 (count + 1) else count) p'
  end.

Definition count_csv (data : list ascii) : Z := count_csv_from 1 data.

(** The character under the cursor [data]: the first one of the
    region, NUL at its end. *)
Definition peek (data : list ascii) : ascii :=
  match data with c :: _ => c | [] => NUL end.

(** The inner loop: advance [data] to the next comma or to the
    terminator. *)
Fixpoint skip_field (data : list ascii) : list ascii :=
  match data with
  | [] => []
  | c :: rest =>
      if is_nul c || Ascii.eqb c "," then data else skip_field rest
  end.

(** Step over a comma, if [data] is at one. *)
Definition skip_comma (data : list ascii) : list ascii :=
  match data with
  | c :: rest => if Ascii.eqb c "," then rest else data
  | [] => []
  end.

Section numeric.
(** A numeric conversion of the C library ([atoi], [strtof]), as a
    function of the string at the pointer it is given. *)
Context {N : Type} (convert : list ascii -> N).

(** The loop shared by [parse_int_csv] and [parse_float_csv], with
    [budget] the distance of [count] from [MAX_CSV_ITEMS] and [out]
    the elements written so far. *)
Fixpoint parse_numeric_csv_from (budget : nat) (data : list ascii)
    (out : list N) : list N :=
  match budget with
  | O => out
  | S budget' =>
      if is_nul (peek data) then out
      else parse_numeric_csv_from budget'
             (skip_comma (skip_field data)) (out ++ [convert (c_str data)])
  end.

Definition parse_numeric_csv (data : list ascii) : list N :=
  parse_numeric_csv_from (Z.to_nat MAX_CSV_ITEMS) data [].
End numeric.

Definition parse_int_csv (atoi : list ascii -> Z) := parse_numeric_csv atoi.
Definition parse_float_csv (strtof : list ascii -> F32.float) :=
  parse_numeric_csv strtof.

(** [parse_string_csv] over the work buffer [mem], [data] being the
    offset the cursor points to. Every round moves the cursor one
    character towards the terminator, so [fuel] rounds, the size of the
    region, are enough. A read past the region gives NUL. *)
Fixpoint parse_string_csv_from (fuel : nat) (mem : list ascii) (data : Z)
    (out : list Frame.ptr) : list ascii * list Frame.ptr :=
  match fuel with
  | O => (mem, out)
  | S fuel' =>
      if is_nul (mem !!! Z.to_nat data)
         || negb (Z.of_nat (length out) <? MAX_CSV_ITEMS)
      then (mem, out)
      else if Ascii.eqb (mem !!! Z.to_nat data) ","
      then parse_string_csv_from fuel' (<[Z.to_nat data := NUL]> mem)
             (data + 1) (out ++ [Some (data + 1)])
      else parse_string_csv_from fuel' mem (data + 1) out
  end.

Definition parse_string_csv (mem : list ascii) (data : Z)
  : list ascii * list Frame.ptr :=
  parse_string_csv_from (length mem) mem data [Some data].

Section poll.
Context (atoi : list ascii -> Z) (strtof : list ascii -> F32.float).

(** What a call of [poll] leaves behind: the frame queue, the work
    buffer the frames point into, and the handler invocation made,
    if any. *)
Record outcome : Type := Outcome {
  frames : ring_buffer cmnd_frame;
  memory : list ascii;
  invoked : option call
}.

(** The [for] loop over the table from entry [i] on. *)
Fixpoint dispatch (table : list path_entry) (i : nat) (frame : cmnd_frame)
    (mem : list ascii) : list ascii * option call :=
  match table with
  | [] => (mem, None)
  | entry :: rest =>
      if negb (strcmp (Frame.deref mem (Frame.path frame)) (path entry) =? 0)
      then dispatch rest (S i) frame mem
      else if match Frame.data frame with None => true | Some _ => false end
              || (Frame.data_len frame =? 0)
      then (mem, Some (Call i NONE no_values 0))
      else
        let data := Frame.deref mem (Frame.data frame) in
        let type := detect_type data in
        if negb (data_type_eqb type (expected_type entry)) then (mem, None)
        else
          match type with
          | INT =>
              let values := parse_int_csv atoi data in
              (mem, Some (Call i INT (int_values values)
                            (Z.of_nat (length values))))
          | FLOAT =>
              let values := parse_float_csv strtof data in
              (mem, Some (Call i FLOAT (float_values values)
                            (Z.of_nat (length values))))
          | STRING =>
              let '(mem', values) :=
                parse_string_csv mem (Frame.offset (Frame.data frame)) in
              (mem', Some (Call i STRING (string_values values)
                             (Z.of_nat (length values))))
          | NONE => (mem, None)
          end
  end.

Definition poll (table : list path_entry) (frame_queue : ring_buffer cmnd_frame)
    (mem : list ascii) : outcome :=
  match pop frame_queue with
  | (None, q) => {| frames := q; memory := mem; invoked := None |}
  | (Some frame, q) =>
      let '(mem', c) := dispatch table 0 frame mem in
      {| frames := q; memory := mem'; invoked := c |}
  end.
End poll.

(** The string a handler finds at a pointer it was given. *)
Definition string_at (mem : list ascii) (p : Frame.ptr) : list ascii :=
  c_str (Frame.deref mem p).
End Executer.

(* ================================================================== *)
(** * The wire format and the formatting contracts, as specified *)
(* ================================================================== *)

Module Wire.
Import Executer.

(** The frame [{p:<path>:d:<data>}]. *)
Definition frame_text (path data : list ascii) : list ascii :=
  text "{p:" ++ path ++ text ":d:" ++ data ++ text "}".

(** Items joined with commas. *)
Fixpoint csv_join (items : list (list ascii)) : list ascii :=
  match items with
  | [] => []
  | [item] => item
  | item :: rest => item ++ ","%char :: csv_join rest
  end.

(** The comma-separated fields of a payload. *)
Fixpoint csv_fields (payload : list ascii) : list (list ascii) :=
  match payload with
  | [] => [[]]
  | c :: rest =>
      if Ascii.eqb c "," then [] :: csv_fields rest
      else match csv_fields rest with
           | field :: others => (c :: field) :: others
           | [] => [[c]]
           end
  end.

Definition is_digit (c : ascii) : bool :=
  (code "0" <=? code c) && (code c <=? code "9").

(** The number a string of decimal digits denotes. *)
Definition digits_value (ds : list ascii) : Z :=
  fold_left (fun acc c => 10 * acc + (code c - code "0")) ds 0.

(** [ds] is the decimal numeral of the natural number [n]: digits
    only, at least one, no leading zero except for the numeral 0. *)
Definition is_numeral (ds : list ascii) (n : Z) : bool :=
  match ds with
  | [] => false
  | d :: more =>
      forallb is_digit ds
      && (negb (Ascii.eqb d "0") || match more with [] => true | _ => false end)
      && (digits_value ds =? n)
  end.

(** [s] is the canonical decimal representation of the integer [v]:
    the numeral of its magnitude, after a minus sign iff [v] is
    negative. *)
Definition is_decimal (s : list ascii) (v : Z) : bool :=
  if v <? 0
  then match s with
       | c :: ds => Ascii.eqb c "-" && is_numeral ds (- v)
       | [] => false
       end
  else is_numeral s v.

(** The leading character of a numeral is not the digit 0. *)
Definition leading_nonzero (ds : list ascii) : Prop :=
  match ds with
  | d :: _ => Ascii.eqb d "0" = false
  | [] => False
  end.

(** The frame view [f] over the work buffer [mem] shows the path [P]
    and the data [D]: both pointers are set, the slices they delimit
    hold [P] and [D], and a NUL follows each slice. *)
Definition frame_shows (mem : list ascii) (f : Frame.cmnd_frame)
    (P D : list ascii) : Prop :=
  Frame.path f <> None /\ Frame.data f <> None
  /\ Frame.path_len f = Z.of_nat (length P)
  /\ slice mem (Frame.offset (Frame.path f)) (Frame.path_len f) = P
  /\ Frame.data_len f = Z.of_nat (length D)
  /\ slice mem (Frame.offset (Frame.data f)) (Frame.data_len f) = D
  /\ slice mem (Frame.offset (Frame.path f)) (Frame.path_len f + 1) = P ++ [NUL]
  /\ slice mem (Frame.offset (Frame.data f)) (Frame.data_len f + 1) = D ++ [NUL].

(** The lexical classes of payload characters. *)
Definition numeric_char (c : ascii) : bool :=
  is_digit c || Ascii.eqb c "-" || Ascii.eqb c "," || Ascii.eqb c ".".

(** The classification of a payload in the specification's words:
    String if any character is not a digit, a minus, a comma or a dot;
    otherwise Float if a dot occurs anywhere, else Int. *)
Definition classify (payload : list ascii) : data_type :=
  if negb (forallb numeric_char payload) then STRING
  else if existsb (fun c => Ascii.eqb c ".") payload then FLOAT
  else INT.
End Wire.

(* ================================================================== *)
(** * Concrete instances *)
(* ================================================================== *)

Module Samples.
Import RingBuffer.

(** A queue of capacity 4 over integers. *)
Definition sample : ring_buffer Z := make [0; 0; 0; 0] 4.

(** A sender over an empty TX queue of 64 slots. *)
Definition idle : Sender.tx_state :=
  {| Sender.tx_queue := make (repeat NUL 64) 64; Sender.notified := 0 |}.

(** A parser with a work buffer of 32 bytes and room for three frames,
    its RX queue of 64 slots holding the bytes [rx]. *)
Definition listening (rx : list ascii) : Parser.cmnd_parser :=
  Parser.make (snd (push_list rx (make (repeat NUL 64) 64)))
    (make (repeat (Frame.Build None 0 None 0) 4) 4)
    (repeat NUL 32) 32.

(** The same parser with a frame half read that has filled its work
    buffer. *)
Definition overflowing (rx : list ascii) : Parser.cmnd_parser :=
  Parser.set_state Parser.READ_DATA (Parser.set_idx 32 (listening rx)).

(** The state of [idle] after sending three integers. *)
Definition sent : Sender.tx_state :=
  snd (Sender.send_int (text "ctrl/set_pid") [10; 20; -5] 3 idle).

(** A work buffer holding one parsed frame, path and payload, and the
    frame queue with its view. *)
Definition parsed (path payload : string) : list ascii :=
  text path ++ NUL :: text payload ++ [NUL].

Definition view (path payload : string) : Frame.cmnd_frame :=
  Frame.Build (Some 0) (Z.of_nat (String.length path))
    (Some (Z.of_nat (String.length path) + 1))
    (Z.of_nat (String.length payload)).

Definition pending (path payload : string) : ring_buffer Frame.cmnd_frame :=
  snd (push (view path payload)
         (make (repeat (Frame.Build None 0 None 0) 4) 4)).
End Samples.

(* ================================================================== *)
(** * States the parser reaches *)
(* ================================================================== *)

Module ParserSpec.
Import Parser.

(** A frame view that lies inside a work buffer of [cap] bytes: the path
    at the start of the buffer, the data right after the path's
    terminator, and both with their terminators within the buffer. *)
Definition in_bounds (cap : Z) (f : Frame.cmnd_frame) : Prop :=
  Frame.path f = Some 0
  /\ Frame.data f = Some (Frame.path_len f + 1)
  /\ 0 <= Frame.path_len f /\ 0 <= Frame.data_len f
  /\ Frame.path_len f + Frame.data_len f + 2 <= cap.

(** What holds of the members in each state of the machine. *)
Definition consistent (p : cmnd_parser) : Prop :=
  0 <= idx p <= work_buf_size p
  /\ match state p with
     | WAIT_START | WAIT_P | WAIT_P_COLON => idx p = 0
     | READ_PATH => path_ptr p = Some 0
     | WAIT_D | WAIT_D_COLON =>
         path_ptr p = Some 0 /\ path_len p = idx p - 1 /\ 1 <= idx p
     | READ_DATA =>
         path_ptr p = Some 0 /\ data_ptr p = Some (path_len p + 1)
         /\ 0 <= path_len p /\ path_len p + 1 <= idx p
     | WAIT_END => False
     | ERROR => True
     end.

(** The loop body stores a byte when the overflow guard lets it pass
    and a path or a payload is being read. *)
Definition stores (p : cmnd_parser) : Prop :=
  idx p < work_buf_size p /\ (state p = READ_PATH \/ state p = READ_DATA).

(** Between [p] and [p'] one byte, [ch] or a terminator, was written
    at the offset [idx p], inside the work buffer, and is found there. *)
Definition written_inside (ch : ascii) (p p' : cmnd_parser) : Prop :=
  (Z.to_nat (idx p) < length (workBuffer p))%nat
  /\ exists c,
       (c = ch \/ c = NUL)
       /\ workBuffer p' = <[Z.to_nat (idx p) := c]> (workBuffer p)
       /\ workBuffer p' !! Z.to_nat (idx p) = Some c.

(** What the round of the loop on the byte [ch] does to the work
    buffer. *)
Definition write_ok (ch : ascii) (p : cmnd_parser) : Prop :=
  (stores p -> written_inside ch p (consume ch p))
  /\ (~ stores p -> workBuffer (consume ch p) = workBuffer p).
End ParserSpec.

Module MoreSamples.
Import RingBuffer Samples.

(** The parser [listening] with its frame queue filled up: three views
    in its four slots. *)
Definition crowded (rx : list ascii) : Parser.cmnd_parser :=
  Parser.set_frame_queue
    (snd (push_list [view "a" "1"; view "b" "2"; view "c" "3"]
            (make (repeat (Frame.Build None 0 None 0) 4) 4)))
    (listening rx).

(** The state of [idle] after sending a trigger. *)
Definition triggered : Sender.tx_state :=
  snd (Sender.send_trigger (text "sys/reset") idle).

(** The state of [idle] after sending two strings. *)
Definition spoken : Sender.tx_state :=
  snd (Sender.send_string (text "log/print") [text "on"; text "fan 2"] 2 idle).
End MoreSamples.

(* ================================================================== *)
(** * Conversions of floats that are defined *)
(* ================================================================== *)

Module Cast.

(** [(int32_t)x] is defined: [x] is a number, not NaN or an infinity,
    and its truncation is an [int32_t]. *)
Definition defined (x : F32.float) : Prop :=
  match x with
  | S754_zero _ | S754_finite _ _ _ =>
      Sender.INT32_MIN <= F32.to_int x <= Sender.INT32_MAX
  | _ => False
  end.
End Cast.

(* ================================================================== *)
(** * Payloads as lists of fields *)
(* ================================================================== *)

Module Fields.
Import Wire.

(** A field of a payload: no comma and no terminator in it. *)
Definition plain (f : list ascii) : Prop :=
  Forall (fun c => c <> ","%char /\ c <> NUL) f.

(** The payload [csv_join fs] with its first [slots] commas replaced
    by terminators. *)
Fixpoint cut (slots : nat) (fs : list (list ascii)) {struct fs} : list ascii :=
  match fs with
  | [] => []
  | f :: rest =>
      match rest, slots with
      | [], _ => f
      | _, O => f ++ ","%char :: csv_join rest
      | _, S s => f ++ NUL :: cut s rest
      end
  end.

(** The offsets right after the first [slots] commas of the payload
    [csv_join fs] that starts at offset [off]. *)
Fixpoint starts (slots : nat) (off : Z) (fs : list (list ascii)) {struct fs}
  : list Frame.ptr :=
  match fs with
  | [] => []
  | f :: rest =>
      match rest, slots with
      | [], _ => []
      | _, O => []
      | _, S s =>
          Some (off + Z.of_nat (length f) + 1)
          :: starts s (off + Z.of_nat (length f) + 1) rest
      end
  end.

(** The fields a numeric conversion loop reaches: all of them, but not
    an empty one at the end of the payload. *)
Definition converted (fs : list (list ascii)) : nat :=
  match last fs with
  | Some [] => length fs - 1
  | _ => length fs
  end.
End Fields.

(* ================================================================== *)
(** * Calls of handlers *)
(* ================================================================== *)

Module Routing.
Import Executer.

(** The shape of a call made on behalf of [entry] for [frame]: without
    data when the frame has none, else of the type [detect_type] finds
    in the string at the data pointer, [data_len] being tested against 0
    only. *)
Definition call_for (mem : list ascii) (frame : cmnd_frame) (entry : path_entry)
    (c : call) (mem' : list ascii) : Prop :=
  (type c = NONE /\ args c = no_values /\ count c = 0
   /\ (Frame.data frame = None \/ Frame.data_len frame = 0)
   \/ type c = expected_type entry
      /\ type c = detect_type (Frame.deref mem (Frame.data frame))
      /\ Frame.data frame <> None /\ Frame.data_len frame <> 0)
  /\ 0 <= count c <= MAX_CSV_ITEMS
  /\ match args c with
     | no_values => type c = NONE
     | int_values v => type c = INT /\ Z.of_nat (length v) = count c
     | float_values v => type c = FLOAT /\ Z.of_nat (length v) = count c
     | string_values v => type c = STRING /\ Z.of_nat (length v) = count c
     end
  /\ (type c <> STRING -> mem' = mem).

(** What the dispatcher needs of [atoi]: on the decimal text of an
    [int32_t] value [v], alone or followed by a comma, it gives [v]. *)
Definition reads_decimals (atoi : list ascii -> Z) : Prop :=
  forall s v rest,
    Sender.INT32_MIN <= v <= Sender.INT32_MAX ->
    Wire.is_decimal s v = true ->
    atoi s = v /\ atoi (s ++ ","%char :: rest) = v.

(** A conversion with this property: an optional minus sign and the
    digits up to the first other character. *)
Fixpoint leading_digits (acc : Z) (s : list ascii) : Z :=
  match s with
  | c :: s' =>
      if Wire.is_digit c then leading_digits (10 * acc + (code c - code "0")) s'
      else acc
  | [] => acc
  end.

Definition decimal_prefix (s : list ascii) : Z :=
  match s with
  | c :: s' =>
      if Ascii.eqb c "-" then - leading_digits 0 s' else leading_digits 0 s
  | [] => 0
  end.

(** The same with the result kept within [int32_t], as a conversion
    built on [strtol] does. *)
Definition int_prefix (s : list ascii) : Z :=
  Z.max Sender.INT32_MIN (Z.min Sender.INT32_MAX (decimal_prefix s)).
End Routing.

(* ================================================================== *)
(** * port/STM32F103/usart2.cpp *)
(* ================================================================== *)

Module Usart2.

Definition u32 (x : Z) : Z := x mod 4294967296.

Definition PCLK1_FREQ : Z := 8000000.

(** [usart_calc_brr] on two [uint32_t]. A baud rate of 0 is a division
    by zero, which C++ leaves undefined: no result. *)
Definition usart_calc_brr (pclk baudrate : Z) : option Z :=
  if baudrate =? 0 then None
  else
    let usartdiv_times_16 := u32 (pclk + baudrate / 2) / baudrate in
    let mantissa := usartdiv_times_16 / 16 in
    let fraction := usartdiv_times_16 mod 16 in
    Some (u16 (Z.lor (u32 (Z.shiftl mantissa 4)) (Z.land fraction 15))).
End Usart2.

(* ================================================================== *)
(** * Index arithmetic *)
(* ================================================================== *)

Lemma u16_small x : 0 <= x < 65536 -> u16 x = x.
Proof. intros Hx. unfold u16. apply Z.mod_small; lia. Qed.

Lemma u16_bounds x : 0 <= x -> 0 <= u16 x <= x.
Proof.
  intros Hx. unfold u16. split.
  - apply Z.mod_pos_bound; lia.
  - apply Z.mod_le; lia.
Qed.

(** Stepping an index around a ring of [C] slots, without [mod]. *)
Lemma succ_mod (c C : Z) :
  0 <= c < C -> (c + 1) mod C = if c + 1 =? C then 0 else c + 1.
Proof.
  intros Hc. destruct (Z.eqb_spec (c + 1) C) as [->|Hne].
  - apply Z.mod_same; lia.
  - apply Z.mod_small; lia.
Qed.

Lemma wrap_mod (a C : Z) :
  0 <= a < 2 * C -> a mod C = if a <? C then a else a - C.
Proof.
  intros Ha. destruct (Z.ltb_spec a C).
  - apply Z.mod_small; lia.
  - symmetry. apply (Z.mod_unique_pos _ _ 1); lia.
Qed.

Lemma diff_mod (p c C : Z) :
  0 <= p < C -> 0 <= c < C ->
  (p - c) mod C = if c <=? p then p - c else p - c + C.
Proof.
  intros Hp Hc. destruct (Z.leb_spec c p).
  - apply Z.mod_small; lia.
  - symmetry. apply (Z.mod_unique_pos _ _ (-1)); lia.
Qed.

(* ================================================================== *)
(** * The ring buffer *)
(* ================================================================== *)

Module RingBufferFacts.
Import RingBuffer Samples.
Section facts.
Context {T : Type} `{!Inhabited T}.
Implicit Types (rb : ring_buffer T) (x y z : T) (xs : list T).

(** ** The index invariant *)

Lemma push_indices x rb :
  0 < buffer_size rb -> indices_ok rb -> indices_ok (snd (push x rb)).
Proof.
  intros HC [Hp Hc]. unfold push.
  destruct (_ =? cns rb); simpl; [by split|].
  split; simpl; [|done].
  pose proof (Z.mod_pos_bound (prd rb + 1) (buffer_size rb) HC).
  pose proof (u16_bounds ((prd rb + 1) mod buffer_size rb)). lia.
Qed.

Lemma pop_indices rb :
  0 < buffer_size rb -> indices_ok rb -> indices_ok (snd (pop rb)).
Proof.
  intros HC [Hp Hc]. unfold pop.
  destruct (_ =? prd rb); simpl; [by split|].
  split; simpl; [done|].
  pose proof (Z.mod_pos_bound (cns rb + 1) (buffer_size rb) HC).
  pose proof (u16_bounds ((cns rb + 1) mod buffer_size rb)). lia.
Qed.

Lemma push_buffer_size x rb : buffer_size (snd (push x rb)) = buffer_size rb.
Proof. unfold push. by destruct (_ =? _). Qed.

Lemma pop_buffer_size rb : buffer_size (snd (pop rb)) = buffer_size rb.
Proof. unfold pop. by destruct (_ =? _). Qed.

Lemma step_queue (s : run_state T) (o : op T) :
  queue (step s o)
  = match o with Push x => snd (push x (queue s)) | Pop => snd (pop (queue s)) end.
Proof.
  destruct o as [x|]; simpl.
  - by destruct (push x (queue s)).
  - by destruct (pop (queue s)).
Qed.

Lemma run_indices (ops : list (op T)) (s : run_state T) :
  0 < buffer_size (queue s) -> indices_ok (queue s) ->
  buffer_size (queue (fold_left step ops s)) = buffer_size (queue s)
  /\ indices_ok (queue (fold_left step ops s)).
Proof.
  revert s. induction ops as [|o ops IH]; intros s HC Hok; simpl; [done|].
  assert (buffer_size (queue (step s o)) = buffer_size (queue s)) as Hsz.
  { rewrite step_queue. destruct o; [apply push_buffer_size|apply pop_buffer_size]. }
  assert (indices_ok (queue (step s o))) as Hok'.
  { rewrite step_queue. destruct o; [by apply push_indices|by apply pop_indices]. }
  destruct (IH (step s o)) as [E1 E2]; [lia|done|].
  split; [congruence|done].
Qed.

(** ** Well-formed queues: what [push] and [pop] compute *)

Lemma full_or_not rb : full rb \/ ~ full rb.
Proof. unfold full. lia. Qed.

Lemma empty_or_not rb : empty rb \/ ~ empty rb.
Proof. unfold empty. lia. Qed.

Lemma next_u16 i rb :
  wf rb -> 0 <= i < buffer_size rb ->
  u16 ((i + 1) mod buffer_size rb) = (i + 1) mod buffer_size rb.
Proof.
  intros [HC _ _] Hi. apply u16_small.
  pose proof (Z.mod_pos_bound (i + 1) (buffer_size rb)). lia.
Qed.

Lemma push_full x rb : wf rb -> full rb -> push x rb = (false, rb).
Proof.
  intros Hwf Hfull. unfold push.
  rewrite next_u16 by (done || apply Hwf).
  by rewrite (proj2 (Z.eqb_eq _ _) Hfull).
Qed.

Lemma push_not_full x rb :
  wf rb -> ~ full rb ->
  push x rb
  = (true, {| buffer := <[Z.to_nat (prd rb) := x]> (buffer rb);
              buffer_size := buffer_size rb;
              prd := (prd rb + 1) mod buffer_size rb;
              cns := cns rb |}).
Proof.
  intros Hwf Hfull. unfold push, push_slot.
  rewrite next_u16 by (done || apply Hwf).
  rewrite (proj2 (Z.eqb_neq _ _) Hfull).
  destruct Hwf as [? [? ?] ?]. by rewrite (Z.mod_small (prd rb)) by lia.
Qed.

Lemma pop_empty rb : empty rb -> pop rb = (None, rb).
Proof. unfold empty, pop. intros ->. by rewrite Z.eqb_refl. Qed.

Lemma pop_not_empty rb :
  wf rb -> ~ empty rb ->
  pop rb
  = (Some (buffer rb !!! Z.to_nat (cns rb)),
     {| buffer := buffer rb;
        buffer_size := buffer_size rb;
        prd := prd rb;
        cns := (cns rb + 1) mod buffer_size rb |}).
Proof.
  intros Hwf Hne. unfold pop, pop_slot, empty in *.
  rewrite next_u16 by (done || apply Hwf).
  destruct (Z.eqb_spec (cns rb) (prd rb)) as [E|_]; [by symmetry in E|].
  destruct Hwf as [? [? ?] ?]. by rewrite (Z.mod_small (cns rb)) by lia.
Qed.

Lemma push_wf x rb : wf rb -> wf (snd (push x rb)).
Proof.
  intros Hwf. split.
  - rewrite push_buffer_size. apply Hwf.
  - apply push_indices; [destruct Hwf; lia|apply Hwf].
  - rewrite push_buffer_size. unfold push. destruct (_ =? _); simpl.
    + apply Hwf.
    + rewrite length_insert. apply Hwf.
Qed.

Lemma pop_wf rb : wf rb -> wf (snd (pop rb)).
Proof.
  intros Hwf. split.
  - rewrite pop_buffer_size. apply Hwf.
  - apply pop_indices; [destruct Hwf; lia|apply Hwf].
  - rewrite pop_buffer_size. unfold pop. destruct (_ =? _); simpl; apply Hwf.
Qed.

(** ** Counting *)

Lemma count_range rb : wf rb -> 0 <= count rb < buffer_size rb.
Proof. intros [? _ _]. unfold count. apply Z.mod_pos_bound. lia. Qed.

Lemma empty_count rb : wf rb -> empty rb <-> count rb = 0.
Proof.
  intros [? [? ?] _]. unfold empty, count. rewrite diff_mod by done.
  destruct (Z.leb_spec (cns rb) (prd rb)); lia.
Qed.

Lemma full_count rb : wf rb -> full rb <-> count rb = buffer_size rb - 1.
Proof.
  intros [? [? ?] _]. unfold full, count.
  rewrite diff_mod, succ_mod by done.
  destruct (Z.leb_spec (cns rb) (prd rb)), (Z.eqb_spec (prd rb + 1) (buffer_size rb)); lia.
Qed.

Lemma push_count x rb :
  wf rb -> ~ full rb -> count (snd (push x rb)) = count rb + 1.
Proof.
  intros Hwf Hfull. rewrite push_not_full by done.
  pose proof (proj2 (full_count rb Hwf)) as Hfc.
  destruct Hwf as [? [? ?] _]. unfold count in *. simpl.
  unfold full in Hfull. revert Hfull Hfc. rewrite succ_mod by done.
  destruct (Z.eqb_spec (prd rb + 1) (buffer_size rb)); intros Hfull Hfc.
  - rewrite !diff_mod by lia.
    destruct (Z.leb_spec (cns rb) 0), (Z.leb_spec (cns rb) (prd rb)); lia.
  - rewrite !diff_mod by lia.
    destruct (Z.leb_spec (cns rb) (prd rb + 1)), (Z.leb_spec (cns rb) (prd rb)); lia.
Qed.

Lemma pop_count rb :
  wf rb -> ~ empty rb -> count (snd (pop rb)) = count rb - 1.
Proof.
  intros Hwf Hne. rewrite pop_not_empty by done.
  destruct Hwf as [? [? ?] _]. unfold count, empty in *. simpl.
  rewrite succ_mod by done.
  destruct (Z.eqb_spec (cns rb + 1) (buffer_size rb)).
  - rewrite !diff_mod by lia.
    destruct (Z.leb_spec 0 (prd rb)), (Z.leb_spec (cns rb) (prd rb)); lia.
  - rewrite !diff_mod by lia.
    destruct (Z.leb_spec (cns rb + 1) (prd rb)), (Z.leb_spec (cns rb) (prd rb)); lia.
Qed.

(** ** The live elements *)

Lemma read_from_snoc (b : list T) C c n :
  0 <= c < C ->
  read_from b C c (S n)
  = read_from b C c n ++ [b !!! Z.to_nat ((c + Z.of_nat n) mod C)].
Proof.
  revert c. induction n as [|n IH]; intros c Hc.
  - simpl. by rewrite Z.add_0_r, Z.mod_small.
  - change (read_from b C c (S (S n)))
      with (b !!! Z.to_nat c :: read_from b C ((c + 1) mod C) (S n)).
    rewrite IH by (apply Z.mod_pos_bound; lia).
    rewrite Zplus_mod_idemp_l.
    replace (c + 1 + Z.of_nat n) with (c + Z.of_nat (S n)) by lia.
    change (read_from b C c (S n))
      with (b !!! Z.to_nat c :: read_from b C ((c + 1) mod C) n).
    done.
Qed.

Lemma read_from_insert_other (b : list T) C c n p x :
  0 <= c < C -> 0 <= p ->
  (forall k, 0 <= k < Z.of_nat n -> (c + k) mod C <> p) ->
  read_from (<[Z.to_nat p := x]> b) C c n = read_from b C c n.
Proof.
  revert c. induction n as [|n IH]; intros c Hc Hp Hfar; [done|].
  simpl. f_equal.
  - apply list_lookup_total_insert_ne.
    specialize (Hfar 0). rewrite Z.add_0_r, Z.mod_small in Hfar by lia. lia.
  - apply IH; [apply Z.mod_pos_bound; lia|done|].
    intros k Hk. rewrite Zplus_mod_idemp_l.
    replace (c + 1 + k) with (c + (k + 1)) by lia. apply Hfar. lia.
Qed.

Lemma contents_length rb : length (contents rb) = Z.to_nat (count rb).
Proof.
  unfold contents. generalize (cns rb) as c.
  induction (Z.to_nat (count rb)) as [|n IH]; intros c; simpl; [done|].
  by rewrite IH.
Qed.

Lemma contents_empty rb : wf rb -> empty rb -> contents rb = [].
Proof.
  intros Hwf He. unfold contents.
  by rewrite (proj1 (empty_count rb Hwf) He).
Qed.

(** A successful [push] appends to the live elements. *)
Lemma push_contents x rb :
  wf rb -> ~ full rb -> contents (snd (push x rb)) = contents rb ++ [x].
Proof.
  intros Hwf Hfull. unfold contents at 1.
  rewrite push_count by done. rewrite push_not_full by done. simpl.
  pose proof (count_range rb Hwf) as Hcnt.
  pose proof (full_count rb Hwf) as Hfc.
  destruct Hwf as [HC [Hp Hc] Hlen].
  replace (Z.to_nat (count rb + 1)) with (S (Z.to_nat (count rb))) by lia.
  rewrite read_from_snoc by done.
  assert ((cns rb + Z.of_nat (Z.to_nat (count rb))) mod buffer_size rb = prd rb)
    as ->.
  { rewrite Z2Nat.id by lia. unfold count. rewrite diff_mod by done.
    destruct (Z.leb_spec (cns rb) (prd rb)).
    - rewrite Z.mod_small; lia.
    - rewrite wrap_mod by lia.
      destruct (Z.ltb_spec (cns rb + (prd rb - cns rb + buffer_size rb))
                  (buffer_size rb)); lia. }
  rewrite list_lookup_total_insert_eq by lia.
  unfold contents. f_equal. apply read_from_insert_other; [done|lia|].
  intros k Hk. rewrite Z2Nat.id in Hk by lia.
  rewrite wrap_mod by lia. revert Hk Hfull. rewrite full_count by (by split).
  unfold count. rewrite diff_mod by done.
  destruct (Z.leb_spec (cns rb) (prd rb)),
    (Z.ltb_spec (cns rb + k) (buffer_size rb)); lia.
Qed.

(** A successful [pop] returns the oldest live element and removes
    it. *)
Lemma pop_contents rb :
  wf rb -> ~ empty rb ->
  exists x, fst (pop rb) = Some x /\ contents rb = x :: contents (snd (pop rb)).
Proof.
  intros Hwf Hne. exists (buffer rb !!! Z.to_nat (cns rb)).
  unfold contents at 2. rewrite pop_count by done.
  rewrite pop_not_empty by done. simpl. split; [done|].
  pose proof (count_range rb Hwf) as Hcnt.
  assert (count rb <> 0) as Hec by (by rewrite <- empty_count).
  unfold contents.
  replace (Z.to_nat (count rb)) with (S (Z.to_nat (count rb - 1))) by lia.
  done.
Qed.

(** ** Sequences of pushes *)

Lemma push_list_true xs rb rb' :
  wf rb -> push_list xs rb = (true, rb') ->
  wf rb' /\ contents rb' = contents rb ++ xs
  /\ count rb' = count rb + Z.of_nat (length xs).
Proof.
  revert rb. induction xs as [|x xs IH]; intros rb Hwf; simpl.
  - intros [= <-]. rewrite app_nil_r. split; [done|split; [done|lia]].
  - destruct (push x rb) as [ok rb1] eqn:Hpush.
    destruct ok; [|done]. intros Hrest.
    assert (~ full rb) as Hnf.
    { intros Hf. by rewrite push_full in Hpush. }
    assert (rb1 = snd (push x rb)) as -> by (by rewrite Hpush).
    destruct (IH _ (push_wf x rb Hwf) Hrest) as (Hwf' & Hc & Hn).
    rewrite push_contents in Hc by done. rewrite push_count in Hn by done.
    rewrite <- app_assoc in Hc. split; [done|split; [done|]].
    simpl length. lia.
Qed.

Lemma push_list_room xs rb :
  wf rb -> Z.of_nat (length xs) <= room rb -> fst (push_list xs rb) = true.
Proof.
  revert rb. induction xs as [|x xs IH]; intros rb Hwf Hroom; simpl; [done|].
  simpl length in Hroom. unfold room in Hroom.
  assert (~ full rb) as Hnf.
  { rewrite full_count by done. lia. }
  pose proof (push_count x rb Hwf Hnf) as Hn.
  pose proof (push_buffer_size x rb) as Hsz.
  pose proof (push_wf x rb Hwf) as Hwf'.
  rewrite push_not_full in * by done. simpl in *.
  apply IH; [done|]. unfold room. simpl. lia.
Qed.

(** ** Runs of pushes and pops *)

Lemma step_wf (s : run_state T) (o : op T) : wf (queue s) -> wf (queue (step s o)).
Proof.
  intros Hwf. rewrite step_queue. destruct o; [by apply push_wf|by apply pop_wf].
Qed.

(** Everything accepted so far is either popped already or still
    live, in order. *)
Lemma step_fifo (s : run_state T) (o : op T) (before : list T) :
  wf (queue s) ->
  before ++ accepted s = popped s ++ contents (queue s) ->
  before ++ accepted (step s o)
  = popped (step s o) ++ contents (queue (step s o)).
Proof.
  intros Hwf Hinv. destruct o as [x|]; simpl.
  - destruct (full_or_not (queue s)) as [Hf|Hnf].
    + rewrite push_full by done. done.
    + pose proof (push_contents x (queue s) Hwf Hnf) as Hc.
      rewrite push_not_full in * by done. simpl in *.
      by rewrite Hc, !app_assoc, Hinv.
  - destruct (empty_or_not (queue s)) as [He|Hne].
    + rewrite pop_empty by done. done.
    + destruct (pop_contents (queue s) Hwf Hne) as (x & Hx & Hc).
      destruct (pop (queue s)) as [out rb']. simpl in *. subst out.
      by rewrite <- app_assoc, Hinv, Hc.
Qed.

Lemma run_fifo (ops : list (op T)) (s : run_state T) (before : list T) :
  wf (queue s) ->
  before ++ accepted s = popped s ++ contents (queue s) ->
  before ++ accepted (fold_left step ops s)
  = popped (fold_left step ops s) ++ contents (queue (fold_left step ops s)).
Proof.
  revert s. induction ops as [|o ops IH]; intros s Hwf Hinv; simpl; [done|].
  apply IH; [by apply step_wf|by apply step_fifo].
Qed.

(** ** The properties of the specification *)

(** C4. For a queue of capacity C > 1, [push] returns false exactly
    when the queue is full, that is when (producer + 1) mod C equals
    the consumer index, and then leaves indices and storage as they
    were, while a successful push changes the state; [pop] returns
    false exactly when producer and consumer index are equal, and
    then leaves the state as it was, while a successful pop changes
    it. Consequently, from an empty queue, C - 1 pushes in a row all
    succeed, the next push fails, and after one pop the next push
    succeeds. *)
Theorem push_pop_refusal rb x :
  wf rb ->
  (fst (push x rb) = false <-> full rb)
  /\ (snd (push x rb) = rb <-> full rb)
  /\ (fst (pop rb) = None <-> empty rb)
  /\ (snd (pop rb) = rb <-> empty rb)
  /\ (empty rb ->
      forall xs y z,
        Z.of_nat (length xs) = buffer_size rb - 1 ->
        exists rb1 out rb2,
          push_list xs rb = (true, rb1)
          /\ push y rb1 = (false, rb1)
          /\ pop rb1 = (Some out, rb2)
          /\ fst (push z rb2) = true).
Proof.
  intros Hwf. pose proof Hwf as [HC [Hp Hc] Hlen].
  split; [|split; [|split; [|split]]].
  - destruct (full_or_not rb) as [Hf|Hnf].
    + by rewrite push_full.
    + by rewrite push_not_full.
  - destruct (full_or_not rb) as [Hf|Hnf].
    + by rewrite push_full.
    + rewrite push_not_full by done. simpl. split; [|done].
      intros E. apply (f_equal prd) in E. simpl in E.
      rewrite succ_mod in E by done.
      destruct (Z.eqb_spec (prd rb + 1) (buffer_size rb)); lia.
  - destruct (empty_or_not rb) as [He|Hne].
    + by rewrite pop_empty.
    + by rewrite pop_not_empty.
  - destruct (empty_or_not rb) as [He|Hne].
    + by rewrite pop_empty.
    + rewrite pop_not_empty by done. simpl. split; [|done].
      intros E. apply (f_equal cns) in E. simpl in E.
      rewrite succ_mod in E by done.
      destruct (Z.eqb_spec (cns rb + 1) (buffer_size rb)); lia.
  - intros He xs y z Hxs.
    pose proof (proj1 (empty_count rb Hwf) He) as H0.
    pose proof (push_list_room xs rb Hwf) as Hok.
    destruct (push_list xs rb) as [ok rb1] eqn:Hpl. simpl in Hok.
    assert (ok = true) as -> by (apply Hok; unfold room; lia). clear Hok.
    destruct (push_list_true _ _ _ Hwf Hpl) as (Hwf1 & _ & Hn1).
    assert (buffer_size rb1 = buffer_size rb) as Hsz1.
    { clear -Hpl. revert rb Hpl. induction xs as [|a xs IH]; intros rb; simpl.
      - by intros [= <-].
      - pose proof (push_buffer_size a rb) as Hb.
        destruct (push a rb) as [[] rb0]; [|done]. simpl in Hb.
        intros Hr. rewrite (IH _ Hr). done. }
    assert (full rb1) as Hf1 by (rewrite full_count by done; lia).
    assert (~ empty rb1) as Hne1 by (rewrite empty_count by done; lia).
    pose proof (pop_count rb1 Hwf1 Hne1) as Hn2.
    pose proof (pop_wf rb1 Hwf1) as Hwf2.
    pose proof (pop_buffer_size rb1) as Hsz2.
    rewrite pop_not_empty in * by done. simpl in Hn2, Hwf2, Hsz2.
    eexists rb1, _, _. split; [done|]. split; [by apply push_full|].
    split; [by apply pop_not_empty|]. rewrite push_not_full; [done|done|].
    rewrite full_count by done. simpl buffer_size. lia.
Qed.

(** C5. FIFO order: for every sequence of push and pop operations on
    a queue that starts empty, the values returned by successful pops
    are, in order, the values accepted by successful pushes: the popped
    values followed by the values still in the queue are exactly the
    accepted values, so the popped values form a prefix of them. *)
Theorem fifo_order rb (ops : list (op T)) :
  wf rb -> empty rb ->
  accepted (run ops rb) = popped (run ops rb) ++ contents (queue (run ops rb))
  /\ popped (run ops rb) `prefix_of` accepted (run ops rb).
Proof.
  intros Hwf He.
  assert (accepted (run ops rb)
          = popped (run ops rb) ++ contents (queue (run ops rb))) as E.
  { apply (run_fifo ops {| queue := rb; accepted := []; popped := [] |} []);
      simpl; [done|]. by rewrite contents_empty. }
  split; [done|]. eexists. exact E.
Qed.

(** C10. Index invariant: for a ring buffer constructed with
    bufferSize > 1, after construction and after every push or pop both
    the producer and the consumer index are below buffer_size; so every
    slot [push] writes and [pop] reads lies below buffer_size, and
    reducing the index modulo buffer_size on these accesses changes
    nothing. *)
Theorem index_invariant (storage : list T) (bufferSize : Z) (ops : list (op T)) :
  1 < bufferSize ->
  let rb := queue (run ops (make storage bufferSize)) in
  buffer_size rb = bufferSize
  /\ 0 <= prd rb < buffer_size rb
  /\ 0 <= cns rb < buffer_size rb
  /\ push_slot rb = prd rb
  /\ pop_slot rb = cns rb.
Proof.
  intros HC rb.
  destruct (run_indices ops {| queue := make storage bufferSize;
                               accepted := []; popped := [] |})
    as [Hsz [Hp Hc]]; simpl; [lia|split; simpl; lia|].
  fold (run ops (make storage bufferSize)) in Hsz, Hp, Hc. fold rb in Hsz, Hp, Hc.
  simpl in Hsz. unfold push_slot, pop_slot.
  rewrite !Z.mod_small by lia. done.
Qed.
End facts.

Lemma sample_wf : wf sample.
Proof. split; [simpl; lia|split; simpl; lia|reflexivity]. Qed.

Lemma push_pop_refusal_witness :
  wf sample /\ (fst (push 7 sample) = false <-> full sample).
Proof.
  split; [exact sample_wf|].
  exact (proj1 (push_pop_refusal sample 7 sample_wf)).
Defined.

Lemma fifo_order_witness :
  wf sample /\ empty sample
  /\ popped (run [Push 1; Push 2; Pop; Push 3; Pop] sample)
     `prefix_of` accepted (run [Push 1; Push 2; Pop; Push 3; Pop] sample).
Proof.
  split; [exact sample_wf|]. split; [reflexivity|].
  exact (proj2 (fifo_order sample [Push 1; Push 2; Pop; Push 3; Pop]
                  sample_wf eq_refl)).
Defined.

Lemma index_invariant_witness :
  1 < 4 /\ prd (queue (run [Push 1; Push 2; Pop] (make [0; 0; 0; 0] 4))) < 4.
Proof.
  split; [lia|].
  pose proof (index_invariant [0; 0; 0; 0] 4 [Push 1; Push 2; Pop]) as H.
  cbv zeta in H. destruct H as (Hsz & Hp & _); [lia|].
  rewrite Hsz in Hp. exact (proj2 Hp).
Defined.
End RingBufferFacts.

(* ================================================================== *)
(** * The frame encoder *)
(* ================================================================== *)

Module SenderFacts.
Import RingBuffer RingBufferFacts Sender Wire Samples.

(** ** Actions as character sequences *)

Lemma emits_done : emits done_true [].
Proof. by intros s. Qed.

Lemma emits_push_char c : emits (push_char c) [c].
Proof.
  intros s. simpl. unfold and_then, done_true.
  destruct (push_char c s) as [[] s']; done.
Qed.

Lemma push_chars_app a b s :
  push_chars (a ++ b) s = (push_chars a ;;; push_chars b) s.
Proof.
  revert s. induction a as [|c a IH]; intros s; simpl.
  - unfold and_then, done_true. done.
  - unfold and_then in *. destruct (push_char c s) as [[] s1]; [|done].
    apply IH.
Qed.

Lemma emits_and_then f k a b :
  emits f a -> emits k b -> emits (f ;;; k) (a ++ b).
Proof.
  intros Hf Hk s. rewrite push_chars_app. unfold and_then.
  rewrite Hf. destruct (push_chars a s) as [[] s1]; [apply Hk|done].
Qed.

Lemma emits_push_string region : emits (push_string region) (c_str region).
Proof.
  induction region as [|c region IH]; simpl; [apply emits_done|].
  destruct (is_nul c); [apply emits_done|].
  apply (emits_and_then _ _ [c]); [apply emits_push_char|done].
Qed.

Lemma emits_push_backwards buf i :
  (i <= length buf)%nat -> emits (push_backwards buf i) (rev (take i buf)).
Proof.
  induction i as [|i IH]; intros Hi; simpl push_backwards.
  - rewrite take_0. apply emits_done.
  - destruct (lookup_lt_is_Some_2 buf i) as [c Hc]; [lia|].
    rewrite (take_S_r _ _ _ Hc), rev_app_distr. simpl rev.
    rewrite (list_lookup_total_correct _ _ _ Hc).
    apply (emits_and_then _ _ [c]); [apply emits_push_char|apply IH; lia].
Qed.

Lemma emits_push_backwards_all buf :
  emits (push_backwards buf (length buf)) (rev buf).
Proof.
  pose proof (emits_push_backwards buf (length buf) ltac:(lia)) as H.
  by rewrite firstn_all in H.
Qed.

(** ** What reaches the queue *)

Lemma push_char_true c s s' :
  wf (tx_queue s) -> push_char c s = (true, s') ->
  wf (tx_queue s')
  /\ contents (tx_queue s') = contents (tx_queue s) ++ [c]
  /\ notified s' = S (notified s).
Proof.
  intros Hwf. unfold push_char.
  destruct (full_or_not (tx_queue s)) as [Hf|Hnf].
  - by rewrite push_full.
  - pose proof (push_wf c _ Hwf) as Hwf'.
    pose proof (push_contents c _ Hwf Hnf) as Hc.
    rewrite push_not_full in * by done. by intros [= <-].
Qed.

Lemma push_chars_true cs s s' :
  wf (tx_queue s) -> push_chars cs s = (true, s') ->
  wf (tx_queue s')
  /\ contents (tx_queue s') = contents (tx_queue s) ++ cs
  /\ notified s' = (notified s + length cs)%nat.
Proof.
  revert s. induction cs as [|c cs IH]; intros s Hwf; simpl.
  - intros [= <-]. rewrite app_nil_r. split; [done|split; [done|lia]].
  - unfold and_then. destruct (push_char c s) as [[] s1] eqn:Hc; [|done].
    destruct (push_char_true _ _ _ Hwf Hc) as (Hwf1 & Hc1 & Hn1).
    intros Hrest. destruct (IH _ Hwf1 Hrest) as (Hwf' & Hc' & Hn').
    split; [done|]. split; [|lia].
    by rewrite Hc', Hc1, <- app_assoc.
Qed.

Lemma push_chars_room cs s :
  wf (tx_queue s) -> Z.of_nat (length cs) <= room (tx_queue s) ->
  fst (push_chars cs s) = true.
Proof.
  revert s. induction cs as [|c cs IH]; intros s Hwf Hroom; simpl; [done|].
  simpl length in Hroom. unfold room in Hroom.
  assert (~ full (tx_queue s)) as Hnf by (rewrite full_count by done; lia).
  pose proof (push_count c _ Hwf Hnf) as Hn.
  pose proof (push_buffer_size c (tx_queue s)) as Hsz.
  pose proof (push_wf c _ Hwf) as Hwf'.
  unfold and_then, push_char.
  rewrite push_not_full in * by done. simpl in *.
  apply IH; [done|]. unfold room. simpl. lia.
Qed.

(** ** Decimal digits *)

Lemma code_char_of_int x : 0 <= x < 256 -> code (char_of_int x) = x.
Proof.
  intros Hx. unfold code, char_of_int. rewrite Z.mod_small by done.
  rewrite N_ascii_embedding by lia. lia.
Qed.

Lemma digit_char r :
  0 <= r <= 9 ->
  is_digit (char_of_int (code "0" + r)) = true
  /\ code (char_of_int (code "0" + r)) - code "0" = r
  /\ (r <> 0 -> Ascii.eqb (char_of_int (code "0" + r)) "0" = false).
Proof.
  intros Hr. unfold is_digit. change (code "0") with 48. change (code "9") with 57.
  rewrite code_char_of_int by lia. split; [lia|]. split; [lia|].
  intros Hnz. apply Ascii.eqb_neq. intros E.
  apply (f_equal code) in E. rewrite code_char_of_int in E by lia.
  change (code "0") with 48 in E. lia.
Qed.

Lemma digits_value_snoc ds d :
  digits_value (ds ++ [d]) = 10 * digits_value ds + (code d - code "0").
Proof. unfold digits_value. by rewrite fold_left_app. Qed.

Lemma leading_nonzero_app ds more :
  leading_nonzero ds -> leading_nonzero (ds ++ more).
Proof. by destruct ds. Qed.

Lemma log2_tenth v : 0 < v / 10 -> Z.log2 (v / 10) < Z.log2 v.
Proof.
  intros Hq. assert (0 < v) as Hv.
  { destruct (Z.lt_trichotomy v 0) as [?|[->|?]]; [|done..].
    pose proof (Z.div_lt_upper_bound v 10 0). lia. }
  assert (v / 10 <= v / 2) as Hle.
  { apply Z.div_le_lower_bound; [lia|].
    pose proof (Z.mul_div_le v 10). lia. }
  pose proof (Z.log2_le_mono _ _ Hle) as Hmono.
  replace (v / 2) with (Z.shiftr v 1) in Hmono
    by (rewrite Z.shiftr_div_pow2 by lia; done).
  rewrite Z.log2_shiftr in Hmono by done.
  assert (0 < Z.log2 v); [|lia].
  apply Z.log2_pos. pose proof (Z.div_lt_upper_bound v 10 1). lia.
Qed.

(** The digit loop writes the digits of [v], least significant first,
  and its fuel is not exhausted. *)
Lemma digits_loop_spec fuel v buf :
  0 <= v -> v = 0 \/ Z.log2 v < Z.of_nat fuel ->
  exists l,
    digits_loop fuel v buf = (0, buf ++ l)
    /\ (forall c, In c l -> is_digit c = true)
    /\ digits_value (rev l) = v
    /\ (0 < v -> leading_nonzero (rev l))
    /\ (v = 0 -> l = []).
Proof.
  revert v buf. induction fuel as [|fuel IH]; intros v buf Hv Hfuel.
  - assert (v = 0) as -> by (pose proof (Z.log2_nonneg v); lia).
    exists []. rewrite app_nil_r. repeat split; (done || lia).
  - simpl. destruct (Z.ltb_spec 0 v) as [Hpos|Hle].
    + rewrite Z.quot_div_nonneg, Z.rem_mod_nonneg by lia.
      pose proof (Z.mod_pos_bound v 10 ltac:(lia)) as Hr.
      pose proof (Z.div_mod v 10 ltac:(lia)) as Hdm.
      pose proof (Z.div_pos v 10 ltac:(lia) ltac:(lia)) as Hq.
      destruct (digit_char (v mod 10) ltac:(lia)) as (Hd1 & Hd2 & Hd3).
      set (d := char_of_int (code "0" + v mod 10)) in *.
      destruct (IH (v / 10) (buf ++ [d]) Hq) as (l & El & Hdig & Hval & Hlead & Hnil).
      { destruct (Z.eq_dec (v / 10) 0) as [?|Hne]; [by left|right].
        pose proof (log2_tenth v ltac:(lia)). lia. }
      exists (d :: l). rewrite El, <- app_assoc. split; [done|].
      split; [|split; [|split]].
      * intros c [<-|Hin]; [done|by apply Hdig].
      * simpl rev. rewrite digits_value_snoc, Hval, Hd2. lia.
      * intros _. simpl rev. destruct (Z.eq_dec (v / 10) 0) as [E0|Hne].
        -- rewrite (Hnil E0). simpl. apply Hd3. lia.
        -- apply leading_nonzero_app, Hlead. lia.
      * lia.
    + assert (v = 0) as -> by lia. exists []. rewrite app_nil_r.
      repeat split; (done || lia).
Qed.

Lemma digits_loop_length k fuel v buf :
  (0 <= v < 10 ^ Z.of_nat k) ->
  (length (snd (digits_loop fuel v buf)) <= length buf + k)%nat.
Proof.
  revert k v buf. induction fuel as [|fuel IH]; intros k v buf Hv; simpl; [lia|].
  destruct (Z.ltb_spec 0 v) as [Hpos|Hle]; simpl; [|lia].
  destruct k as [|k]; [simpl in Hv; lia|].
  rewrite Z.quot_div_nonneg by lia.
  specialize (IH k (v / 10) (buf ++ [char_of_int (code "0" + Z.rem v 10)])).
  rewrite length_app in IH. simpl in IH.
  assert (0 <= v / 10 < 10 ^ Z.of_nat k); [|lia].
  split; [apply Z.div_pos; lia|].
  apply Z.div_lt_upper_bound; [lia|].
  rewrite Nat2Z.inj_succ, Z.pow_succ_r in Hv by lia. lia.
Qed.

Lemma is_numeral_intro ds n :
  (forall c, In c ds -> is_digit c = true) ->
  leading_nonzero ds -> digits_value ds = n ->
  is_numeral ds n = true.
Proof.
  intros Hdig Hlead Hval. destruct ds as [|d more]; [done|].
  unfold is_numeral. simpl in Hlead.
  rewrite (proj2 (forallb_forall _ _) Hdig), Hlead, Hval, Z.eqb_refl. done.
Qed.

(** [push_int] sends the canonical decimal representation of [v], at
  most eleven characters. *)
Lemma push_int_emits v :
  INT32_MIN <= v <= INT32_MAX ->
  exists cs,
    emits (push_int v) cs
    /\ is_decimal cs v = true
    /\ (length cs <= 11)%nat
    /\ (v = INT32_MIN -> cs = text "-2147483648").
Proof.
  intros Hv. unfold push_int.
  destruct (Z.eqb_spec v INT32_MIN) as [->|Hmin].
  { exists (text "-2147483648"). split; [apply emits_push_string|].
    split; [by vm_compute|]. split; [simpl; lia|done]. }
  destruct (Z.eqb_spec v 0) as [->|Hz].
  { exists ["0"%char]. split; [apply emits_push_char|].
    split; [by vm_compute|]. split; [simpl; lia|]. by intros. }
  unfold INT32_MIN, INT32_MAX in *. cbv zeta.
  set (m := if v <? 0 then - v else v).
  assert (0 < m < 10 ^ Z.of_nat 10) as Hm.
  { subst m. change (10 ^ Z.of_nat 10) with 10000000000.
    destruct (Z.ltb_spec v 0); lia. }
  destruct (digits_loop_spec (digits_fuel m) m []) as (l & El & Hdig & Hval & Hlead & _);
    [lia|right; unfold digits_fuel; pose proof (Z.log2_nonneg m); lia|].
  pose proof (digits_loop_length 10 (digits_fuel m) m [] ltac:(lia)) as Hlen.
  rewrite El in *. simpl in Hlen. clear El. simpl app.
  assert (is_numeral (rev l) m = true) as Hnum.
  { apply is_numeral_intro; [|apply Hlead; lia|done].
    intros c Hc. apply Hdig. by apply in_rev. }
  destruct (Z.ltb_spec v 0) as [Hneg|Hpos]; subst m.
  - exists ("-"%char :: rev l). split; [|split; [|split]].
    + replace ("-"%char :: rev l) with (rev (l ++ ["-"%char]))
        by (by rewrite rev_app_distr).
      apply emits_push_backwards_all.
    + unfold is_decimal. rewrite (proj2 (Z.ltb_lt _ _) Hneg). by rewrite Hnum.
    + simpl. rewrite length_rev. lia.
    + lia.
  - exists (rev l). split; [|split; [|split]].
    + apply emits_push_backwards_all.
    + unfold is_decimal. by rewrite (proj2 (Z.ltb_ge _ _) Hpos).
    + rewrite length_rev. lia.
    + lia.
Qed.

(** C9. Integer encoding: for every int32 value v, [push_int] on a TX
  queue with room for the text (eleven characters at most) returns
  true and appends to the queue exactly the canonical decimal
  representation of v: digits without a leading zero (the single digit
  0 for v = 0), after a minus sign iff v is negative; for INT32_MIN,
  which the code treats apart, the bytes are [-2147483648]. *)
Theorem push_int_decimal v s :
  INT32_MIN <= v <= INT32_MAX ->
  wf (tx_queue s) -> 11 <= room (tx_queue s) ->
  exists cs s',
    push_int v s = (true, s')
    /\ contents (tx_queue s') = contents (tx_queue s) ++ cs
    /\ is_decimal cs v = true
    /\ (v = INT32_MIN -> cs = text "-2147483648").
Proof.
  intros Hv Hwf Hroom.
  destruct (push_int_emits v Hv) as (cs & Hemit & Hdec & Hlen & Hmin).
  pose proof (push_chars_room cs s Hwf ltac:(lia)) as Hok.
  rewrite <- Hemit in Hok.
  destruct (push_int v s) as [ok s'] eqn:E. simpl in Hok. subst ok.
  exists cs, s'. split; [done|]. split; [|done].
  rewrite Hemit in E. by destruct (push_chars_true _ _ _ Hwf E) as (_ & -> & _).
Qed.

Lemma idle_wf : wf (tx_queue idle).
Proof. split; [simpl; lia|split; simpl; lia|reflexivity]. Qed.

Lemma push_int_decimal_witness :
  (INT32_MIN <= -407 <= INT32_MAX) /\ wf (tx_queue idle)
  /\ 11 <= room (tx_queue idle)
  /\ exists cs s',
       push_int (-407) idle = (true, s')
       /\ contents (tx_queue s') = contents (tx_queue idle) ++ cs
       /\ is_decimal cs (-407) = true
       /\ (-407 = INT32_MIN -> cs = text "-2147483648").
Proof.
  assert (INT32_MIN <= -407 <= INT32_MAX) as Hv by (unfold INT32_MIN, INT32_MAX; lia).
  assert (11 <= room (tx_queue idle)) as Hroom by (vm_compute; discriminate).
  split; [exact Hv|]. split; [exact idle_wf|]. split; [exact Hroom|].
  exact (push_int_decimal (-407) idle Hv idle_wf Hroom).
Defined.

(** ** Frames *)

Lemma emits_eq f a b : emits f a -> a = b -> emits f b.
Proof. by intros H <-. Qed.

Lemma csv_join_cons item rest :
  csv_join (item :: rest) = item ++ flat_map (cons ","%char) rest.
Proof.
  revert item. induction rest as [|next rest IH]; intros item.
  - simpl. by rewrite app_nil_r.
  - change (csv_join (item :: next :: rest))
      with (item ++ ","%char :: csv_join (next :: rest)).
    by rewrite IH.
Qed.

Lemma begin_frame_emits region :
  emits (begin_frame region) (text "{p:" ++ c_str region ++ text ":d:").
Proof.
  unfold begin_frame.
  eapply emits_eq.
  - repeat (apply emits_and_then;
            [first [apply emits_push_char | apply emits_push_string]|]).
    apply emits_done.
  - done.
Qed.

Lemma end_frame_emits : emits end_frame (text "}").
Proof.
  unfold end_frame. eapply emits_eq.
  - apply emits_and_then; [apply emits_push_char|apply emits_done].
  - done.
Qed.

(** The loop of [send_int] sends the decimal texts of the values from
    index [i] on, a comma before each but the one at index 0. *)
Lemma send_loop_emits values n i :
  (i + n <= length values)%nat ->
  Forall (fun v => INT32_MIN <= v <= INT32_MAX) values ->
  exists fields,
    Forall2 (fun field v => is_decimal field v = true) fields
      (take n (drop i values))
    /\ emits (send_loop push_int values i n)
         (if (i =? 0)%nat then csv_join fields
          else flat_map (cons ","%char) fields).
Proof.
  intros Hlen Hrange. revert i Hlen.
  induction n as [|n IH]; intros i Hlen.
  - exists []. split; [rewrite take_0; constructor|].
    simpl. destruct (i =? 0)%nat; apply emits_done.
  - destruct (lookup_lt_is_Some_2 values i) as [v Hv]; [lia|].
    destruct (push_int_emits v) as (cs & Hcs & Hdec & _).
    { by apply (Forall_lookup_1 _ _ _ _ Hrange Hv). }
    destruct (IH (S i)) as (fields & Hfields & Hrest); [lia|].
    exists (cs :: fields). split.
    + rewrite (drop_S _ _ _ Hv). simpl. by constructor.
    + simpl send_loop. rewrite (list_lookup_total_correct _ _ _ Hv).
      change (S i =? 0)%nat with false in Hrest. cbv iota in Hrest.
      destruct (i =? 0)%nat.
      * eapply emits_eq.
        -- apply emits_and_then; [apply emits_done|].
           apply emits_and_then; [exact Hcs|exact Hrest].
        -- by rewrite csv_join_cons.
      * eapply emits_eq.
        -- apply emits_and_then; [apply emits_push_char|].
           apply emits_and_then; [exact Hcs|exact Hrest].
        -- done.
Qed.

Lemma send_int_emits region values :
  Forall (fun v => INT32_MIN <= v <= INT32_MAX) values ->
  exists fields,
    Forall2 (fun field v => is_decimal field v = true) fields values
    /\ emits (send_int region values (Z.of_nat (length values)))
         (frame_text (c_str region) (csv_join fields)).
Proof.
  intros Hrange.
  destruct (send_loop_emits values (length values) 0) as (fields & Hfields & Hloop);
    [lia|done|].
  rewrite firstn_all in Hfields. exists fields. split; [done|].
  unfold send_int. rewrite Nat2Z.id. eapply emits_eq.
  - apply emits_and_then; [apply begin_frame_emits|].
    apply emits_and_then; [exact Hloop|apply end_frame_emits].
  - unfold frame_text. by rewrite <- !app_assoc.
Qed.

(** A decimal text holds digits and at most a minus sign. *)
Lemma is_decimal_chars cs v c :
  is_decimal cs v = true -> In c cs -> is_digit c = true \/ c = "-"%char.
Proof.
  assert (forall ds n, is_numeral ds n = true -> In c ds -> is_digit c = true)
    as Hnum.
  { intros ds n Hds Hin. destruct ds as [|d more]; [done|].
    unfold is_numeral in Hds.
    apply andb_prop in Hds as [Hds _]. apply andb_prop in Hds as [Hds _].
    by apply (proj1 (forallb_forall _ _) Hds). }
  unfold is_decimal. destruct (v <? 0).
  - destruct cs as [|c0 ds]; [done|]. intros H [<-|Hin].
    + right. apply andb_prop in H as [H _]. by apply Ascii.eqb_eq in H.
    + left. apply andb_prop in H as [_ H]. by apply (Hnum ds (- v)).
  - intros H Hin. left. by apply (Hnum cs v).
Qed.

Lemma csv_join_chars fields values c :
  Forall2 (fun field v => is_decimal field v = true) fields values ->
  In c (csv_join fields) ->
  is_digit c = true \/ c = "-"%char \/ c = ","%char.
Proof.
  induction 1 as [|field v fields values Hd _ IH]; [done|].
  rewrite csv_join_cons. intros Hin. apply in_app_or in Hin as [Hin|Hin].
  - destruct (is_decimal_chars _ _ _ Hd Hin); auto.
  - clear -IH Hin. revert IH Hin. destruct fields as [|next fields]; [done|].
    intros IH. change (flat_map (cons ","%char) (next :: fields))
      with (","%char :: next ++ flat_map (cons ","%char) fields).
    rewrite csv_join_cons in IH. intros [<-|Hin]; auto.
Qed.

(** C3. Float encoding with three fractional digits and the carry of
    the rounded fraction: a fraction that rounds up to 1000 must raise
    the integer part before any digit is sent, so that 1.9995 is sent as
    2.000. The code sends the integer part before it rounds the
    fraction, and the carry never reaches the digits sent: for the
    binary32 value of 1.9995, and for the 3.9999 of the header's own
    example, [push_float] sends 1.000 and 3.000, where the specification
    and the header's documentation call for 2.000 and 4.000. *)
Theorem push_float_carry_lost :
  F32.decimal 19995 4 = S754_finite false 16773022 (-23)
  /\ (exists s', push_float (F32.decimal 19995 4) idle = (true, s')
               /\ contents (tx_queue s') = text "1.000")
  /\ (exists s', push_float (F32.decimal 39999 4) idle = (true, s')
               /\ contents (tx_queue s') = text "3.000").
Proof.
  split; [by vm_compute|].
  split; eexists; split; by vm_compute.
Qed.
End SenderFacts.

(* ================================================================== *)
(** * The frame parser *)
(* ================================================================== *)

Module ParserFacts.
Import RingBuffer RingBufferFacts Parser Wire Samples.

(** ** The loop of [poll] *)

Lemma consume_set_rx_queue q ch p :
  consume ch (set_rx_queue q p) = set_rx_queue q (consume ch p).
Proof.
  destruct p as [rx fq w cap i pp pl dp dl st]. unfold consume. simpl.
  destruct (cap <=? i); [done|]. unfold on_state. simpl.
  destruct st; simpl; repeat (destruct (Ascii.eqb ch _); simpl); try done.
  match goal with |- context [push ?f fq] => by destruct (push f fq) as [[] ?] end.
Qed.

Lemma feed_set_rx_queue q bytes p :
  feed bytes (set_rx_queue q p) = set_rx_queue q (feed bytes p).
Proof.
  revert p. induction bytes as [|ch bytes IH]; intros p; [done|].
  unfold feed in *. simpl. by rewrite consume_set_rx_queue, IH.
Qed.

Lemma set_rx_queue_twice q q' p :
  set_rx_queue q (set_rx_queue q' p) = set_rx_queue q p.
Proof. done. Qed.

Lemma set_rx_queue_same p : set_rx_queue (rx_queue p) p = p.
Proof. by destruct p. Qed.

Lemma feed_app a b p : feed (a ++ b) p = feed b (feed a p).
Proof. unfold feed. apply fold_left_app. Qed.

(** With enough rounds the loop takes every byte of the RX queue, in
  order, and returns. *)
Lemma poll_loop_feed fuel p :
  wf (rx_queue p) -> count (rx_queue p) < Z.of_nat fuel ->
  exists q,
    poll_loop fuel p = Some (set_rx_queue q (feed (contents (rx_queue p)) p))
    /\ wf q /\ empty q.
Proof.
  revert p. induction fuel as [|fuel IH]; intros p Hwf Hfuel.
  { pose proof (count_range _ Hwf). lia. }
  simpl. destruct (empty_or_not (rx_queue p)) as [He|Hne].
  - rewrite pop_empty by done. exists (rx_queue p).
    rewrite contents_empty by done. by rewrite set_rx_queue_same.
  - destruct (pop_contents _ Hwf Hne) as (ch & Hch & Hc).
    pose proof (pop_wf _ Hwf) as Hwf1.
    pose proof (pop_count _ Hwf Hne) as Hn1.
    destruct (pop (rx_queue p)) as [out q1]. simpl in *. subst out.
    destruct (IH (consume ch (set_rx_queue q1 p))) as (q & Hq & Hwfq & Heq).
    + by rewrite consume_set_rx_queue.
    + rewrite consume_set_rx_queue. simpl. lia.
    + exists q. split; [|done]. rewrite Hq, Hc.
      rewrite consume_set_rx_queue at 1. simpl rx_queue.
      rewrite consume_set_rx_queue, feed_set_rx_queue. done.
Qed.

Lemma poll_feed p :
  wf (rx_queue p) ->
  exists q,
    poll p = Some (set_rx_queue q (feed (contents (rx_queue p)) p))
    /\ wf q /\ empty q.
Proof.
  intros Hwf. apply poll_loop_feed; [done|].
  pose proof (count_range _ Hwf). destruct Hwf. lia.
Qed.

(** [poll] returns: the loop is not cut short on a well-formed queue. *)
Lemma poll_returns p : wf (rx_queue p) -> exists p', poll p = Some p'.
Proof. intros Hwf. destruct (poll_feed p Hwf) as (q & -> & _). eauto. Qed.

(** ** Single transitions *)

(** Carry out the member assignments of a transition. *)
Ltac assign :=
  unfold on_state, set_frame_queue, set_state, set_idx, set_path_ptr,
    set_path_len, set_data_ptr, set_data_len, store, reset;
  simpl.

Lemma consume_in_range ch p : idx p < work_buf_size p -> consume ch p = on_state ch p.
Proof. intros Hi. unfold consume. by rewrite (proj2 (Z.leb_gt _ _) Hi). Qed.

(** The overflow guard: whatever the byte and the state, the frame in
    progress is given up and the parser is in [ERROR]. *)
Lemma consume_overflow ch p :
  work_buf_size p <= idx p ->
  consume ch p
  = Build (rx_queue p) (frame_queue p) (workBuffer p) (work_buf_size p)
      0 None 0 None 0 ERROR.
Proof. intros Hi. unfold consume. by rewrite (proj2 (Z.leb_le _ _) Hi). Qed.

Lemma store_char (pre w : list ascii) c :
  (length pre < length w)%nat ->
  <[length pre := c]> (pre ++ drop (length pre) w)
  = (pre ++ [c]) ++ drop (length (pre ++ [c])) w.
Proof.
  intros Hlt. destruct (lookup_lt_is_Some_2 w (length pre) Hlt) as [x Hx].
  rewrite (drop_S _ _ _ Hx), insert_app_r_alt, Nat.sub_diag by lia. simpl.
  rewrite length_app, <- app_assoc. simpl. by rewrite Nat.add_1_r.
Qed.

(** A character that is not the terminator of the field being read is
    stored. *)
Lemma consume_store st stop c rx fq w cap pre pp pl dp dl :
  (st = READ_PATH /\ stop = ":"%char) \/ (st = READ_DATA /\ stop = "}"%char) ->
  c <> stop ->
  length w = Z.to_nat cap -> cap < 65536 -> Z.of_nat (length pre) < cap ->
  consume c (Build rx fq (pre ++ drop (length pre) w) cap (Z.of_nat (length pre))
               pp pl dp dl st)
  = Build rx fq ((pre ++ [c]) ++ drop (length (pre ++ [c])) w) cap
      (Z.of_nat (length (pre ++ [c]))) pp pl dp dl st.
Proof.
  intros Hst Hc Hlen Hcap Hi. rewrite consume_in_range by done.
  apply Ascii.eqb_neq in Hc. unfold on_state.
  destruct Hst as [[-> ->]|[-> ->]]; simpl; rewrite Hc; unfold store; simpl;
    rewrite Nat2Z.id, store_char, u16_small by lia;
    rewrite length_app; simpl; do 2 f_equal; lia.
Qed.

Lemma feed_read st stop cs rx fq w cap pre pp pl dp dl :
  (st = READ_PATH /\ stop = ":"%char) \/ (st = READ_DATA /\ stop = "}"%char) ->
  Forall (fun c => c <> stop) cs ->
  length w = Z.to_nat cap -> cap < 65536 ->
  Z.of_nat (length (pre ++ cs)) <= cap ->
  feed cs (Build rx fq (pre ++ drop (length pre) w) cap (Z.of_nat (length pre))
             pp pl dp dl st)
  = Build rx fq ((pre ++ cs) ++ drop (length (pre ++ cs)) w) cap
      (Z.of_nat (length (pre ++ cs))) pp pl dp dl st.
Proof.
  intros Hst Hcs Hlen Hcap. revert pre.
  induction Hcs as [|c cs Hc Hcs IH]; intros pre Hfit.
  - by rewrite app_nil_r.
  - rewrite length_app in Hfit. simpl in Hfit.
    change (feed (c :: cs) ?p) with (feed cs (consume c p)).
    rewrite (consume_store st stop) by (done || lia).
    rewrite IH by (rewrite !length_app; simpl; lia).
    by replace ((pre ++ [c]) ++ cs) with (pre ++ c :: cs)
      by (by rewrite <- app_assoc).
Qed.

Lemma consume_path_end rx fq w cap pre pp pl dp dl :
  length w = Z.to_nat cap -> cap < 65536 -> Z.of_nat (length pre) < cap ->
  consume ":" (Build rx fq (pre ++ drop (length pre) w) cap (Z.of_nat (length pre))
                 pp pl dp dl READ_PATH)
  = Build rx fq ((pre ++ [NUL]) ++ drop (length (pre ++ [NUL])) w) cap
      (Z.of_nat (length (pre ++ [NUL]))) pp (Z.of_nat (length pre)) dp dl WAIT_D.
Proof.
  intros Hlen Hcap Hi. rewrite consume_in_range by done.
  unfold on_state, store. simpl.
  rewrite Nat2Z.id, store_char by lia.
  rewrite (u16_small (Z.of_nat (length pre) + 1)) by lia.
  rewrite u16_small by lia. unfold set_state, set_path_len. simpl.
  rewrite length_app. simpl. f_equal; lia.
Qed.

Lemma consume_data_end rx fq w cap pre pp pl off dl :
  length w = Z.to_nat cap -> cap < 65536 -> Z.of_nat (length pre) < cap ->
  0 <= off <= Z.of_nat (length pre) ->
  wf fq -> ~ full fq ->
  consume "}" (Build rx fq (pre ++ drop (length pre) w) cap (Z.of_nat (length pre))
                 pp pl (Some off) dl READ_DATA)
  = Build rx
      (snd (push (Frame.Build pp pl (Some off) (Z.of_nat (length pre) - off)) fq))
      ((pre ++ [NUL]) ++ drop (length (pre ++ [NUL])) w) cap
      0 None 0 None 0 WAIT_START.
Proof.
  intros Hlen Hcap Hi Hoff Hwf Hnf. rewrite consume_in_range by done.
  unfold on_state, store. simpl.
  rewrite Nat2Z.id, store_char by lia.
  rewrite (u16_small (Z.of_nat (length pre) + 1)) by lia.
  rewrite u16_small by lia.
  replace (Z.of_nat (length pre) + 1 - off - 1) with (Z.of_nat (length pre) - off)
    by lia.
  by rewrite push_not_full.
Qed.

(** ** A whole frame *)

(** From [WAIT_P], just after the opening brace, the rest of a frame
    that fits the work buffer is assembled at the start of the buffer
    and its view is queued. *)
Lemma feed_frame_body rx fq w cap P D :
  Forall (fun c => c <> ":"%char) P -> Forall (fun c => c <> "}"%char) D ->
  length w = Z.to_nat cap -> cap < 65536 ->
  Z.of_nat (length P) + Z.of_nat (length D) + 2 <= cap ->
  wf fq -> ~ full fq ->
  feed (text "p:" ++ P ++ text ":d:" ++ D ++ text "}")
    (Build rx fq w cap 0 None 0 None 0 WAIT_P)
  = Build rx
      (snd (push (Frame.Build (Some 0) (Z.of_nat (length P))
                    (Some (Z.of_nat (length P) + 1)) (Z.of_nat (length D))) fq))
      ((P ++ NUL :: D ++ [NUL]) ++ drop (length P + length D + 2) w) cap
      0 None 0 None 0 WAIT_START.
Proof.
  intros HP HD Hlen Hcap Hfit Hwf Hnf.
  change (text "p:" ++ P ++ text ":d:" ++ D ++ text "}")
    with ("p"%char :: ":"%char :: P ++ ":"%char :: "d"%char :: ":"%char :: D ++ ["}"%char]).
  change (feed (?a :: ?b :: ?l) ?p) with (feed l (consume b (consume a p))).
  rewrite (consume_in_range "p") by (simpl; lia). assign.
  rewrite consume_in_range by (simpl; lia). assign.
  rewrite feed_app.
  pose proof (feed_read READ_PATH ":" P rx fq w cap [] (Some 0) 0 None 0) as Hpath.
  simpl in Hpath. change (drop 0 w) with w in Hpath.
  change (Z.of_nat 0) with 0 in Hpath.
  rewrite Hpath by (auto || lia). clear Hpath.
  change (feed (?a :: ?b :: ?c :: ?l) ?p)
    with (feed l (consume c (consume b (consume a p)))).
  rewrite consume_path_end by (done || simpl; lia).
  rewrite (consume_in_range "d") by (rewrite ?length_app; simpl; lia). assign.
  rewrite consume_in_range by (rewrite ?length_app; simpl; lia). assign.
  rewrite feed_app.
  rewrite (feed_read READ_DATA "}") by (auto || rewrite !length_app; simpl; lia).
  change (feed [?a] ?p) with (consume a p).
  rewrite consume_data_end by (done || rewrite !length_app; simpl; lia).
  rewrite !length_app. simpl length.
  replace (Z.of_nat (length P + 1 + length D) - Z.of_nat (length P + 1))
    with (Z.of_nat (length D)) by lia.
  replace (Z.of_nat (length P + 1)) with (Z.of_nat (length P) + 1) by lia.
  replace (length P + 1 + length D + 1)%nat with (length P + length D + 2)%nat
    by lia.
  rewrite <- !app_assoc. simpl. by rewrite <- app_assoc.
Qed.

(** The opening brace starts a frame from [WAIT_START] and from
    [ERROR] alike. *)
Lemma consume_open p :
  state p = WAIT_START \/ state p = ERROR -> idx p < work_buf_size p ->
  consume "{" p
  = Build (rx_queue p) (frame_queue p) (workBuffer p) (work_buf_size p)
      0 None 0 None 0 WAIT_P.
Proof.
  intros Hst Hi. rewrite consume_in_range by done. unfold on_state.
  by destruct Hst as [-> | ->].
Qed.

Lemma feed_frame p P D :
  state p = WAIT_START \/ state p = ERROR -> idx p = 0 ->
  Forall (fun c => c <> ":"%char) P -> Forall (fun c => c <> "}"%char) D ->
  length (workBuffer p) = Z.to_nat (work_buf_size p) -> work_buf_size p < 65536 ->
  Z.of_nat (length P) + Z.of_nat (length D) + 2 <= work_buf_size p ->
  wf (frame_queue p) -> ~ full (frame_queue p) ->
  feed (frame_text P D) p
  = Build (rx_queue p)
      (snd (push (Frame.Build (Some 0) (Z.of_nat (length P))
                    (Some (Z.of_nat (length P) + 1)) (Z.of_nat (length D)))
              (frame_queue p)))
      ((P ++ NUL :: D ++ [NUL]) ++ drop (length P + length D + 2) (workBuffer p))
      (work_buf_size p) 0 None 0 None 0 WAIT_START.
Proof.
  intros Hst Hi HP HD Hlen Hcap Hfit Hwf Hnf. unfold frame_text.
  change (text "{p:" ++ ?l) with ("{"%char :: text "p:" ++ l).
  change (feed (?a :: ?l) ?p) with (feed l (consume a p)).
  rewrite consume_open by (done || lia). by apply feed_frame_body.
Qed.

(** In [ERROR] every byte but the opening brace is ignored. *)
Lemma feed_junk junk rx fq w cap :
  Forall (fun c => c <> "{"%char) junk ->
  feed junk (Build rx fq w cap 0 None 0 None 0 ERROR)
  = Build rx fq w cap 0 None 0 None 0 ERROR.
Proof.
  induction 1 as [|c junk Hc _ IH]; [done|].
  change (feed (c :: junk) ?p) with (feed junk (consume c p)).
  apply Ascii.eqb_neq in Hc.
  unfold consume, on_state. simpl. rewrite Hc.
  by destruct (cap <=? 0).
Qed.

(** The view queued for a frame shows its path and its data. *)
Lemma frame_in_buffer P D tail :
  frame_shows ((P ++ NUL :: D ++ [NUL]) ++ tail)
    (Frame.Build (Some 0) (Z.of_nat (length P))
       (Some (Z.of_nat (length P) + 1)) (Z.of_nat (length D))) P D.
Proof.
  unfold frame_shows, slice. simpl.
  replace (Z.to_nat (Z.of_nat (length P) + 1)) with (length (P ++ [NUL]))
    by (rewrite length_app; simpl; lia).
  replace (Z.to_nat (Z.of_nat (length D) + 1)) with (length (D ++ [NUL]))
    by (rewrite length_app; simpl; lia).
  rewrite !Nat2Z.id. change (drop (Z.to_nat 0) ?l) with l.
  replace ((P ++ NUL :: D ++ [NUL]) ++ tail)
    with ((P ++ [NUL]) ++ (D ++ [NUL]) ++ tail)
    by (rewrite <- !app_assoc; simpl; by rewrite <- app_assoc).
  rewrite drop_app_length.
  repeat split; try done.
  - by rewrite <- app_assoc, take_app_length.
  - by rewrite <- app_assoc, take_app_length.
  - by rewrite take_app_length.
  - by rewrite take_app_length.
Qed.

(** What [poll] leaves when the bytes it takes end in a frame that the
    parser, by then in [WAIT_START] or [ERROR] with nothing stored,
    reads whole. *)
Lemma poll_ending_in_frame p before P D :
  wf (rx_queue p) -> contents (rx_queue p) = before ++ frame_text P D ->
  state (feed before p) = WAIT_START \/ state (feed before p) = ERROR ->
  idx (feed before p) = 0 ->
  frame_queue (feed before p) = frame_queue p ->
  workBuffer (feed before p) = workBuffer p ->
  work_buf_size (feed before p) = work_buf_size p ->
  Forall (fun c => c <> ":"%char) P -> Forall (fun c => c <> "}"%char) D ->
  length (workBuffer p) = Z.to_nat (work_buf_size p) -> work_buf_size p < 65536 ->
  Z.of_nat (length P) + Z.of_nat (length D) + 2 <= work_buf_size p ->
  wf (frame_queue p) -> ~ full (frame_queue p) ->
  exists p' f,
    poll p = Some p'
    /\ contents (rx_queue p') = []
    /\ contents (frame_queue p') = contents (frame_queue p) ++ [f]
    /\ frame_shows (workBuffer p') f P D
    /\ state p' = WAIT_START.
Proof.
  intros Hrx Hbytes Hst Hidx Hfq Hw Hcap HP HD Hlen Hsize Hfit Hwf Hnf.
  destruct (poll_feed p Hrx) as (q & Hpoll & Hwfq & Heq).
  rewrite Hbytes, feed_app in Hpoll.
  rewrite feed_frame in Hpoll by (done || congruence).
  rewrite Hfq, Hw, Hcap in Hpoll.
  eexists _, _. split; [exact Hpoll|]. simpl.
  split; [by apply contents_empty|].
  split; [by apply push_contents|].
  split; [apply frame_in_buffer|done].
Qed.

(** ** The properties of the specification *)

(** C2. With the parser in [WAIT_START] and write index 0, the bytes of
    the frame for path P (no colon, no closing brace) and data D (no
    closing brace) in the RX queue, |P| + |D| + 2 within the capacity of
    the work buffer and the frame queue not full, one [poll] takes those
    bytes, queues exactly one frame, whose path slice is P with path_len
    = |P| and whose data slice is D with data_len = |D|, and leaves the
    parser in [WAIT_START]. *)
Theorem poll_parses_frame p P D :
  state p = WAIT_START -> idx p = 0 ->
  Forall (fun c => c <> ":"%char /\ c <> "}"%char) P ->
  Forall (fun c => c <> "}"%char) D ->
  wf (rx_queue p) -> contents (rx_queue p) = frame_text P D ->
  length (workBuffer p) = Z.to_nat (work_buf_size p) -> work_buf_size p < 65536 ->
  Z.of_nat (length P) + Z.of_nat (length D) + 2 <= work_buf_size p ->
  wf (frame_queue p) -> ~ full (frame_queue p) ->
  exists p' f,
    poll p = Some p'
    /\ contents (rx_queue p') = []
    /\ contents (frame_queue p') = contents (frame_queue p) ++ [f]
    /\ frame_shows (workBuffer p') f P D
    /\ state p' = WAIT_START.
Proof.
  intros Hst Hidx HP HD Hrx Hbytes Hlen Hsize Hfit Hwf Hnf.
  apply (poll_ending_in_frame p []); try done.
  - by left.
  - eapply Forall_impl; [exact HP|]. by intros c [? _].
Qed.

(** C6. Overflow recovery: when the write index has reached the
    capacity of the work buffer, the next byte, whatever it is, makes the
    parser give up the frame in progress and enter [ERROR], and is itself
    dropped; the bytes after it are ignored up to the next opening brace;
    and the frame beginning at that brace, if it fits the work buffer
    and the frame queue has room, is parsed and queued. *)
Theorem overflow_recovery p ch junk P D :
  work_buf_size p <= idx p ->
  Forall (fun c => c <> "{"%char) junk ->
  consume ch p
  = Build (rx_queue p) (frame_queue p) (workBuffer p) (work_buf_size p)
      0 None 0 None 0 ERROR
  /\ feed (ch :: junk) p = consume ch p
  /\ (Forall (fun c => c <> ":"%char) P -> Forall (fun c => c <> "}"%char) D ->
      wf (rx_queue p) -> contents (rx_queue p) = ch :: junk ++ frame_text P D ->
      length (workBuffer p) = Z.to_nat (work_buf_size p) ->
      work_buf_size p < 65536 ->
      Z.of_nat (length P) + Z.of_nat (length D) + 2 <= work_buf_size p ->
      wf (frame_queue p) -> ~ full (frame_queue p) ->
      exists p' f,
        poll p = Some p'
        /\ contents (frame_queue p') = contents (frame_queue p) ++ [f]
        /\ frame_shows (workBuffer p') f P D
        /\ state p' = WAIT_START).
Proof.
  intros Hover Hjunk.
  assert (feed (ch :: junk) p = consume ch p) as Hskip.
  { change (feed (ch :: junk) p) with (feed junk (consume ch p)).
    rewrite consume_overflow by done. by apply feed_junk. }
  split; [by apply consume_overflow|]. split; [done|].
  intros HP HD Hrx Hbytes Hlen Hsize Hfit Hwf Hnf.
  destruct (poll_ending_in_frame p (ch :: junk) P D) as (p' & f & H1 & _ & H3);
    try done; rewrite ?Hskip, ?consume_overflow by done; simpl; auto.
  by exists p', f.
Qed.

Lemma listening_wf rx :
  (length rx < 64)%nat -> wf (rx_queue (listening rx)) /\ contents (rx_queue (listening rx)) = rx.
Proof.
  intros Hlen.
  change (rx_queue (listening rx))
    with (snd (push_list rx (RingBuffer.make (repeat NUL 64) 64))).
  assert (wf (RingBuffer.make (repeat NUL 64) 64)) as Hwf0
    by (split; [simpl; lia|split; simpl; lia|reflexivity]).
  pose proof (push_list_room rx _ Hwf0) as Hok.
  change (room (RingBuffer.make (repeat NUL 64) 64)) with 63 in Hok.
  destruct (push_list rx (RingBuffer.make (repeat NUL 64) 64)) as [ok q] eqn:E.
  simpl fst in Hok. rewrite Hok in E by lia.
  by destruct (push_list_true _ _ _ Hwf0 E) as (? & ? & _).
Qed.

Lemma frame_queue_ready rx :
  wf (frame_queue (listening rx)) /\ ~ full (frame_queue (listening rx)).
Proof.
  split; [split; [simpl; lia|split; simpl; lia|reflexivity]|].
  unfold full. simpl. discriminate.
Qed.

Lemma poll_parses_frame_witness :
  exists p' f,
    poll (listening (frame_text (text "ctrl/arm") (text "1"))) = Some p'
    /\ contents (rx_queue p') = []
    /\ contents (frame_queue p')
       = contents (frame_queue (listening (frame_text (text "ctrl/arm") (text "1")))) ++ [f]
    /\ frame_shows (workBuffer p') f (text "ctrl/arm") (text "1")
    /\ state p' = WAIT_START.
Proof.
  destruct (listening_wf (frame_text (text "ctrl/arm") (text "1")))
    as [Hwf Hc]; [simpl; lia|].
  refine (poll_parses_frame (listening (frame_text (text "ctrl/arm") (text "1")))
            (text "ctrl/arm") (text "1")
            eq_refl eq_refl _ _ Hwf Hc eq_refl eq_refl _
            (proj1 (frame_queue_ready _)) (proj2 (frame_queue_ready _))).
  - repeat (constructor; [split; discriminate|]). constructor.
  - repeat (constructor; [discriminate|]). constructor.
  - simpl. lia.
Defined.

Lemma overflow_recovery_witness :
  exists p' f,
    poll (overflowing (text "{xy" ++ frame_text (text "a/b") (text "-5"))) = Some p'
    /\ contents (frame_queue p')
       = contents (frame_queue
                     (overflowing (text "{xy" ++ frame_text (text "a/b") (text "-5"))))
         ++ [f]
    /\ frame_shows (workBuffer p') f (text "a/b") (text "-5")
    /\ state p' = WAIT_START.
Proof.
  destruct (listening_wf (text "{xy" ++ frame_text (text "a/b") (text "-5")))
    as [Hwf Hc]; [simpl; lia|].
  refine (proj2 (proj2 (overflow_recovery
                   (overflowing (text "{xy" ++ frame_text (text "a/b") (text "-5")))
                   "{" (text "xy") (text "a/b") (text "-5") _ _))
            _ _ Hwf Hc eq_refl eq_refl _
            (proj1 (frame_queue_ready _)) (proj2 (frame_queue_ready _))).
  - simpl. lia.
  - repeat (constructor; [discriminate|]). constructor.
  - repeat (constructor; [discriminate|]). constructor.
  - repeat (constructor; [discriminate|]). constructor.
  - simpl. lia.
Defined.
End ParserFacts.

(* ================================================================== *)
(** * From the encoder to the parser *)
(* ================================================================== *)

Module RoundTrip.
Import RingBuffer RingBufferFacts Wire Samples.

Lemma frame_text_length P D :
  length (frame_text P D) = (length P + length D + 7)%nat.
Proof. unfold frame_text. rewrite !length_app. simpl. lia. Qed.

(** C1. Round trip: for a path string P without colon, braces or comma
    and an array v of n int32 values, 1 <= n <= 8, if [send_int] returns
    true on an empty TX queue, then a parser in [WAIT_START] that finds
    the enqueued bytes in its RX queue, with a work buffer that holds
    path, data and their two terminators and a frame queue that is not
    full, queues exactly one frame; its path is P and its data is the
    comma-separated list of the canonical decimal texts of the values of
    v, so every integer is recovered exactly. *)
Theorem send_int_round_trip region values n s s' p :
  Forall (fun c => c <> ":"%char /\ c <> "}"%char /\ c <> "{"%char /\ c <> ","%char)
    (c_str region) ->
  Z.of_nat (length values) = n -> 1 <= n <= 8 ->
  Forall (fun v => Sender.INT32_MIN <= v <= Sender.INT32_MAX) values ->
  wf (Sender.tx_queue s) -> empty (Sender.tx_queue s) ->
  Sender.send_int region values n s = (true, s') ->
  Parser.state p = Parser.WAIT_START -> Parser.idx p = 0 ->
  wf (Parser.rx_queue p) ->
  contents (Parser.rx_queue p) = contents (Sender.tx_queue s') ->
  length (Parser.workBuffer p) = Z.to_nat (Parser.work_buf_size p) ->
  Parser.work_buf_size p < 65536 ->
  Z.of_nat (length (contents (Sender.tx_queue s'))) - 5 <= Parser.work_buf_size p ->
  wf (Parser.frame_queue p) -> ~ full (Parser.frame_queue p) ->
  exists p' f fields,
    Parser.poll p = Some p'
    /\ contents (Parser.frame_queue p') = contents (Parser.frame_queue p) ++ [f]
    /\ frame_shows (Parser.workBuffer p') f (c_str region) (csv_join fields)
    /\ Forall2 (fun field v => is_decimal field v = true) fields values
    /\ Parser.state p' = Parser.WAIT_START.
Proof.
  intros HP Hn Hcount Hrange Htx Hempty Hsend Hst Hidx Hrx Hbytes Hlen Hsize Hfit
    Hwf Hnf.
  destruct (SenderFacts.send_int_emits region values Hrange)
    as (fields & Hfields & Hemit).
  subst n. rewrite Hemit in Hsend.
  destruct (SenderFacts.push_chars_true _ _ _ Htx Hsend) as (_ & Hsent & _).
  rewrite (contents_empty _ Htx Hempty) in Hsent. simpl in Hsent.
  rewrite Hsent in Hbytes, Hfit. rewrite frame_text_length in Hfit.
  destruct (ParserFacts.poll_ending_in_frame p [] (c_str region) (csv_join fields))
    as (p' & f & Hpoll & _ & Hq & Hshow & Hst'); try done.
  - by left.
  - eapply Forall_impl; [exact HP|]. by intros c (? & ? & _).
  - apply Forall_forall. intros c Hc ->. apply list_elem_of_In in Hc.
    by destruct (SenderFacts.csv_join_chars _ _ _ Hfields Hc) as [?|[?|?]].
  - lia.
  - by exists p', f, fields.
Qed.

Lemma send_int_round_trip_witness :
  exists p' f fields,
    Parser.poll (listening (contents (Sender.tx_queue sent))) = Some p'
    /\ contents (Parser.frame_queue p')
       = contents (Parser.frame_queue (listening (contents (Sender.tx_queue sent))))
         ++ [f]
    /\ frame_shows (Parser.workBuffer p') f (c_str (text "ctrl/set_pid"))
         (csv_join fields)
    /\ Forall2 (fun field v => is_decimal field v = true) fields [10; 20; -5]
    /\ Parser.state p' = Parser.WAIT_START.
Proof.
  destruct (ParserFacts.listening_wf (contents (Sender.tx_queue sent)))
    as [Hwf Hc]; [vm_compute; lia|].
  refine (send_int_round_trip (text "ctrl/set_pid") [10; 20; -5] 3 idle sent
            (listening (contents (Sender.tx_queue sent)))
            _ eq_refl _ _ SenderFacts.idle_wf eq_refl _ eq_refl eq_refl Hwf Hc
            eq_refl eq_refl _
            (proj1 (ParserFacts.frame_queue_ready _))
            (proj2 (ParserFacts.frame_queue_ready _))).
  - repeat (constructor; [repeat split; discriminate|]). constructor.
  - lia.
  - repeat (constructor; [unfold Sender.INT32_MIN, Sender.INT32_MAX; lia|]).
    constructor.
  - by vm_compute.
  - vm_compute. discriminate.
Defined.
End RoundTrip.

(* ================================================================== *)
(** * The dispatcher *)
(* ================================================================== *)

Module ExecuterFacts.
Import RingBuffer RingBufferFacts Executer Wire Samples.

(** ** Classification *)

Lemma numeric_char_test c :
  Ascii.eqb c "." = false ->
  ((code c <? code "0") || (code "9" <? code c))
  && negb (Ascii.eqb c "-") && negb (Ascii.eqb c ",")
  = negb (numeric_char c).
Proof.
  intros Hdot. unfold numeric_char, is_digit. rewrite Hdot.
  destruct (Ascii.eqb c "-"), (Ascii.eqb c ",");
    destruct (Z.ltb_spec (code c) (code "0")), (Z.leb_spec (code "0") (code c)),
      (Z.ltb_spec (code "9") (code c)), (Z.leb_spec (code c) (code "9"));
    simpl; (done || lia).
Qed.

Lemma detect_type_from_classify has_dot data :
  detect_type_from has_dot data
  = if negb (forallb numeric_char (c_str data)) then STRING
    else if has_dot || existsb (fun c => Ascii.eqb c ".") (c_str data) then FLOAT
    else INT.
Proof.
  revert has_dot. induction data as [|c data IH]; intros has_dot; simpl.
  - by rewrite orb_false_r.
  - destruct (is_nul c); simpl; [by rewrite orb_false_r|].
    destruct (Ascii.eqb c ".") eqn:Hdot.
    + apply Ascii.eqb_eq in Hdot as ->. rewrite IH. simpl.
      by rewrite orb_true_r.
    + rewrite numeric_char_test by done.
      destruct (numeric_char c); simpl; [|done]. by rewrite IH.
Qed.

(** [detect_type] computes the classification of the specification on
    the string found at the data pointer. *)
Lemma detect_type_classify data : detect_type data = classify (c_str data).
Proof. unfold detect_type, classify. by rewrite detect_type_from_classify. Qed.

Lemma data_type_eqb_eq a b : data_type_eqb a b = true <-> a = b.
Proof. by destruct a, b. Qed.

(** ** Routing *)

(** Entries whose path differs from the frame's are passed over. *)
Lemma dispatch_skip atoi strtof pre rest i frame mem :
  Forall (fun e => strcmp (Frame.deref mem (Frame.path frame)) (path e) <> 0) pre ->
  dispatch atoi strtof (pre ++ rest) i frame mem
  = dispatch atoi strtof rest (i + length pre)%nat frame mem.
Proof.
  intros Hpre. revert i. induction Hpre as [|e pre He _ IH]; intros i; simpl.
  - by rewrite Nat.add_0_r.
  - rewrite (proj2 (Z.eqb_neq _ _) He). simpl. rewrite IH. f_equal. lia.
Qed.

(** At the first entry with the frame's path, a payload of another
    type than the entry expects ends the dispatch without a call. *)
Lemma dispatch_mismatch atoi strtof entry rest i frame mem :
  strcmp (Frame.deref mem (Frame.path frame)) (path entry) = 0 ->
  Frame.data frame <> None -> Frame.data_len frame <> 0 ->
  detect_type (Frame.deref mem (Frame.data frame)) <> expected_type entry ->
  dispatch atoi strtof (entry :: rest) i frame mem = (mem, None).
Proof.
  intros Hpath Hdata Hlen Htype. simpl. rewrite Hpath. simpl.
  destruct (Frame.data frame) as [off|]; [|done].
  rewrite (proj2 (Z.eqb_neq _ _) Hlen). simpl.
  destruct (data_type_eqb _ _) eqn:E; [|done].
  by apply data_type_eqb_eq in E.
Qed.

(** ** The payload the dispatcher reads *)

Lemma c_str_before_nul P rest : c_str (P ++ NUL :: rest) = c_str P.
Proof.
  induction P as [|c P IH]; [reflexivity|].
  simpl. by rewrite IH.
Qed.

Lemma c_str_whole D : Forall (fun c => c <> NUL) D -> c_str D = D.
Proof.
  induction 1 as [|c D Hc _ IH]; [done|].
  simpl. unfold is_nul. rewrite (proj2 (Ascii.eqb_neq c NUL) Hc).
  by rewrite IH.
Qed.

(** Of a payload [D] of [data_len] bytes that the frame shows, the
    dispatcher reads the bytes before the first NUL: the C string at
    the data pointer. *)
Lemma shown_payload mem f P D :
  frame_shows mem f P D -> string_at mem (Frame.data f) = c_str D.
Proof.
  intros (_ & Hdata & _ & _ & _ & _ & _ & Hslice).
  destruct (Frame.data f) as [off|]; [|done].
  unfold string_at, Frame.deref. unfold slice in Hslice. simpl in Hslice.
  rewrite <- (take_drop (Z.to_nat (Frame.data_len f + 1)) (drop (Z.to_nat off) mem)).
  rewrite Hslice, <- app_assoc. apply c_str_before_nul.
Qed.

(** ** The properties of the specification *)

(** C7. Payload classification and type-mismatch drop, as amended. For
    the frame taken from the frame queue, showing a payload D that is
    not empty, the dispatcher classifies the part of D before its first
    NUL byte, the whole of D when it holds none: String if any of its
    characters is not a digit, a minus, a comma or a dot, otherwise
    Float if a dot occurs in it, else Int; and when this type differs
    from the expected type of the first route entry with the frame's
    path, no handler is invoked and the frame is gone from the queue. In
    particular a route expecting Int is not invoked for the payload
    abc. *)
Theorem type_mismatch_drop atoi strtof pre entry post fq q frame mem P D :
  pop fq = (Some frame, q) ->
  Forall (fun e => strcmp (Frame.deref mem (Frame.path frame)) (path e) <> 0) pre ->
  strcmp (Frame.deref mem (Frame.path frame)) (path entry) = 0 ->
  frame_shows mem frame P D -> D <> [] ->
  detect_type (Frame.deref mem (Frame.data frame)) = classify (c_str D)
  /\ (Forall (fun c => c <> NUL) D ->
      detect_type (Frame.deref mem (Frame.data frame)) = classify D)
  /\ (classify (c_str D) <> expected_type entry ->
      poll atoi strtof (pre ++ entry :: post) fq mem
      = {| frames := q; memory := mem; invoked := None |})
  /\ (expected_type entry = INT -> D = text "abc" ->
      invoked (poll atoi strtof (pre ++ entry :: post) fq mem) = None).
Proof.
  intros Hpop Hpre Hpath Hshow Hsome.
  pose proof (shown_payload _ _ _ _ Hshow) as Hread.
  destruct Hshow as (_ & Hdata & _ & _ & Hlen & _).
  assert (Frame.data_len frame <> 0) as Hlen0
    by (rewrite Hlen; destruct D; [done|simpl; lia]).
  pose proof (detect_type_classify (Frame.deref mem (Frame.data frame))) as Hcls.
  fold (string_at mem (Frame.data frame)) in Hcls. rewrite Hread in Hcls.
  assert (classify (c_str D) <> expected_type entry ->
          poll atoi strtof (pre ++ entry :: post) fq mem
          = {| frames := q; memory := mem; invoked := None |}) as Hdrop.
  { intros Hne. unfold poll. rewrite Hpop, dispatch_skip by done.
    rewrite dispatch_mismatch; [done..|]. by rewrite Hcls. }
  split; [done|]. split; [by intros HD; rewrite Hcls, c_str_whole|].
  split; [done|].
  intros Hint ->. rewrite Hdrop; [done|]. by rewrite Hint.
Qed.

Lemma type_mismatch_drop_witness :
  invoked (poll (fun _ => 0) (fun _ => F32.zero)
             ([Entry (text "sys/reset") NONE] ++ Entry (text "ctrl/arm") INT :: [])
             (pending "ctrl/arm" "abc") (parsed "ctrl/arm" "abc"))
  = None.
Proof.
  refine (proj2 (proj2 (proj2
            (type_mismatch_drop (fun _ => 0) (fun _ => F32.zero)
               [Entry (text "sys/reset") NONE]
               (Entry (text "ctrl/arm") INT) []
               (pending "ctrl/arm" "abc")
               (snd (pop (pending "ctrl/arm" "abc")))
               (view "ctrl/arm" "abc")
               (parsed "ctrl/arm" "abc") (text "ctrl/arm") (text "abc")
               _ _ _ _ _))) _ _).
  - reflexivity.
  - repeat constructor. discriminate.
  - reflexivity.
  - repeat split; discriminate.
  - discriminate.
  - reflexivity.
  - reflexivity.
Defined.

(** The claim as first stated, for every character of the payload,
    fails on a payload with a NUL byte inside. The frame [{p:a:d:1\0x}]
    is parsed into a payload of three bytes, the last of them a letter,
    yet the dispatcher classifies it Int and calls a route that expects
    Int, with the one value converted from the string 1. *)
Lemma type_mismatch_drop_counterexample :
  exists p' f,
    Parser.poll (listening (frame_text (text "a") ["1"%char; NUL; "x"%char]))
    = Some p'
    /\ contents (Parser.frame_queue p') = [f]
    /\ slice (Parser.workBuffer p') (Frame.offset (Frame.data f)) (Frame.data_len f)
       = ["1"%char; NUL; "x"%char]
    /\ classify ["1"%char; NUL; "x"%char] = STRING
    /\ detect_type (Frame.deref (Parser.workBuffer p') (Frame.data f)) = INT
    /\ invoked (poll (fun s => Z.of_nat (length s)) (fun _ => F32.zero)
                  [Entry (text "a") INT]
                  (Parser.frame_queue p') (Parser.workBuffer p'))
       = Some (Call 0 INT (int_values [1]) 1).
Proof.
  eexists _, _. split; [by vm_compute|].
  split; [by vm_compute|]. repeat split; by vm_compute.
Qed.

(** C8. CSV bounding at MAX_CSV_ITEMS = 8. For a String payload of ten
    fields on a matching route the handler is invoked once with count
    8, but the eighth string it receives is the whole rest of the
    payload, [h,i,j]: the loop of [parse_string_csv] stops as soon as the
    eighth pointer is stored and never ends the eighth field, so the
    fields beyond the eighth do reach the handler. For an Int payload of
    ten fields the handler gets 8 values, converted at the starts of the
    first 8 fields. Both frames are taken from the wire by the parser. *)
Theorem string_csv_overrun atoi strtof :
  (exists p' ptrs,
     Parser.poll (listening (frame_text (text "log/print")
                               (text "a,b,c,d,e,f,g,h,i,j"))) = Some p'
     /\ invoked (poll atoi strtof [Entry (text "log/print") STRING]
                   (Parser.frame_queue p') (Parser.workBuffer p'))
        = Some (Call 0 STRING (string_values ptrs) 8)
     /\ map (string_at
               (memory (poll atoi strtof [Entry (text "log/print") STRING]
                          (Parser.frame_queue p') (Parser.workBuffer p'))))
          ptrs
        = [text "a"; text "b"; text "c"; text "d"; text "e"; text "f";
           text "g"; text "h,i,j"])
  /\ (exists p',
       Parser.poll (listening (frame_text (text "cfg/set")
                                 (text "1,2,3,4,5,6,7,8,9,10"))) = Some p'
       /\ invoked (poll atoi strtof [Entry (text "cfg/set") INT]
                     (Parser.frame_queue p') (Parser.workBuffer p'))
          = Some (Call 0 INT
                    (int_values
                       [atoi (text "1,2,3,4,5,6,7,8,9,10");
                        atoi (text "2,3,4,5,6,7,8,9,10");
                        atoi (text "3,4,5,6,7,8,9,10");
                        atoi (text "4,5,6,7,8,9,10");
                        atoi (text "5,6,7,8,9,10"); atoi (text "6,7,8,9,10");
                        atoi (text "7,8,9,10"); atoi (text "8,9,10")])
                    8)).
Proof.
  split.
  - eexists _, _. split; [by vm_compute|]. split; by vm_compute.
  - eexists. split; by vm_compute.
Qed.
End ExecuterFacts.

(* ================================================================== *)
(** * The ring buffer: capacity and drain *)
(* ================================================================== *)

Module RingBufferMore.
Import RingBuffer RingBufferFacts.
Section more.
Context {T : Type} `{!Inhabited T}.
Implicit Types (rb : ring_buffer T) (xs : list T).

Lemma step_keeps_size (s : run_state T) (o : op T) :
  buffer_size (queue (step s o)) = buffer_size (queue s).
Proof.
  rewrite step_queue. destruct o; [apply push_buffer_size|apply pop_buffer_size].
Qed.

Lemma run_wf (ops : list (op T)) (s : run_state T) :
  wf (queue s) ->
  wf (queue (fold_left step ops s))
  /\ buffer_size (queue (fold_left step ops s)) = buffer_size (queue s).
Proof.
  revert s. induction ops as [|o ops IH]; intros s Hwf; simpl; [done|].
  destruct (IH (step s o) (step_wf s o Hwf)) as [H1 H2].
  split; [done|]. by rewrite H2, step_keeps_size.
Qed.

(** X1. A queue built with bufferSize 1, which the constructor's note rules
    out, has no usable slot: whatever is pushed or popped, every push is
    refused, every pop fails and the queue stays as constructed. *)
Theorem capacity_one_holds_nothing (storage : list T) (ops : list (op T)) :
  run ops (make storage 1)
  = {| queue := make storage 1; accepted := []; popped := [] |}.
Proof.
  unfold run.
  induction ops as [|o ops IH]; [done|].
  simpl fold_left.
  replace (step {| queue := make storage 1; accepted := []; popped := [] |} o)
    with {| queue := make storage 1; accepted := @nil T; popped := [] |};
    [done|].
  by destruct o.
Qed.

(** X2. Nothing accepted is lost or written over: from a well-formed queue,
    after any pushes and pops, the elements it held at first followed by
    those accepted since are the elements popped followed by those it
    still holds; so the elements taken in and not yet popped never
    number more than buffer_size - 1, the pushes beyond that being
    refused. *)
Theorem occupancy_bound rb (ops : list (op T)) :
  wf rb ->
  contents rb ++ accepted (run ops rb)
  = popped (run ops rb) ++ contents (queue (run ops rb))
  /\ Z.of_nat (length (contents rb)) + Z.of_nat (length (accepted (run ops rb)))
     - Z.of_nat (length (popped (run ops rb)))
     <= buffer_size rb - 1.
Proof.
  intros Hwf.
  destruct (run_wf ops {| queue := rb; accepted := []; popped := [] |} Hwf)
    as [Hwf' Hsz].
  pose proof (run_fifo ops {| queue := rb; accepted := []; popped := [] |}
                (contents rb) Hwf) as Hfifo.
  fold (run ops rb) in Hwf', Hsz, Hfifo. simpl in Hsz, Hfifo.
  specialize (Hfifo ltac:(by rewrite app_nil_r)).
  split; [done|].
  apply (f_equal length) in Hfifo. rewrite !length_app in Hfifo.
  pose proof (contents_length (queue (run ops rb))) as Hlen.
  pose proof (count_range _ Hwf'). lia.
Qed.

Lemma run_pushes xs (s : run_state T) :
  wf (queue s) -> Z.of_nat (length xs) <= room (queue s) ->
  fold_left step (map Push xs) s
  = {| queue := snd (push_list xs (queue s));
       accepted := accepted s ++ xs;
       popped := popped s |}.
Proof.
  revert s. induction xs as [|x xs IH]; intros s Hwf Hroom.
  - simpl. rewrite app_nil_r. by destruct s.
  - simpl length in Hroom. unfold room in Hroom.
    assert (~ full (queue s)) as Hnf by (rewrite full_count by done; lia).
    pose proof (push_count x _ Hwf Hnf) as Hn.
    pose proof (push_buffer_size x (queue s)) as Hsz.
    pose proof (push_wf x _ Hwf) as Hwf'.
    simpl. rewrite push_not_full in * by done. simpl in *.
    rewrite IH; simpl; [|done|unfold room; simpl; lia].
    by rewrite <- app_assoc.
Qed.

Lemma run_pops n (s : run_state T) :
  wf (queue s) -> Z.of_nat n <= count (queue s) ->
  exists q,
    fold_left step (repeat Pop n) s
    = {| queue := q; accepted := accepted s;
         popped := popped s ++ take n (contents (queue s)) |}
    /\ wf q /\ contents q = drop n (contents (queue s)).
Proof.
  revert s. induction n as [|n IH]; intros s Hwf Hn.
  - exists (queue s). simpl. rewrite take_0, app_nil_r. by destruct s.
  - assert (~ empty (queue s)) as Hne by (rewrite empty_count by done; lia).
    destruct (pop_contents _ Hwf Hne) as (x & Hx & Hc).
    pose proof (pop_wf _ Hwf) as Hwf1.
    pose proof (pop_count _ Hwf Hne) as Hn1.
    simpl. destruct (pop (queue s)) as [out q1]. simpl in *. subst out.
    destruct (IH {| queue := q1; accepted := accepted s; popped := popped s ++ [x] |})
      as (q & Hq & Hwfq & Hcq); simpl; [done|lia|].
    exists q. rewrite Hq. simpl. rewrite Hc. simpl.
    by rewrite <- app_assoc.
Qed.

(** X3. Fill and drain: on an empty queue, pushing up to buffer_size - 1
    items and then popping as many returns exactly those items, in
    order, every operation succeeding, and leaves the queue empty. *)
Theorem fill_then_drain rb xs :
  wf rb -> empty rb -> Z.of_nat (length xs) <= buffer_size rb - 1 ->
  accepted (run (map Push xs ++ repeat Pop (length xs)) rb) = xs
  /\ popped (run (map Push xs ++ repeat Pop (length xs)) rb) = xs
  /\ contents (queue (run (map Push xs ++ repeat Pop (length xs)) rb)) = [].
Proof.
  intros Hwf He Hlen. unfold run. rewrite fold_left_app.
  pose proof (proj1 (empty_count rb Hwf) He) as H0.
  rewrite run_pushes by (simpl; (done || (unfold room; lia))). simpl.
  pose proof (push_list_room xs rb Hwf ltac:(unfold room; lia)) as Hok.
  destruct (push_list xs rb) as [ok rb1] eqn:Hpl. simpl in Hok. subst ok.
  destruct (push_list_true _ _ _ Hwf Hpl) as (Hwf1 & Hc1 & Hn1).
  rewrite (contents_empty _ Hwf He) in Hc1. simpl in Hc1.
  destruct (run_pops (length xs)
              {| queue := rb1; accepted := xs; popped := [] |})
    as (q & Hq & Hwfq & Hcq); simpl; [done|lia|].
  simpl. rewrite Hq. simpl. rewrite Hcq. simpl. rewrite Hc1.
  by rewrite firstn_all, drop_all.
Qed.
End more.

Lemma occupancy_bound_witness :
  wf Samples.sample
  /\ Z.of_nat (length (contents Samples.sample))
     + Z.of_nat (length (accepted (run [Push 1; Push 2; Push 3; Push 4; Pop; Push 5]
                                     Samples.sample)))
     - Z.of_nat (length (popped (run [Push 1; Push 2; Push 3; Push 4; Pop; Push 5]
                                   Samples.sample)))
     <= 4 - 1.
Proof.
  split; [exact sample_wf|].
  exact (proj2 (occupancy_bound Samples.sample
                  [Push 1; Push 2; Push 3; Push 4; Pop; Push 5] sample_wf)).
Defined.

Lemma fill_then_drain_witness :
  wf Samples.sample /\ empty Samples.sample
  /\ popped (run (map Push [7; 8; 9] ++ repeat Pop 3) Samples.sample) = [7; 8; 9].
Proof.
  split; [exact sample_wf|]. split; [reflexivity|].
  refine (proj1 (proj2 (fill_then_drain Samples.sample [7; 8; 9]
                          sample_wf eq_refl _))).
  simpl. lia.
Defined.
End RingBufferMore.


(* ================================================================== *)
(** * The frame encoder: saturation, notifications, strings *)
(* ================================================================== *)

Module SenderMore.
Import RingBuffer RingBufferFacts Sender SenderFacts Wire Samples.

(** ** Every action is a sequence of [push_char] *)

Lemma sends_and_then f k :
  (exists a, emits f a) -> (exists b, emits k b) -> exists cs, emits (f ;;; k) cs.
Proof. intros [a Ha] [b Hb]. exists (a ++ b). by apply emits_and_then. Qed.

Lemma push_int_sends v : exists cs, emits (push_int v) cs.
Proof.
  unfold push_int. destruct (v =? INT32_MIN); [eexists; apply emits_push_string|].
  destruct (v =? 0); [eexists; apply emits_push_char|]. cbv zeta.
  destruct (digits_loop _ _ _) as [? buf].
  eexists. apply emits_push_backwards_all.
Qed.

Lemma push_float_magnitude_sends v : exists cs, emits (push_float_magnitude v) cs.
Proof.
  unfold push_float_magnitude. cbv zeta.
  apply sends_and_then; [apply push_int_sends|].
  apply sends_and_then; [eexists; apply emits_push_char|].
  destruct (1000 <=? _); cbv beta iota.
  - repeat (apply sends_and_then;
            [match goal with
             | |- context [if ?b then _ else _] =>
                 destruct b; eexists; (apply emits_push_char || apply emits_done)
             end|]).
    apply push_int_sends.
  - repeat (apply sends_and_then;
            [match goal with
             | |- context [if ?b then _ else _] =>
                 destruct b; eexists; (apply emits_push_char || apply emits_done)
             end|]).
    apply push_int_sends.
Qed.

Lemma push_float_sends v : exists cs, emits (push_float v) cs.
Proof.
  unfold push_float. destruct (F32.ltb v F32.zero).
  - apply sends_and_then; [eexists; apply emits_push_char|].
    apply push_float_magnitude_sends.
  - apply push_float_magnitude_sends.
Qed.

Lemma send_loop_sends {A} `{!Inhabited A} (push_value : A -> action) values i n :
  (forall x, exists cs, emits (push_value x) cs) ->
  exists cs, emits (send_loop push_value values i n) cs.
Proof.
  intros Hv. revert i. induction n as [|n IH]; intros i; simpl.
  - eexists. apply emits_done.
  - apply sends_and_then.
    + destruct (i =? 0)%nat; eexists; (apply emits_done || apply emits_push_char).
    + apply sends_and_then; [apply Hv|apply IH].
Qed.

Lemma frame_sends path (body : action) :
  (exists cs, emits body cs) ->
  exists cs, emits (begin_frame path ;;; body ;;; end_frame) cs.
Proof.
  intros Hb. apply sends_and_then; [eexists; apply begin_frame_emits|].
  apply sends_and_then; [done|eexists; apply end_frame_emits].
Qed.

(** ** Refusals *)

(** A refused [push_chars] stops at the first character the queue has
    no room for. *)
Lemma push_chars_cut cs s ok s' :
  wf (tx_queue s) -> push_chars cs s = (ok, s') ->
  exists k,
    (k <= length cs)%nat
    /\ contents (tx_queue s') = contents (tx_queue s) ++ take k cs
    /\ notified s' = (notified s + k)%nat
    /\ wf (tx_queue s')
    /\ (ok = true -> k = length cs)
    /\ (ok = false -> (k < length cs)%nat /\ full (tx_queue s')).
Proof.
  revert s. induction cs as [|c cs IH]; intros s Hwf; simpl.
  - intros [= <- <-]. exists 0%nat. rewrite app_nil_r.
    split; [lia|]. split; [done|]. split; [lia|]. split; [done|].
    split; [done|]. intros [=].
  - unfold and_then. destruct (push_char c s) as [[] s1] eqn:Hc.
    + destruct (push_char_true _ _ _ Hwf Hc) as (Hwf1 & Hc1 & Hn1).
      intros Hrest. destruct (IH _ Hwf1 Hrest) as (k & Hk & Hck & Hnk & Hwfk & Ht & Hf).
      exists (S k). simpl. rewrite Hck, Hc1, <- app_assoc.
      split; [lia|]. split; [done|]. split; [lia|]. split; [done|].
      split; [intros E; rewrite (Ht E); done|].
      intros E. destruct (Hf E). split; [lia|done].
    + intros [= <- <-]. exists 0%nat. rewrite take_0, app_nil_r.
      unfold push_char in Hc.
      destruct (full_or_not (tx_queue s)) as [Hfull|Hnf].
      * rewrite push_full in Hc by done. injection Hc as <-. simpl.
        split; [lia|]. split; [done|]. split; [lia|]. split; [done|].
        split; [intros [=]|]. intros _. split; [lia|done].
      * by rewrite push_not_full in Hc.
Qed.

(** ** Properties *)

(** X4. One notification per byte: whichever of the four send functions is
    called, and whether it returns true or false, the number of calls of
    [notify_tx_ready] it made is the number of bytes it added to the TX
    queue. *)
Theorem one_notification_per_byte s path :
  wf (tx_queue s) ->
  let sent_by (f : action) :=
    exists k,
      notified (snd (f s)) = (notified s + k)%nat
      /\ length (contents (tx_queue (snd (f s))))
         = (length (contents (tx_queue s)) + k)%nat in
  sent_by (send_trigger path)
  /\ (forall values n, sent_by (send_int path values n))
  /\ (forall values n, sent_by (send_float path values n))
  /\ (forall values n, sent_by (send_string path values n)).
Proof.
  intros Hwf sent_by.
  assert (forall f, (exists cs, emits f cs) -> sent_by f) as Hall.
  { intros f [cs Hf]. unfold sent_by. rewrite Hf.
    destruct (push_chars cs s) as [ok s'] eqn:E.
    destruct (push_chars_cut _ _ _ _ Hwf E) as (k & Hk & Hc & Hn & _). simpl.
    exists k. split; [done|]. rewrite Hc, length_app, length_take. lia. }
  split; [|split; [|split]]; intros; apply Hall.
  - apply sends_and_then; [eexists; apply begin_frame_emits|].
    eexists; apply end_frame_emits.
  - apply frame_sends, send_loop_sends, push_int_sends.
  - apply frame_sends, send_loop_sends, push_float_sends.
  - apply frame_sends, send_loop_sends. intros x. eexists. apply emits_push_string.
Qed.

(** The loop of a send function over values with a known text. *)
Lemma send_loop_texts {A} `{!Inhabited A} (push_value : A -> action)
    (render : A -> list ascii) values n i :
  (forall x, emits (push_value x) (render x)) ->
  (i + n <= length values)%nat ->
  emits (send_loop push_value values i n)
    (if (i =? 0)%nat then csv_join (map render (take n (drop i values)))
     else flat_map (cons ","%char) (map render (take n (drop i values)))).
Proof.
  intros Hv. revert i. induction n as [|n IH]; intros i Hlen.
  - rewrite take_0. simpl. destruct (i =? 0)%nat; apply emits_done.
  - destruct (lookup_lt_is_Some_2 values i) as [v Hx]; [lia|].
    specialize (IH (S i) ltac:(lia)).
    change (S i =? 0)%nat with false in IH. cbv iota in IH.
    simpl send_loop. rewrite (list_lookup_total_correct _ _ _ Hx).
    rewrite (drop_S _ _ _ Hx). simpl take. simpl map.
    destruct (i =? 0)%nat.
    + eapply emits_eq.
      * apply emits_and_then; [apply emits_done|].
        apply emits_and_then; [apply Hv|exact IH].
      * by rewrite csv_join_cons.
    + eapply emits_eq.
      * apply emits_and_then; [apply emits_push_char|].
        apply emits_and_then; [apply Hv|exact IH].
      * done.
Qed.

Lemma send_string_emits path values :
  emits (send_string path values (Z.of_nat (length values)))
    (frame_text (c_str path) (csv_join (map c_str values))).
Proof.
  unfold send_string. rewrite Nat2Z.id.
  pose proof (send_loop_texts push_string c_str values (length values) 0
                emits_push_string ltac:(lia)) as Hloop.
  simpl in Hloop. change (drop 0 values) with values in Hloop.
  rewrite firstn_all in Hloop.
  eapply emits_eq.
  - apply emits_and_then; [apply begin_frame_emits|].
    apply emits_and_then; [exact Hloop|apply end_frame_emits].
  - unfold frame_text. by rewrite <- !app_assoc.
Qed.

(** X5. [send_string] copies its strings verbatim: when it returns true
    the bytes added to the TX queue are the frame for the path with the
    strings joined by commas, nothing escaped; when it returns false the
    TX queue is full and holds a proper prefix of that frame, which is
    not taken back. *)
Theorem send_string_verbatim path values s ok s' :
  wf (tx_queue s) ->
  send_string path values (Z.of_nat (length values)) s = (ok, s') ->
  exists k,
    contents (tx_queue s')
    = contents (tx_queue s)
      ++ take k (frame_text (c_str path) (csv_join (map c_str values)))
    /\ (ok = true ->
        k = length (frame_text (c_str path) (csv_join (map c_str values))))
    /\ (ok = false ->
        (k < length (frame_text (c_str path) (csv_join (map c_str values))))%nat
        /\ full (tx_queue s')).
Proof.
  intros Hwf Hsend. rewrite send_string_emits in Hsend.
  destruct (push_chars_cut _ _ _ _ Hwf Hsend) as (k & _ & Hc & _ & _ & Ht & Hf).
  by exists k.
Qed.

Lemma one_notification_per_byte_witness :
  wf (tx_queue idle)
  /\ exists k,
       notified (snd (send_trigger (text "system/reset") idle))
       = (notified idle + k)%nat
       /\ length (contents (tx_queue (snd (send_trigger (text "system/reset") idle))))
          = (length (contents (tx_queue idle)) + k)%nat.
Proof.
  split; [exact idle_wf|].
  exact (proj1 (one_notification_per_byte idle (text "system/reset") idle_wf)).
Defined.

Lemma send_string_verbatim_witness :
  exists k,
    contents (tx_queue (snd (send_string (text "log/print")
                               [text "hello"; text "world"] 2 idle)))
    = contents (tx_queue idle)
      ++ take k (frame_text (c_str (text "log/print"))
                   (csv_join (map c_str [text "hello"; text "world"])))
    /\ (true = true ->
        k = length (frame_text (c_str (text "log/print"))
                      (csv_join (map c_str [text "hello"; text "world"]))))
    /\ (true = false ->
        (k < length (frame_text (c_str (text "log/print"))
                       (csv_join (map c_str [text "hello"; text "world"]))))%nat
        /\ full (tx_queue (snd (send_string (text "log/print")
                                  [text "hello"; text "world"] 2 idle)))).
Proof.
  refine (send_string_verbatim (text "log/print") [text "hello"; text "world"]
            idle true _ idle_wf _).
  by vm_compute.
Defined.

(** ** The text of a float *)

Lemma code_inj a b : code a = code b -> a = b.
Proof.
  unfold code. intros H. apply N2Z.inj in H.
  by rewrite <- (ascii_N_embedding a), <- (ascii_N_embedding b), H.
Qed.

Lemma fold_digits ds acc :
  fold_left (fun acc c => 10 * acc + (code c - code "0")) ds acc
  = acc * 10 ^ Z.of_nat (length ds) + digits_value ds.
Proof.
  revert acc. induction ds as [|d ds IH]; intros acc.
  - unfold digits_value. simpl. lia.
  - unfold digits_value. cbn [fold_left length]. rewrite (IH (10 * acc + _)).
    rewrite (IH (10 * 0 + _)). unfold digits_value.
    rewrite Nat2Z.inj_succ, Z.pow_succ_r by lia. ring.
Qed.

Lemma digit_code d : is_digit d = true -> 0 <= code d - code "0" <= 9.
Proof.
  unfold is_digit. intros H. apply andb_true_iff in H as [H1 H2].
  apply Z.leb_le in H1, H2. change (code "9") with (code "0" + 9) in H2. lia.
Qed.

Lemma digits_value_bound ds :
  forallb is_digit ds = true -> 0 <= digits_value ds < 10 ^ Z.of_nat (length ds).
Proof.
  induction ds as [|d ds IH]; intros H.
  - simpl. unfold digits_value. simpl. lia.
  - simpl in H. apply andb_true_iff in H as [Hd Hds].
    unfold digits_value. cbn [fold_left length]. rewrite fold_digits.
    rewrite Nat2Z.inj_succ, Z.pow_succ_r by lia.
    pose proof (digit_code d Hd). specialize (IH Hds). nia.
Qed.

(** The number of digits of a numeral. *)
Lemma numeral_length cs n :
  is_numeral cs n = true ->
  forallb is_digit cs = true
  /\ digits_value cs = n
  /\ (n = 0 /\ length cs = 1%nat
      \/ 10 ^ (Z.of_nat (length cs) - 1) <= n < 10 ^ Z.of_nat (length cs)).
Proof.
  destruct cs as [|d more]; [done|]. unfold is_numeral. intros H.
  apply andb_true_iff in H as [H Hvalue].
  apply andb_true_iff in H as [Hdigits Hlead].
  apply Z.eqb_eq in Hvalue. split; [done|]. split; [done|].
  pose proof (digits_value_bound _ Hdigits) as Hbound. rewrite Hvalue in Hbound.
  simpl in Hdigits. apply andb_true_iff in Hdigits as [Hd Hmore].
  pose proof (digit_code d Hd) as Hcode.
  pose proof (digits_value_bound _ Hmore) as Hrest.
  unfold digits_value in Hvalue. cbn [fold_left] in Hvalue.
  rewrite fold_digits in Hvalue.
  replace (Z.of_nat (length (d :: more)) - 1) with (Z.of_nat (length more))
    by (simpl; lia).
  apply orb_true_iff in Hlead as [Hnz|Hone].
  - right. split; [|lia].
    assert (code d - code "0" <> 0) as Hne.
    { intros E. destruct (Ascii.eqb_spec d "0") as [|Hd0]; [done|].
      destruct Hd0. apply code_inj. lia. }
    nia.
  - destruct more; [|done]. simpl in *.
    destruct (Z.eq_dec n 0); [by left|right; lia].
Qed.

Lemma three_digits cs n :
  is_numeral cs n = true -> 0 <= n < 1000 ->
  length ((if n <? 100 then ["0"%char] else [])
          ++ (if n <? 10 then ["0"%char] else []) ++ cs) = 3%nat.
Proof.
  intros H Hn. rewrite !length_app.
  destruct (numeral_length _ _ H) as (_ & _ & [[-> ->]|Hlen]); [done|].
  destruct cs as [|a [|b [|c [|d more]]]]; cbn [length] in *.
  - done.
  - change (10 ^ (Z.of_nat 1 - 1)) with 1 in Hlen.
    change (10 ^ Z.of_nat 1) with 10 in Hlen.
    rewrite (proj2 (Z.ltb_lt n 100)), (proj2 (Z.ltb_lt n 10)) by lia. done.
  - change (10 ^ (Z.of_nat 2 - 1)) with 10 in Hlen.
    change (10 ^ Z.of_nat 2) with 100 in Hlen.
    rewrite (proj2 (Z.ltb_lt n 100)), (proj2 (Z.ltb_ge n 10)) by lia. done.
  - change (10 ^ (Z.of_nat 3 - 1)) with 100 in Hlen.
    rewrite (proj2 (Z.ltb_ge n 100)), (proj2 (Z.ltb_ge n 10)) by lia. done.
  - exfalso.
    assert (10 ^ 3 <= 10 ^ (Z.of_nat (S (S (S (S (length more))))) - 1))
      by (apply Z.pow_le_mono_r; lia).
    change (10 ^ 3) with 1000 in *. lia.
Qed.

(** X6. For a float whose two conversions to [int32_t] are defined (the
    magnitude and the scaled fraction are numbers, not NaN or an
    infinity, and their truncations fit) and whose rounded fraction is
    not negative, the text sent is a sign, the decimal text of the
    truncated magnitude, a dot and exactly three digits: the rounded
    fraction, or 000 when the fraction rounds up to 1000. The integer
    part is the truncated one in both cases: no carry reaches it. *)
Theorem push_float_text v :
  let m := if F32.ltb v F32.zero then F32.opp v else v in
  let int_part := F32.to_int m in
  let scaled :=
    F32.add (F32.mul (F32.sub m (F32.of_int int_part)) F32.thousand) F32.half in
  let frac_part := F32.to_int scaled in
  Cast.defined m -> Cast.defined scaled -> 0 <= frac_part ->
  exists whole three,
    emits (push_float v)
      ((if F32.ltb v F32.zero then ["-"%char] else [])
       ++ whole ++ "."%char :: three)
    /\ is_decimal whole int_part = true
    /\ length three = 3%nat
    /\ forallb is_digit three = true
    /\ digits_value three = (if 1000 <=? frac_part then 0 else frac_part).
Proof.
  intros m int_part scaled frac_part Hm Hscaled Hpos.
  assert (INT32_MIN <= int_part <= INT32_MAX) as Hint
    by (unfold int_part; by destruct m).
  assert (0 <= frac_part <= INT32_MAX) as Hfrac
    by (split; [done|]; unfold frac_part; by destruct scaled as [| | |? ? ?];
        destruct Hscaled).
  set (shown := if 1000 <=? frac_part then 0 else frac_part).
  assert (0 <= shown < 1000) as Hshown
    by (unfold shown; destruct (Z.leb_spec 1000 frac_part); lia).
  destruct (push_int_emits int_part Hint) as (whole & Hwhole & Hdec & _).
  destruct (push_int_emits shown) as (cs & Hcs & Hnum & _);
    [unfold INT32_MIN, INT32_MAX; lia|].
  unfold is_decimal in Hnum. rewrite (proj2 (Z.ltb_ge shown 0)) in Hnum by lia.
  destruct (numeral_length _ _ Hnum) as (Hdigits & Hvalue & _).
  exists whole,
    ((if shown <? 100 then ["0"%char] else [])
     ++ (if shown <? 10 then ["0"%char] else []) ++ cs).
  split_and!.
  - assert (emits (push_float_magnitude m)
              (whole ++ "."%char
               :: (if shown <? 100 then ["0"%char] else [])
                  ++ (if shown <? 10 then ["0"%char] else []) ++ cs)) as Hmag.
    { unfold push_float_magnitude. cbv zeta. fold int_part. fold scaled.
      fold frac_part.
      apply emits_and_then; [done|].
      apply (emits_and_then _ _ ["."%char]); [apply emits_push_char|].
      assert ((if 1000 <=? frac_part then (0, int_part + 1)
               else (frac_part, int_part))
              = (shown, if 1000 <=? frac_part then int_part + 1 else int_part))
        as -> by (unfold shown; by destruct (1000 <=? frac_part)).
      apply emits_and_then;
        [destruct (shown <? 100); [apply emits_push_char|apply emits_done]|].
      apply emits_and_then; [|done].
      destruct (shown <? 10); [apply emits_push_char|apply emits_done]. }
    unfold push_float. fold m. destruct (F32.ltb v F32.zero).
    + apply (emits_and_then _ _ ["-"%char]); [apply emits_push_char|done].
    + done.
  - done.
  - by apply three_digits.
  - rewrite !forallb_app, Hdigits.
    by destruct (shown <? 100), (shown <? 10).
  - destruct (shown <? 100), (shown <? 10); exact Hvalue.
Qed.

Lemma push_float_text_witness :
  exists whole three,
    emits (push_float (F32.decimal 19995 4))
      ((if F32.ltb (F32.decimal 19995 4) F32.zero then ["-"%char] else [])
       ++ whole ++ "."%char :: three)
    /\ is_decimal whole 1 = true
    /\ length three = 3%nat
    /\ forallb is_digit three = true
    /\ digits_value three = 0.
Proof.
  refine (push_float_text (F32.decimal 19995 4) _ _ _).
  - by vm_compute.
  - by vm_compute.
  - by vm_compute.
Defined.
End SenderMore.


(* ================================================================== *)
(** * The frame parser: reachable states and rejected input *)
(* ================================================================== *)

Module ParserMore.
Import RingBuffer RingBufferFacts Parser ParserFacts ParserSpec Wire Samples.
Import MoreSamples.

(** ** The invariant *)

(** Read the members of a state written out in full. *)
Ltac members :=
  cbv [on_state set_frame_queue set_state set_idx set_path_ptr set_path_len
       set_data_ptr set_data_len store reset rx_queue frame_queue workBuffer
       work_buf_size idx path_ptr path_len data_ptr data_len state
       Frame.offset].

(** One byte keeps the members consistent and the buffer in place, and
    either leaves the frame queue alone or appends one view that lies
    inside the buffer. *)
Lemma consume_consistent ch p :
  consistent p -> wf (frame_queue p) -> work_buf_size p < 65536 ->
  consistent (consume ch p)
  /\ wf (frame_queue (consume ch p))
  /\ work_buf_size (consume ch p) = work_buf_size p
  /\ length (workBuffer (consume ch p)) = length (workBuffer p)
  /\ (contents (frame_queue (consume ch p)) = contents (frame_queue p)
      \/ exists f, in_bounds (work_buf_size p) f
                   /\ contents (frame_queue (consume ch p))
                      = contents (frame_queue p) ++ [f]).
Proof.
  destruct p as [rx fq w cap i pp pl dp dl st].
  unfold consistent, consume. simpl. intros [Hi Hst] Hwf Hcap.
  destruct (Z.leb_spec cap i) as [Hover|Hin]; simpl.
  { split_and!; (lia || done || auto). }
  destruct st; simpl in Hst; try done; destruct_and?; subst; members;
    repeat match goal with
           | |- context [Ascii.eqb ch ?c] => destruct (Ascii.eqb ch c); members
           end;
    rewrite ?(u16_small (i + 1)) by lia; rewrite ?u16_small by lia;
    rewrite ?length_insert;
    try (split_and!; (lia || reflexivity || assumption || (left; reflexivity)
                      || (f_equal; lia)); fail).
  destruct (full_or_not fq) as [Hfull|Hnf].
  - rewrite push_full by done. simpl. rewrite length_insert.
    split_and!; (lia || done || auto).
  - pose proof (push_wf (Frame.Build (Some 0) pl (Some (pl + 1)) (i + 1 - (pl + 1) - 1))
                  fq Hwf) as Hwf'.
    pose proof (push_contents (Frame.Build (Some 0) pl (Some (pl + 1))
                                 (i + 1 - (pl + 1) - 1)) fq Hwf Hnf) as Hc.
    rewrite push_not_full in * by done. simpl in *. rewrite length_insert.
    split; [lia|]. split; [done|]. split; [done|]. split; [done|].
    right. eexists. split; [|exact Hc].
    unfold in_bounds. simpl. split_and!; (done || lia).
Qed.

Lemma consistent_set_rx_queue q p : consistent (set_rx_queue q p) <-> consistent p.
Proof. by destruct p. Qed.

Lemma feed_consistent bytes p :
  consistent p -> wf (frame_queue p) -> work_buf_size p < 65536 ->
  consistent (feed bytes p)
  /\ wf (frame_queue (feed bytes p))
  /\ work_buf_size (feed bytes p) = work_buf_size p
  /\ length (workBuffer (feed bytes p)) = length (workBuffer p)
  /\ exists fs, Forall (in_bounds (work_buf_size p)) fs
                /\ contents (frame_queue (feed bytes p))
                   = contents (frame_queue p) ++ fs.
Proof.
  revert p. induction bytes as [|ch bytes IH]; intros p Hc Hwf Hcap.
  - split_and!; try done. exists []. by rewrite app_nil_r.
  - change (feed (ch :: bytes) p) with (feed bytes (consume ch p)).
    destruct (consume_consistent ch p Hc Hwf Hcap) as (Hc1 & Hwf1 & Hsz1 & Hlen1 & Hq1).
    destruct (IH (consume ch p) Hc1 Hwf1 ltac:(lia)) as (Hc2 & Hwf2 & Hsz2 & Hlen2 & fs & Hfs & Hq2).
    rewrite Hsz1 in Hfs.
    split_and!; try done; try congruence.
    destruct Hq1 as [Hq1|(f & Hf & Hq1)].
    + exists fs. by rewrite Hq2, Hq1.
    + exists (f :: fs). split; [by constructor|].
      by rewrite Hq2, Hq1, <- app_assoc.
Qed.

(** ** Properties *)

(** The round of the loop on one byte writes to the work buffer only
    where the source does: at the offset [idx] when a path or a
    payload is being read and the guard has let the byte pass, and that
    offset is inside the buffer. *)
Lemma consume_writes ch p :
  consistent p -> work_buf_size p < 65536 ->
  work_buf_size p <= Z.of_nat (length (workBuffer p)) ->
  write_ok ch p.
Proof.
  destruct p as [rx fq w cap i pp pl dp dl st].
  unfold consistent, write_ok, stores, written_inside, consume.
  cbn [idx work_buf_size state workBuffer path_ptr path_len data_ptr].
  intros [Hi Hst] Hcap Hlen.
  destruct (Z.leb_spec cap i) as [Hover|Hin].
  { split; [lia|done]. }
  assert (Z.to_nat i < length w)%nat as Hinside by lia.
  split.
  - intros [_ Hread]. split; [done|].
    destruct Hread as [-> | ->]; members.
    + destruct (Ascii.eqb ch ":"); members.
      * exists NUL. split; [by right|]. split; [done|].
        by apply list_lookup_insert_eq.
      * exists ch. split; [by left|]. split; [done|].
        by apply list_lookup_insert_eq.
    + destruct (Ascii.eqb ch "}"); members.
      * exists NUL. split; [by right|].
        destruct (push _ fq) as [[] q]; members;
          (split; [done|by apply list_lookup_insert_eq]).
      * exists ch. split; [by left|]. split; [done|].
        by apply list_lookup_insert_eq.
  - intros Hno.
    destruct st; members;
      repeat match goal with
             | |- context [Ascii.eqb ch ?c] => destruct (Ascii.eqb ch c); members
             end;
      try done; destruct Hno; (split; [done|]); auto.
Qed.

(** X7. Memory safety of the work buffer. A freshly constructed parser is
    consistent, and [poll] on a consistent parser whose work buffer has
    at least [work_buf_size] bytes takes the bytes of the RX queue one
    after the other and returns a consistent parser: the write index is
    between 0 and the buffer size, [READ_DATA] is only entered with the
    data pointer set, and [WAIT_END] is never reached. In every round
    of the loop the buffer is written to exactly when a path or a
    payload is being read and the overflow guard lets the byte pass:
    one byte, at the offset [idx], which is inside the buffer, where it
    is found afterwards. In all other rounds the buffer is left as it
    is. *)
Theorem poll_keeps_consistent p :
  consistent p -> wf (rx_queue p) -> wf (frame_queue p) ->
  work_buf_size p < 65536 ->
  work_buf_size p <= Z.of_nat (length (workBuffer p)) ->
  (exists p',
     poll p = Some p'
     /\ set_rx_queue (rx_queue p) p' = feed (contents (rx_queue p)) p
     /\ consistent p'
     /\ 0 <= idx p' <= work_buf_size p'
     /\ state p' <> WAIT_END
     /\ (state p' = READ_DATA -> data_ptr p' <> None)
     /\ work_buf_size p' = work_buf_size p
     /\ work_buf_size p' <= Z.of_nat (length (workBuffer p')))
  /\ (forall before ch rest,
        contents (rx_queue p) = before ++ ch :: rest ->
        write_ok ch (feed before p)).
Proof.
  intros Hc Hrx Hwf Hcap Hbuf. split.
  - destruct (poll_feed p Hrx) as (q & Hpoll & _).
    destruct (feed_consistent (contents (rx_queue p)) p Hc Hwf Hcap)
      as (Hc' & _ & Hsz & Hlen & _).
    eexists. split; [exact Hpoll|].
    assert (consistent (set_rx_queue q (feed (contents (rx_queue p)) p))) as Hc''
      by (by apply consistent_set_rx_queue).
    split.
    { rewrite set_rx_queue_twice, <- feed_set_rx_queue.
      by rewrite set_rx_queue_same. }
    split; [done|]. destruct Hc'' as [Hi Hst]. split; [done|].
    split; [intros E; by rewrite E in Hst|].
    split; [intros E; rewrite E in Hst; by destruct Hst as (_ & -> & _)|].
    split; [done|].
    destruct (feed _ p); cbn [set_rx_queue work_buf_size workBuffer] in *. lia.
  - intros before ch rest _.
    destruct (feed_consistent before p Hc Hwf Hcap)
      as (Hc' & _ & Hsz & Hlen & _).
    apply consume_writes; [done|lia|lia].
Qed.

Lemma make_consistent rx fq wb size : 0 <= size -> consistent (make rx fq wb size).
Proof. intros Hs. split; simpl; [lia|done]. Qed.

(** X8. The parser only ever appends to the frame queue, and every view it
    appends lies inside the work buffer: the path starts at offset 0,
    the data right after the path's terminator, and path, data and both
    terminators fit the buffer size. *)
Theorem poll_appends_views_in_bounds p :
  consistent p -> wf (rx_queue p) -> wf (frame_queue p) ->
  work_buf_size p < 65536 ->
  exists p' fs,
    poll p = Some p'
    /\ contents (frame_queue p') = contents (frame_queue p) ++ fs
    /\ Forall (in_bounds (work_buf_size p)) fs.
Proof.
  intros Hc Hrx Hwf Hcap.
  destruct (poll_feed p Hrx) as (q & Hpoll & _).
  destruct (feed_consistent (contents (rx_queue p)) p Hc Hwf Hcap)
    as (_ & _ & _ & _ & fs & Hfs & Hq).
  by exists (set_rx_queue q (feed (contents (rx_queue p)) p)), fs.
Qed.

Lemma listening_consistent rx : consistent (listening rx).
Proof. apply make_consistent. lia. Qed.

Lemma poll_keeps_consistent_witness :
  exists p',
    poll (listening (text "{p:ab{:d")) = Some p'
    /\ 0 <= idx p' <= work_buf_size p'.
Proof.
  destruct (listening_wf (text "{p:ab{:d")) as [Hwf _]; [simpl; lia|].
  destruct (proj1 (poll_keeps_consistent (listening (text "{p:ab{:d"))
                     (listening_consistent _) Hwf (proj1 (frame_queue_ready _))
                     eq_refl ltac:(simpl; lia)))
    as (p' & Hp & _ & _ & Hi & _).
  exists p'. exact (conj Hp Hi).
Defined.

Lemma poll_appends_views_in_bounds_witness :
  exists p' fs,
    poll (listening (text "{p:a:d:1}{p:b:d:}")) = Some p'
    /\ contents (frame_queue p')
       = contents (frame_queue (listening (text "{p:a:d:1}{p:b:d:}"))) ++ fs
    /\ Forall (in_bounds (work_buf_size (listening (text "{p:a:d:1}{p:b:d:}")))) fs.
Proof.
  destruct (listening_wf (text "{p:a:d:1}{p:b:d:}")) as [Hwf _]; [simpl; lia|].
  exact (poll_appends_views_in_bounds (listening (text "{p:a:d:1}{p:b:d:}"))
           (listening_consistent _) Hwf (proj1 (frame_queue_ready _)) eq_refl).
Defined.

(** ** Frames that are not queued *)

(** From [WAIT_P], the header and the path of a frame bring the parser
    to [READ_DATA] with the path stored and terminated. *)
Lemma feed_header rx fq w cap P :
  Forall (fun c => c <> ":"%char) P ->
  length w = Z.to_nat cap -> cap < 65536 ->
  Z.of_nat (length P) + 2 <= cap ->
  feed (text "p:" ++ P ++ text ":d:") (Build rx fq w cap 0 None 0 None 0 WAIT_P)
  = Build rx fq ((P ++ [NUL]) ++ drop (length (P ++ [NUL])) w) cap
      (Z.of_nat (length (P ++ [NUL]))) (Some 0) (Z.of_nat (length P))
      (Some (Z.of_nat (length (P ++ [NUL])))) 0 READ_DATA.
Proof.
  intros HP Hlen Hcap Hfit.
  change (text "p:" ++ P ++ text ":d:")
    with ("p"%char :: ":"%char :: P ++ [":"%char; "d"%char; ":"%char]).
  change (feed (?a :: ?b :: ?l) ?p) with (feed l (consume b (consume a p))).
  rewrite (consume_in_range "p") by (simpl; lia). members. simpl Ascii.eqb. cbv iota.
  rewrite consume_in_range by (simpl; lia). members. simpl Ascii.eqb. cbv iota.
  rewrite feed_app.
  pose proof (feed_read READ_PATH ":" P rx fq w cap [] (Some 0) 0 None 0) as Hpath.
  simpl in Hpath. change (drop 0 w) with w in Hpath.
  change (Z.of_nat 0) with 0 in Hpath.
  rewrite Hpath by (auto || lia). clear Hpath.
  change (feed [?a; ?b; ?c] ?p) with (consume c (consume b (consume a p))).
  rewrite consume_path_end by (done || simpl; lia).
  rewrite (consume_in_range "d") by (rewrite ?length_app; simpl; lia). members. simpl Ascii.eqb. cbv iota.
  rewrite consume_in_range by (rewrite ?length_app; simpl; lia). members. simpl Ascii.eqb. cbv iota.
  done.
Qed.

Lemma feed_overflow_junk p c junk :
  work_buf_size p <= idx p -> Forall (fun c => c <> "{"%char) junk ->
  feed (c :: junk) p
  = Build (rx_queue p) (frame_queue p) (workBuffer p) (work_buf_size p)
      0 None 0 None 0 ERROR.
Proof.
  intros Hover Hjunk.
  change (feed (c :: junk) p) with (feed junk (consume c p)).
  rewrite consume_overflow by done. by apply feed_junk.
Qed.

Lemma frame_text_split P D :
  frame_text P D = "{"%char :: (text "p:" ++ P ++ text ":d:") ++ D ++ ["}"%char].
Proof. unfold frame_text. simpl. by rewrite <- app_assoc. Qed.

Lemma feed_frame_full rx fq w cap pp pl dp dl st P D :
  st = WAIT_START \/ st = ERROR ->
  Forall (fun c => c <> ":"%char) P -> Forall (fun c => c <> "}"%char) D ->
  length w = Z.to_nat cap -> cap < 65536 ->
  Z.of_nat (length P) + Z.of_nat (length D) + 2 <= cap ->
  wf fq -> full fq ->
  exists w',
    feed (frame_text P D) (Build rx fq w cap 0 pp pl dp dl st)
    = Build rx fq w' cap 0 None 0 None 0 ERROR.
Proof.
  intros Hst HP HD Hlen Hcap Hfit Hwf Hfull.
  rewrite frame_text_split.
  change (feed (?a :: ?l) ?p) with (feed l (consume a p)).
  rewrite consume_open by (done || simpl; lia). members.
  rewrite (feed_app (text "p:" ++ P ++ text ":d:")), feed_header by (done || lia).
  rewrite (feed_app D).
  rewrite (feed_read READ_DATA "}") by (auto || rewrite !length_app; simpl; lia).
  change (feed [?a] ?p) with (consume a p).
  rewrite consume_in_range by (rewrite !length_app; simpl; lia).
  members. simpl Ascii.eqb. cbv iota. rewrite push_full by done.
  eexists. reflexivity.
Qed.

(** X9. A frame arriving while the frame queue is full is read to its end
    and then discarded: the queue is left as it was and the parser is in
    [ERROR]. *)
Theorem full_frame_queue_discards p P D :
  state p = WAIT_START -> idx p = 0 ->
  Forall (fun c => c <> ":"%char) P -> Forall (fun c => c <> "}"%char) D ->
  wf (rx_queue p) -> contents (rx_queue p) = frame_text P D ->
  length (workBuffer p) = Z.to_nat (work_buf_size p) -> work_buf_size p < 65536 ->
  Z.of_nat (length P) + Z.of_nat (length D) + 2 <= work_buf_size p ->
  wf (frame_queue p) -> full (frame_queue p) ->
  exists p',
    poll p = Some p'
    /\ frame_queue p' = frame_queue p
    /\ state p' = ERROR /\ idx p' = 0.
Proof.
  intros Hst Hidx HP HD Hrx Hbytes Hlen Hcap Hfit Hwf Hfull.
  destruct (poll_feed p Hrx) as (q & Hpoll & _).
  eexists. split; [exact Hpoll|]. rewrite Hbytes.
  destruct p as [rx fq w cap i pp pl dp dl st]. simpl in Hst, Hidx, Hlen, Hcap, Hfit, Hwf, Hfull.
  subst i.
  destruct (feed_frame_full rx fq w cap pp pl dp dl st P D) as [w' ->]; auto.
Qed.

Lemma crowded_rx rx :
  (length rx < 64)%nat ->
  wf (rx_queue (crowded rx)) /\ contents (rx_queue (crowded rx)) = rx.
Proof. exact (listening_wf rx). Qed.

Lemma crowded_full rx :
  wf (frame_queue (crowded rx)) /\ full (frame_queue (crowded rx)).
Proof.
  split; [split|]; vm_compute; repeat split; congruence.
Qed.

Lemma full_frame_queue_discards_witness :
  exists p',
    poll (crowded (frame_text (text "led") (text "1"))) = Some p'
    /\ frame_queue p' = frame_queue (crowded (frame_text (text "led") (text "1")))
    /\ state p' = ERROR /\ idx p' = 0.
Proof.
  destruct (crowded_rx (frame_text (text "led") (text "1"))) as [Hwf Hc];
    [simpl; lia|].
  refine (full_frame_queue_discards
            (crowded (frame_text (text "led") (text "1")))
            (text "led") (text "1") eq_refl eq_refl _ _ Hwf Hc eq_refl eq_refl _
            (proj1 (crowded_full _)) (proj2 (crowded_full _))).
  - repeat (constructor; [discriminate|]). constructor.
  - repeat (constructor; [discriminate|]). constructor.
  - by vm_compute.
Defined.

Lemma split_at {A} n (l t : list A) : l ++ t = take n l ++ drop n l ++ t.
Proof. by rewrite app_assoc, take_drop. Qed.

(** Lists of bytes without an opening brace. *)
Ltac no_brace :=
  repeat (rewrite Forall_app || rewrite Forall_cons);
  split_and?;
  first [done | discriminate | by apply Forall_drop | by constructor].

(** A frame too long for the work buffer runs into the overflow guard
    before its closing brace, whatever part of it is the long one. *)
Lemma feed_oversized rx fq w cap pp pl dp dl P D :
  0 <= cap < 65536 -> length w = Z.to_nat cap ->
  Forall (fun c => c <> ":"%char) P -> Forall (fun c => c <> "{"%char) P ->
  Forall (fun c => c <> "}"%char) D -> Forall (fun c => c <> "{"%char) D ->
  cap < Z.of_nat (length P) + Z.of_nat (length D) + 2 ->
  exists w',
    feed (frame_text P D) (Build rx fq w cap 0 pp pl dp dl WAIT_START)
    = Build rx fq w' cap 0 None 0 None 0 ERROR.
Proof.
  intros Hcap Hlen HPc HPj HDc HDj Hbig.
  rewrite frame_text_split.
  destruct (Z.leb_spec cap 0) as [Hzero|Hpos].
  { eexists. rewrite feed_overflow_junk; [reflexivity|simpl; lia|].
    change (text "p:") with ["p"%char; ":"%char].
    change (text ":d:") with [":"%char; "d"%char; ":"%char]. no_brace. }
  change (feed (?a :: ?l) ?p) with (feed l (consume a p)).
  rewrite consume_open by ((by left) || simpl; lia). members.
  replace ((text "p:" ++ P ++ text ":d:") ++ D ++ ["}"%char])
    with ("p"%char :: ":"%char
          :: P ++ ":"%char :: "d"%char :: ":"%char :: D ++ ["}"%char])
    by (simpl; by rewrite <- app_assoc).
  change (feed (?a :: ?b :: ?l) ?p) with (feed l (consume b (consume a p))).
  rewrite (consume_in_range "p") by (simpl; lia). members. simpl Ascii.eqb. cbv iota.
  rewrite consume_in_range by (simpl; lia). members. simpl Ascii.eqb. cbv iota.
  pose proof (fun cs => feed_read READ_PATH ":" cs rx fq w cap [] (Some 0) 0 None 0)
    as Hpath.
  simpl in Hpath. change (drop 0 w) with w in Hpath.
  change (Z.of_nat 0) with 0 in Hpath.
  destruct (Z.le_gt_cases cap (Z.of_nat (length P))) as [Hlong|Hshort].
  - (* the path alone fills the buffer *)
    rewrite (split_at (Z.to_nat cap) P), feed_app.
    assert (length (take (Z.to_nat cap) P) = Z.to_nat cap) as Hk
      by (rewrite length_take; lia).
    rewrite Hpath by (auto using Forall_take || lia).
    destruct (drop (Z.to_nat cap) P) as [|c rest] eqn:Hrest.
    + eexists. simpl app. rewrite feed_overflow_junk; [reflexivity|simpl; lia|].
      no_brace.
    + assert (Forall (fun c => c <> "{"%char) (c :: rest)) as Hj
        by (rewrite <- Hrest; by apply Forall_drop).
      apply Forall_cons in Hj as [_ Hj].
      eexists. simpl app. rewrite feed_overflow_junk; [reflexivity|simpl; lia|].
      no_brace.
  - rewrite feed_app, Hpath by (auto || lia). clear Hpath.
    change (feed (?a :: ?l) ?p) with (feed l (consume a p)).
    rewrite consume_path_end by (done || simpl; lia).
    destruct (Z.eq_dec (Z.of_nat (length P) + 1) cap) as [Hedge|Hroom].
    + (* the terminator of the path fills the buffer *)
      eexists. rewrite feed_overflow_junk; [reflexivity| |no_brace].
      simpl. rewrite length_app. simpl. lia.
    + change (feed (?a :: ?b :: ?l) ?p) with (feed l (consume b (consume a p))).
      rewrite (consume_in_range "d") by (rewrite ?length_app; simpl; lia).
      members. simpl Ascii.eqb. cbv iota.
      rewrite consume_in_range by (rewrite ?length_app; simpl; lia).
      members. simpl Ascii.eqb. cbv iota.
      (* the data fills the rest of the buffer *)
      rewrite (split_at (Z.to_nat cap - length P - 1) D), feed_app.
      assert (length (take (Z.to_nat cap - length P - 1) D)
              = (Z.to_nat cap - length P - 1)%nat) as Hk
        by (rewrite length_take; lia).
      rewrite (feed_read READ_DATA "}");
        [|by right|by apply Forall_take|done|lia
         |rewrite !length_app; simpl; lia].
      destruct (drop (Z.to_nat cap - length P - 1) D) as [|c rest] eqn:Hrest.
      * eexists. simpl app. rewrite feed_overflow_junk; [reflexivity| |no_brace].
        simpl. rewrite !length_app. simpl. lia.
      * assert (Forall (fun c => c <> "{"%char) (c :: rest)) as Hj
          by (rewrite <- Hrest; by apply Forall_drop).
        apply Forall_cons in Hj as [_ Hj].
        eexists. simpl app. rewrite feed_overflow_junk; [reflexivity| |no_brace].
        simpl. rewrite !length_app. simpl. lia.
Qed.

(** X10. A frame with no opening brace inside it (a path without colon
    or opening brace, a payload without closing or opening brace) that
    does not fit the work buffer, path, data and two terminators
    exceeding its size, is dropped whole: nothing is queued and the
    parser ends in [ERROR], waiting for the next opening brace. An
    opening brace inside such a frame would start a new frame from
    there. *)
Theorem oversized_frame_dropped p P D :
  state p = WAIT_START -> idx p = 0 ->
  Forall (fun c => c <> ":"%char /\ c <> "{"%char) P ->
  Forall (fun c => c <> "}"%char /\ c <> "{"%char) D ->
  wf (rx_queue p) -> contents (rx_queue p) = frame_text P D ->
  length (workBuffer p) = Z.to_nat (work_buf_size p) ->
  0 <= work_buf_size p < 65536 ->
  work_buf_size p < Z.of_nat (length P) + Z.of_nat (length D) + 2 ->
  exists p',
    poll p = Some p'
    /\ frame_queue p' = frame_queue p
    /\ state p' = ERROR /\ idx p' = 0.
Proof.
  intros Hst Hidx HP HD Hrx Hbytes Hlen Hcap Hbig.
  destruct (poll_feed p Hrx) as (q & Hpoll & _).
  eexists. split; [exact Hpoll|]. rewrite Hbytes.
  destruct p as [rx fq w cap i pp pl dp dl st]. simpl in Hst, Hidx, Hlen, Hcap, Hbig.
  subst i st.
  destruct (feed_oversized rx fq w cap pp pl dp dl P D) as [w' ->]; auto.
  - eapply Forall_impl; [exact HP|]. by intros c [? _].
  - eapply Forall_impl; [exact HP|]. by intros c [_ ?].
  - eapply Forall_impl; [exact HD|]. by intros c [? _].
  - eapply Forall_impl; [exact HD|]. by intros c [_ ?].
Qed.

Lemma oversized_frame_dropped_witness :
  exists p',
    poll (listening (frame_text (text "sensors/temperature/outdoor") (text "1234")))
    = Some p'
    /\ frame_queue p'
       = frame_queue
           (listening (frame_text (text "sensors/temperature/outdoor") (text "1234")))
    /\ state p' = ERROR /\ idx p' = 0.
Proof.
  destruct (listening_wf
              (frame_text (text "sensors/temperature/outdoor") (text "1234")))
    as [Hwf Hc]; [simpl; lia|].
  refine (oversized_frame_dropped
            (listening (frame_text (text "sensors/temperature/outdoor") (text "1234")))
            (text "sensors/temperature/outdoor") (text "1234")
            eq_refl eq_refl _ _ Hwf Hc eq_refl _ _).
  - repeat (constructor; [split; discriminate|]). constructor.
  - repeat (constructor; [split; discriminate|]). constructor.
  - simpl. lia.
  - simpl. lia.
Defined.

(** ** Frames sharing the work buffer *)

(** X11. Two frames read in one call of [poll] are both queued, but their
    views point at the same place: the second frame is written over the
    first one, and the path of the first view then reads as the path of
    the second. *)
Theorem later_frame_overwrites p P1 D1 P2 D2 :
  state p = WAIT_START -> idx p = 0 ->
  Forall (fun c => c <> ":"%char) P1 -> Forall (fun c => c <> "}"%char) D1 ->
  Forall (fun c => c <> ":"%char) P2 -> Forall (fun c => c <> "}"%char) D2 ->
  wf (rx_queue p) ->
  contents (rx_queue p) = frame_text P1 D1 ++ frame_text P2 D2 ->
  length (workBuffer p) = Z.to_nat (work_buf_size p) -> work_buf_size p < 65536 ->
  Z.of_nat (length P1) + Z.of_nat (length D1) + 2 <= work_buf_size p ->
  Z.of_nat (length P2) + Z.of_nat (length D2) + 2 <= work_buf_size p ->
  wf (frame_queue p) -> 2 <= room (frame_queue p) ->
  exists p' f1 f2,
    poll p = Some p'
    /\ contents (frame_queue p') = contents (frame_queue p) ++ [f1; f2]
    /\ Frame.path_len f1 = Z.of_nat (length P1)
    /\ Frame.data_len f1 = Z.of_nat (length D1)
    /\ Frame.path f1 = Frame.path f2
    /\ frame_shows (workBuffer p') f2 P2 D2
    /\ Executer.string_at (workBuffer p') (Frame.path f1) = c_str P2.
Proof.
  intros Hst Hidx HP1 HD1 HP2 HD2 Hrx Hbytes Hlen Hcap Hfit1 Hfit2 Hwf Hroom.
  destruct (poll_feed p Hrx) as (q & Hpoll & _).
  unfold room in Hroom.
  assert (~ full (frame_queue p)) as Hnf
    by (rewrite full_count by done; lia).
  rewrite Hbytes, feed_app in Hpoll.
  rewrite (feed_frame p P1 D1) in Hpoll by (auto || lia).
  set (f1 := Frame.Build (Some 0) (Z.of_nat (length P1))
               (Some (Z.of_nat (length P1) + 1)) (Z.of_nat (length D1))) in *.
  pose proof (push_wf f1 _ Hwf) as Hwf1.
  pose proof (push_count f1 _ Hwf Hnf) as Hcount1.
  pose proof (push_buffer_size f1 (frame_queue p)) as Hsize1.
  assert (~ full (snd (push f1 (frame_queue p)))) as Hnf1
    by (rewrite full_count by done; lia).
  destruct p as [rx fq w cap i pp pl dp dl st].
  cbn [rx_queue frame_queue workBuffer work_buf_size idx state] in *.
  rewrite feed_frame in Hpoll;
    cbn [rx_queue frame_queue workBuffer work_buf_size idx state]; auto.
  2: { repeat (rewrite length_app || rewrite length_drop || (progress cbn [length])).
       lia. }
  cbn [rx_queue frame_queue workBuffer work_buf_size] in Hpoll.
  set (f2 := Frame.Build (Some 0) (Z.of_nat (length P2))
               (Some (Z.of_nat (length P2) + 1)) (Z.of_nat (length D2))) in *.
  exists (set_rx_queue q
            (Build rx (snd (push f2 (snd (push f1 fq))))
               ((P2 ++ NUL :: D2 ++ [NUL])
                ++ drop (length P2 + length D2 + 2)
                     ((P1 ++ NUL :: D1 ++ [NUL])
                      ++ drop (length P1 + length D1 + 2) w))
               cap 0 None 0 None 0 WAIT_START)),
    f1, f2.
  split; [exact Hpoll|].
  cbn [set_rx_queue rx_queue frame_queue workBuffer work_buf_size idx state
       path_ptr path_len data_ptr data_len].
  split_and!; try done.
  - rewrite !push_contents by done. by rewrite <- app_assoc.
  - apply frame_in_buffer.
  - unfold Executer.string_at. simpl. rewrite <- app_assoc. apply ExecuterFacts.c_str_before_nul.
Qed.

Lemma later_frame_overwrites_witness :
  exists p' f1 f2,
    poll (listening (frame_text (text "led/on") (text "1")
                     ++ frame_text (text "fan") (text "40,2"))) = Some p'
    /\ contents (frame_queue p')
       = contents (frame_queue
                     (listening (frame_text (text "led/on") (text "1")
                                 ++ frame_text (text "fan") (text "40,2"))))
         ++ [f1; f2]
    /\ Frame.path_len f1 = Z.of_nat (length (text "led/on"))
    /\ Frame.data_len f1 = Z.of_nat (length (text "1"))
    /\ Frame.path f1 = Frame.path f2
    /\ frame_shows (workBuffer p') f2 (text "fan") (text "40,2")
    /\ Executer.string_at (workBuffer p') (Frame.path f1) = c_str (text "fan").
Proof.
  destruct (listening_wf (frame_text (text "led/on") (text "1")
                          ++ frame_text (text "fan") (text "40,2")))
    as [Hwf Hc]; [simpl; lia|].
  refine (later_frame_overwrites
            (listening (frame_text (text "led/on") (text "1")
                        ++ frame_text (text "fan") (text "40,2")))
            (text "led/on") (text "1") (text "fan") (text "40,2")
            eq_refl eq_refl _ _ _ _ Hwf Hc eq_refl eq_refl _ _
            (proj1 (frame_queue_ready _)) _).
  - repeat (constructor; [discriminate|]). constructor.
  - repeat (constructor; [discriminate|]). constructor.
  - repeat (constructor; [discriminate|]). constructor.
  - repeat (constructor; [discriminate|]). constructor.
  - simpl. lia.
  - simpl. lia.
  - by vm_compute.
Defined.

(** ** Input arriving in pieces *)

(** X12. The parser keeps its place between calls: polling the bytes [a],
    and later the bytes of a refilled RX queue, leaves the parser as one
    pass over all the bytes would. *)
Theorem poll_resumes p p1 q2 :
  wf (rx_queue p) -> poll p = Some p1 -> wf q2 ->
  exists q',
    poll (set_rx_queue q2 p1)
    = Some (set_rx_queue q' (feed (contents (rx_queue p) ++ contents q2) p))
    /\ wf q' /\ empty q'.
Proof.
  intros Hrx Hpoll Hq2.
  destruct (poll_feed p Hrx) as (q & Hp1 & _).
  rewrite Hp1 in Hpoll. injection Hpoll as <-.
  destruct (poll_feed (set_rx_queue q2 (set_rx_queue q (feed (contents (rx_queue p)) p))))
    as (q' & Hp2 & Hq'); [done|].
  exists q'. split; [|done].
  rewrite Hp2. f_equal.
  change (rx_queue (set_rx_queue q2 ?x)) with q2.
  rewrite !feed_set_rx_queue, feed_app. reflexivity.
Qed.

Lemma poll_resumes_witness :
  exists p1 q',
    poll (listening (text "{p:led:d")) = Some p1
    /\ poll (set_rx_queue (rx_queue (listening (text ":1}"))) p1)
       = Some (set_rx_queue q'
                 (feed (contents (rx_queue (listening (text "{p:led:d")))
                        ++ contents (rx_queue (listening (text ":1}"))))
                    (listening (text "{p:led:d"))))
    /\ wf q' /\ empty q'.
Proof.
  destruct (listening_wf (text "{p:led:d")) as [Hwf _]; [simpl; lia|].
  destruct (listening_wf (text ":1}")) as [Hwf2 _]; [simpl; lia|].
  destruct (poll_feed _ Hwf) as (q & Hp1 & _).
  eexists. 
  destruct (poll_resumes _ _ _ Hwf Hp1 Hwf2) as (q' & H).
  exists q'. exact (conj Hp1 H).
Defined.
End ParserMore.

(* ================================================================== *)
(** * The dispatcher: fields of a payload and the call made *)
(* ================================================================== *)

Module ExecuterMore.
Import RingBuffer RingBufferFacts Executer ExecuterFacts Wire Fields Routing.
Import Samples MoreSamples.

(** ** Characters and strings *)

Lemma is_nul_false c : c <> NUL -> is_nul c = false.
Proof. intros Hc. by apply Ascii.eqb_neq. Qed.

Lemma is_nul_true c : is_nul c = true -> c = NUL.
Proof. apply Ascii.eqb_eq. Qed.

Lemma code_nul c : code c = 0 <-> c = NUL.
Proof.
  split; [|by intros ->].
  intros H. by apply SenderMore.code_inj.
Qed.

Lemma c_str_until_nul s rest :
  Forall (fun c => c <> NUL) s -> c_str (s ++ NUL :: rest) = s.
Proof.
  induction 1 as [|c s Hc _ IH]; [done|].
  simpl. by rewrite (is_nul_false c Hc), IH.
Qed.

(** [strcmp] gives 0 exactly for equal strings. *)
Lemma strcmp_zero a b : strcmp a b = 0 <-> c_str a = c_str b.
Proof.
  revert b. induction a as [|ca a IH]; intros [|cb b]; simpl.
  - done.
  - unfold is_nul. destruct (Ascii.eqb_spec cb NUL) as [->|Hne]; [done|].
    split; [|done]. intros H. destruct Hne. apply code_nul. lia.
  - unfold is_nul. destruct (Ascii.eqb_spec ca NUL) as [->|Hne]; [done|].
    split; [|done]. intros H. destruct Hne. by apply code_nul.
  - destruct (Ascii.eqb_spec ca cb) as [->|Hne].
    + destruct (is_nul cb); [done|]. rewrite IH. split; [by intros ->|].
      by intros [= ?].
    + split.
      * intros H. destruct Hne. apply SenderMore.code_inj. lia.
      * unfold is_nul.
        destruct (Ascii.eqb_spec ca NUL) as [->|], (Ascii.eqb_spec cb NUL) as [->|];
          try done.
        by intros [= ? _].
Qed.

Lemma plain_no_nul f : plain f -> Forall (fun c => c <> NUL) f.
Proof. intros H. eapply Forall_impl; [exact H|]. by intros c [_ ?]. Qed.

Lemma csv_join_no_nul fs :
  Forall plain fs -> Forall (fun c => c <> NUL) (csv_join fs).
Proof.
  induction 1 as [|f fs Hf Hfs IH]; [constructor|].
  destruct fs as [|g fs]; [by apply plain_no_nul|].
  change (csv_join (f :: g :: fs)) with (f ++ ","%char :: csv_join (g :: fs)).
  apply Forall_app. split; [by apply plain_no_nul|].
  by constructor.
Qed.

Lemma data_type_eqb_spec a b : reflect (a = b) (data_type_eqb a b).
Proof. destruct a, b; by constructor. Qed.

Lemma plain_head c f : plain (c :: f) -> is_nul c = false /\ Ascii.eqb c "," = false.
Proof.
  intros H. apply Forall_cons in H as [[Hc Hn] _].
  split; [by apply is_nul_false|by apply Ascii.eqb_neq].
Qed.

Lemma plain_tail c f : plain (c :: f) -> plain f.
Proof. intros H. by apply Forall_cons in H as [_ ?]. Qed.

(** The payload of two or more fields, written out. *)
Lemma csv_join_more f g fs :
  csv_join (f :: g :: fs) = f ++ ","%char :: csv_join (g :: fs).
Proof. reflexivity. Qed.

(** ** Counting the fields *)

Lemma count_csv_from_plain count f tail :
  plain f -> count_csv_from count (f ++ tail) = count_csv_from count tail.
Proof.
  induction f as [|c f IH]; intros Hf; [done|].
  destruct (plain_head _ _ Hf) as [Hn Hc]. simpl. rewrite Hn, Hc.
  apply IH. by eapply plain_tail.
Qed.

Lemma count_csv_from_fields count fs rest :
  fs <> [] -> Forall plain fs -> 0 <= count < 65536 ->
  count_csv_from count (csv_join fs ++ NUL :: rest)
  = u16 (count + Z.of_nat (length fs) - 1).
Proof.
  intros Hne Hfs. revert count.
  induction Hfs as [|f fs Hf Hfs IH]; [done|]. intros count Hcount.
  destruct fs as [|g fs].
  - simpl csv_join. rewrite count_csv_from_plain by done. simpl.
    rewrite u16_small; lia.
  - rewrite csv_join_more, <- app_assoc, count_csv_from_plain by done.
    change (count_csv_from count ((","%char :: csv_join (g :: fs)) ++ NUL :: rest))
      with (count_csv_from (u16 (count + 1)) (csv_join (g :: fs) ++ NUL :: rest)).
    rewrite IH by (done || unfold u16; apply Z.mod_pos_bound; lia).
    unfold u16. change (length (f :: g :: fs)) with (S (length (g :: fs))).
    rewrite Nat2Z.inj_succ.
    rewrite <- Zminus_mod_idemp_l, <- Zplus_mod_idemp_l, Z.mod_mod by lia.
    rewrite Zplus_mod_idemp_l, Zminus_mod_idemp_l. f_equal. lia.
Qed.

(** X13. [count_csv] counts the fields of a payload, in 16 bits. *)
Theorem count_csv_counts_fields fs rest :
  fs <> [] -> Forall plain fs ->
  count_csv (csv_join fs ++ NUL :: rest) = u16 (Z.of_nat (length fs)).
Proof.
  intros Hne Hfs. unfold count_csv.
  rewrite count_csv_from_fields by (done || lia). f_equal. lia.
Qed.

Lemma count_csv_counts_fields_witness :
  count_csv (csv_join [text "10"; text ""; text "-5"] ++ NUL :: text "junk")
  = u16 (Z.of_nat (length [text "10"; text ""; text "-5"])).
Proof.
  apply count_csv_counts_fields; [discriminate|].
  repeat (constructor; [repeat (constructor; [split; discriminate|]); constructor|]).
  constructor.
Defined.

(** ** The numeric payloads *)

Lemma skip_field_plain f c tail :
  plain f -> is_nul c || Ascii.eqb c "," = true ->
  skip_field (f ++ c :: tail) = c :: tail.
Proof.
  intros Hf Hc. induction f as [|a f IH]; simpl.
  - by rewrite Hc.
  - destruct (plain_head _ _ Hf) as [-> ->]. simpl. apply IH.
    by eapply plain_tail.
Qed.

Lemma peek_field f c tail :
  plain f -> is_nul c = false -> is_nul (peek (f ++ c :: tail)) = false.
Proof.
  intros Hf Hc. destruct f as [|a f]; [done|].
  by destruct (plain_head _ _ Hf).
Qed.

Lemma parse_numeric_stop {N} (convert : list ascii -> N) budget rest out :
  parse_numeric_csv_from convert budget (NUL :: rest) out = out.
Proof. by destruct budget. Qed.

Lemma converted_more f g fs : converted (f :: g :: fs) = S (converted (g :: fs)).
Proof.
  unfold converted. change (last (f :: g :: fs)) with (last (g :: fs)).
  destruct (last (g :: fs)) as [[|]|]; simpl; lia.
Qed.

Lemma parse_numeric_fields {N} (convert : list ascii -> N) budget fs rest out :
  fs <> [] -> Forall plain fs ->
  parse_numeric_csv_from convert budget (csv_join fs ++ NUL :: rest) out
  = out ++ map (fun k => convert (csv_join (drop k fs)))
             (seq 0 (min budget (converted fs))).
Proof.
  intros Hne Hfs. revert fs Hne Hfs out.
  induction budget as [|budget IH]; intros fs Hne Hfs out.
  { by rewrite app_nil_r. }
  destruct Hfs as [|f fs Hf Hfs]; [done|].
  destruct fs as [|g fs].
  - destruct f as [|c f].
    + by rewrite app_nil_r.
    + change (csv_join [c :: f] ++ NUL :: rest) with ((c :: f) ++ NUL :: rest).
      cbn [parse_numeric_csv_from].
      change (peek ((c :: f) ++ NUL :: rest)) with c.
      rewrite (proj1 (plain_head _ _ Hf)).
      rewrite skip_field_plain, c_str_until_nul
        by (done || by apply plain_no_nul).
      change (skip_comma (NUL :: rest)) with (NUL :: rest).
      rewrite parse_numeric_stop. unfold converted. simpl.
      by rewrite Nat.min_0_r.
  - rewrite converted_more, csv_join_more, <- app_assoc.
    change ((","%char :: csv_join (g :: fs)) ++ NUL :: rest)
      with (","%char :: csv_join (g :: fs) ++ NUL :: rest).
    cbn [parse_numeric_csv_from].
    rewrite peek_field, skip_field_plain by done.
    change (skip_comma (","%char :: ?t)) with t.
    rewrite IH by done.
    rewrite <- Nat.succ_min_distr. cbn [seq map]. rewrite <- app_assoc.
    f_equal. cbn [app]. f_equal.
    + f_equal.
      change (f ++ ","%char :: csv_join (g :: fs) ++ NUL :: rest)
        with (f ++ (","%char :: csv_join (g :: fs)) ++ NUL :: rest).
      rewrite app_assoc, <- csv_join_more.
      apply c_str_until_nul, csv_join_no_nul. by constructor.
    + by rewrite <- seq_shift, map_map.
Qed.

(** X14. [parse_int_csv] and [parse_float_csv] convert the strings that
    start at each field of the payload, the first 8 at most and not an
    empty field at its end; each conversion is given the payload from
    its field on. *)
Theorem numeric_csv_converts_fields atoi strtof fs rest :
  fs <> [] -> Forall plain fs ->
  parse_int_csv atoi (csv_join fs ++ NUL :: rest)
  = map (fun k => atoi (csv_join (drop k fs))) (seq 0 (min 8 (converted fs)))
  /\ parse_float_csv strtof (csv_join fs ++ NUL :: rest)
     = map (fun k => strtof (csv_join (drop k fs))) (seq 0 (min 8 (converted fs))).
Proof.
  intros Hne Hfs. unfold parse_int_csv, parse_float_csv, parse_numeric_csv.
  by rewrite !parse_numeric_fields.
Qed.

Lemma numeric_csv_converts_fields_witness :
  parse_int_csv (fun s => Z.of_nat (length s))
    (csv_join [text "10"; text ""; text "-5"; text ""] ++ NUL :: text "junk")
  = map (fun k => (fun s => Z.of_nat (length s))
                    (csv_join (drop k [text "10"; text ""; text "-5"; text ""])))
      (seq 0 (min 8 (converted [text "10"; text ""; text "-5"; text ""]))).
Proof.
  refine (proj1 (numeric_csv_converts_fields (fun s => Z.of_nat (length s))
                   (fun _ => F32.zero)
                   [text "10"; text ""; text "-5"; text ""] (text "junk") _ _)).
  - discriminate.
  - repeat (constructor; [repeat (constructor; [split; discriminate|]); constructor|]).
    constructor.
Defined.

(** ** The string payloads *)

(** The cursor of [parse_string_csv] walks over the characters of a
    field. *)
Lemma string_loop_field f pre fuel tail out :
  plain f -> Z.of_nat (length out) < MAX_CSV_ITEMS ->
  parse_string_csv_from (length f + fuel) (pre ++ f ++ tail)
    (Z.of_nat (length pre)) out
  = parse_string_csv_from fuel (pre ++ f ++ tail)
      (Z.of_nat (length (pre ++ f))) out.
Proof.
  intros Hf Hout. revert pre.
  induction f as [|c f IH]; intros pre.
  - by rewrite app_nil_r.
  - destruct (plain_head _ _ Hf) as [Hn Hc].
    change (length (c :: f) + fuel)%nat with (S (length f + fuel)).
    cbn [parse_string_csv_from].
    rewrite Nat2Z.id.
    rewrite (list_lookup_total_middle pre (f ++ tail) c) by done.
    rewrite Hn, Hc, (proj2 (Z.ltb_lt _ _) Hout). cbn [orb negb].
    replace (Z.of_nat (length pre) + 1) with (Z.of_nat (length (pre ++ [c])))
      by (rewrite length_app; simpl; lia).
    replace (pre ++ (c :: f) ++ tail) with ((pre ++ [c]) ++ f ++ tail)
      by (by rewrite <- app_assoc).
    rewrite IH by (by eapply plain_tail).
    by rewrite <- !app_assoc.
Qed.

(** The whole loop: with [slots] pointers still to store, the first
    [slots] commas are replaced and the offsets after them stored. *)
Lemma string_loop_fields fs pre post out slots fuel :
  fs <> [] -> Forall plain fs ->
  Z.of_nat (length out) + Z.of_nat slots = MAX_CSV_ITEMS ->
  (length (csv_join fs) < fuel)%nat ->
  parse_string_csv_from fuel (pre ++ csv_join fs ++ NUL :: post)
    (Z.of_nat (length pre)) out
  = (pre ++ cut slots fs ++ NUL :: post,
     out ++ starts slots (Z.of_nat (length pre)) fs).
Proof.
  intros Hne Hfs. revert pre out slots fuel.
  induction Hfs as [|f fs Hf Hfs IH]; [done|].
  intros pre out slots fuel Hslots Hfuel.
  destruct slots as [|slots].
  { (* the array of pointers is full *)
    destruct fuel as [|fuel]; [lia|]. cbn [parse_string_csv_from].
    rewrite (proj2 (Z.ltb_ge _ _)) by lia. rewrite orb_true_r.
    destruct fs; cbn [cut starts csv_join]; by rewrite app_nil_r. }
  destruct fs as [|g fs].
  - cbn [csv_join cut starts] in *. rewrite app_nil_r.
    replace fuel with (length f + (fuel - length f))%nat by lia.
    rewrite string_loop_field by (done || lia).
    destruct (fuel - length f)%nat as [|fuel'] eqn:E; [lia|].
    cbn [parse_string_csv_from]. rewrite Nat2Z.id.
    rewrite app_assoc, (list_lookup_total_middle (pre ++ f) post NUL) by done.
    reflexivity.
  - rewrite csv_join_more in *. rewrite length_app in Hfuel. cbn [length] in Hfuel.
    cbn [cut starts]. rewrite <- app_assoc.
    replace fuel with (length f + S (fuel - length f - 1))%nat by lia.
    rewrite string_loop_field by (done || lia).
    cbn [parse_string_csv_from]. rewrite Nat2Z.id.
    rewrite app_assoc.
    change ((","%char :: csv_join (g :: fs)) ++ NUL :: post)
      with (","%char :: (csv_join (g :: fs) ++ NUL :: post)).
    rewrite (list_lookup_total_middle (pre ++ f) _ ","%char) by done.
    rewrite (proj2 (Z.ltb_lt _ _)) by lia.
    change (is_nul ","%char || negb true) with false. cbn iota.
    change (Ascii.eqb ","%char ","%char) with true. cbn iota.
    rewrite insert_app_r_alt, Nat.sub_diag by done. cbn [insert list_insert].
    replace (Z.of_nat (length (pre ++ f)) + 1)
      with (Z.of_nat (length ((pre ++ f) ++ [NUL])))
      by (rewrite !length_app; simpl; lia).
    replace ((pre ++ f) ++ NUL :: csv_join (g :: fs) ++ NUL :: post)
      with (((pre ++ f) ++ [NUL]) ++ csv_join (g :: fs) ++ NUL :: post)
      by (by rewrite <- !app_assoc).
    rewrite (IH ltac:(done) ((pre ++ f) ++ [NUL]) _ slots).
    + rewrite <- !app_assoc. f_equal.
      rewrite !length_app. cbn [length app].
      replace (Z.of_nat (length pre + (length f + 1)))
        with (Z.of_nat (length pre) + Z.of_nat (length f) + 1) by lia.
      reflexivity.
    + rewrite length_app. simpl. lia.
    + lia.
Qed.

Lemma cut_more slots f g fs :
  cut (S slots) (f :: g :: fs) = f ++ NUL :: cut slots (g :: fs).
Proof. reflexivity. Qed.

Lemma starts_more slots off f g fs :
  starts (S slots) off (f :: g :: fs)
  = Some (off + Z.of_nat (length f) + 1)
    :: starts slots (off + Z.of_nat (length f) + 1) (g :: fs).
Proof. reflexivity. Qed.

Lemma length_cut slots fs : length (cut slots fs) = length (csv_join fs).
Proof.
  revert slots. induction fs as [|f fs IH]; intros slots; [done|].
  destruct fs as [|g fs]; [done|].
  destruct slots as [|slots]; [done|].
  rewrite csv_join_more, cut_more, !length_app. cbn [length].
  by rewrite IH.
Qed.

Lemma length_starts slots off fs :
  length (starts slots off fs) = min slots (length fs - 1).
Proof.
  revert slots off. induction fs as [|f fs IH]; intros slots off.
  - simpl. lia.
  - destruct fs as [|g fs]; [simpl; lia|].
    destruct slots as [|slots]; [done|].
    rewrite starts_more. cbn [length]. rewrite IH. cbn [length]. lia.
Qed.

Lemma string_at_offset pre s : string_at (pre ++ s) (Some (Z.of_nat (length pre))) = c_str s.
Proof.
  unfold string_at, Frame.deref. by rewrite Nat2Z.id, drop_app_length.
Qed.

(** What the handler reads at the pointers: the fields in order, the
    last string being whatever the loop left unsplit. *)
Lemma strings_read fs pre post slots :
  fs <> [] -> Forall plain fs ->
  map (string_at (pre ++ cut slots fs ++ NUL :: post))
    (Some (Z.of_nat (length pre)) :: starts slots (Z.of_nat (length pre)) fs)
  = take (min slots (length fs - 1)) fs
    ++ [csv_join (drop (min slots (length fs - 1)) fs)].
Proof.
  intros Hne Hfs. revert pre slots.
  induction Hfs as [|f fs Hf Hfs IH]; [done|]. intros pre slots.
  destruct fs as [|g fs].
  - cbn [cut starts map length]. rewrite string_at_offset, Nat.min_0_r.
    by rewrite c_str_until_nul by (by apply plain_no_nul).
  - destruct slots as [|slots].
    + cbn [cut starts map]. rewrite <- csv_join_more, string_at_offset.
      rewrite c_str_until_nul by (apply csv_join_no_nul; by constructor).
      done.
    + rewrite cut_more, starts_more. cbn [map].
      rewrite string_at_offset, <- app_assoc, <- !app_comm_cons.
      rewrite c_str_until_nul by (by apply plain_no_nul).
      replace (length (f :: g :: fs) - 1)%nat with (S (length (g :: fs) - 1))
        by (simpl; lia).
      rewrite <- Nat.succ_min_distr. cbn [take drop app]. f_equal.
      rewrite <- (IH ltac:(done) (pre ++ f ++ [NUL]) slots).
      rewrite <- !app_assoc. cbn [app map].
      replace (Z.of_nat (length (pre ++ f ++ [NUL])))
        with (Z.of_nat (length pre) + Z.of_nat (length f) + 1)
        by (rewrite !length_app; simpl; lia).
      reflexivity.
Qed.

Lemma csv_join_last fs :
  fs <> [] ->
  take (length fs - 1) fs ++ [csv_join (drop (length fs - 1) fs)] = fs.
Proof.
  induction fs as [|f fs IH]; [done|]. intros _.
  destruct fs as [|g fs]; [done|].
  replace (length (f :: g :: fs) - 1)%nat with (S (length (g :: fs) - 1))
        by (simpl; lia).
  cbn [take drop app]. by rewrite IH.
Qed.

Lemma parse_string_csv_run pre fs post :
  fs <> [] -> Forall plain fs ->
  parse_string_csv (pre ++ csv_join fs ++ NUL :: post) (Z.of_nat (length pre))
  = (pre ++ cut 7 fs ++ NUL :: post,
     Some (Z.of_nat (length pre)) :: starts 7 (Z.of_nat (length pre)) fs).
Proof.
  intros Hne Hfs. unfold parse_string_csv.
  change (Some (Z.of_nat (length pre)) :: starts 7 (Z.of_nat (length pre)) fs)
    with ([Some (Z.of_nat (length pre))] ++ starts 7 (Z.of_nat (length pre)) fs).
  apply string_loop_fields; [done|done|done|].
  rewrite !length_app. simpl. lia.
Qed.

(** X15. [parse_string_csv] on a payload of fields: it stores one pointer
    per field, 8 at most, and ends each field but the last one it
    reached, so that the handler reads the fields as strings; a payload
    of up to 8 fields is handed over field by field. Only commas of the
    payload are overwritten; the buffer before it keeps its bytes. *)
Theorem string_csv_splits_fields pre fs post :
  fs <> [] -> Forall plain fs ->
  let mem := pre ++ csv_join fs ++ NUL :: post in
  let mem' := fst (parse_string_csv mem (Z.of_nat (length pre))) in
  let ptrs := snd (parse_string_csv mem (Z.of_nat (length pre))) in
  length ptrs = min 8 (length fs)
  /\ map (string_at mem') ptrs
     = take (min 7 (length fs - 1)) fs
       ++ [csv_join (drop (min 7 (length fs - 1)) fs)]
  /\ ((length fs <= 8)%nat -> map (string_at mem') ptrs = fs)
  /\ length mem' = length mem
  /\ take (length pre) mem' = pre.
Proof.
  intros Hne Hfs mem mem' ptrs.
  subst mem' ptrs. unfold mem. rewrite parse_string_csv_run by done.
  cbn [fst snd app].
  assert (length fs <> 0)%nat as Hlen by (by destruct fs).
  split_and!.
  - cbn [length]. rewrite length_starts. lia.
  - by apply strings_read.
  - intros Hfew. rewrite strings_read by done.
    rewrite Nat.min_r by lia. by apply csv_join_last.
  - unfold mem. rewrite !length_app, length_cut. done.
  - by rewrite take_app_length.
Qed.

Lemma string_csv_splits_fields_witness :
  map (string_at
         (fst (parse_string_csv
                 (text "log/print" ++ [NUL]
                  ++ csv_join [text "on"; text ""; text "fan 2"] ++ NUL :: text "xx")
                 (Z.of_nat (length (text "log/print" ++ [NUL]))))))
    (snd (parse_string_csv
            (text "log/print" ++ [NUL]
             ++ csv_join [text "on"; text ""; text "fan 2"] ++ NUL :: text "xx")
            (Z.of_nat (length (text "log/print" ++ [NUL])))))
  = [text "on"; text ""; text "fan 2"].
Proof.
  refine (proj1 (proj2 (proj2 (string_csv_splits_fields (text "log/print" ++ [NUL])
                   [text "on"; text ""; text "fan 2"] (text "xx") _ _))) _).
  - discriminate.
  - repeat (constructor; [repeat (constructor; [split; discriminate|]); constructor|]).
    constructor.
  - simpl. lia.
Defined.

(** ** The call made *)

Lemma parse_numeric_length {N} (convert : list ascii -> N) budget data out :
  (length (parse_numeric_csv_from convert budget data out)
   <= length out + budget)%nat.
Proof.
  revert data out. induction budget as [|budget IH]; intros data out; simpl.
  - lia.
  - destruct (is_nul (peek data)); [lia|].
    etrans; [apply IH|]. rewrite length_app. simpl. lia.
Qed.

Lemma parse_string_length fuel mem data out :
  (length out <= 8)%nat ->
  (length out <= length (snd (parse_string_csv_from fuel mem data out)) <= 8)%nat.
Proof.
  revert mem data out. induction fuel as [|fuel IH]; intros mem data out Hout.
  - simpl. lia.
  - cbn [parse_string_csv_from]. unfold MAX_CSV_ITEMS.
    destruct (Z.ltb_spec (Z.of_nat (length out)) 8) as [Hlt|Hge].
    + destruct (is_nul _); [simpl; lia|]. cbn [orb negb].
      destruct (Ascii.eqb _ _).
      * specialize (IH (<[Z.to_nat data:=NUL]> mem) (data + 1)
                      (out ++ [Some (data + 1)])).
        rewrite length_app in IH. simpl in IH. lia.
      * by apply IH.
    + rewrite orb_true_r. simpl. lia.
Qed.

Lemma detect_type_from_some has_dot p : detect_type_from has_dot p <> NONE.
Proof.
  revert has_dot. induction p as [|c p IH]; intros has_dot; simpl.
  - by destruct has_dot.
  - destruct (is_nul c); [by destruct has_dot|].
    destruct (Ascii.eqb c "."); [apply IH|].
    destruct (_ && _); [done|apply IH].
Qed.

Lemma dispatch_head_shape atoi strtof entry rest i frame mem mem' c :
  strcmp (Frame.deref mem (Frame.path frame)) (path entry) = 0 ->
  dispatch atoi strtof (entry :: rest) i frame mem = (mem', Some c) ->
  route c = i /\ call_for mem frame entry c mem'.
Proof.
  intros Hpath. cbn [dispatch]. rewrite Hpath.
  change (negb (0 =? 0)) with false. cbn iota.
  unfold call_for, MAX_CSV_ITEMS.
  destruct (Frame.data frame) as [off|] eqn:Hdata; cbn [orb].
  2: { intros [= <- <-]. cbn [route type args count].
       split_and!; [done|left; split_and!; auto|lia|lia|done|done]. }
  destruct (Z.eqb_spec (Frame.data_len frame) 0) as [Hlen|Hlen].
  { intros [= <- <-]. cbn [route type args count].
    split_and!; [done|left; split_and!; auto|lia|lia|done|done]. }
  destruct (data_type_eqb_spec (detect_type (Frame.deref mem (Some off)))
              (expected_type entry)) as [Htype|Htype]; cbn [negb]; [|done].
  destruct (detect_type (Frame.deref mem (Some off))) eqn:E.
  - done.
  - intros [= <- <-]. cbn [route type args count].
    pose proof (parse_numeric_length atoi 8 (Frame.deref mem (Some off)) []) as Hn.
    unfold parse_int_csv, parse_numeric_csv, MAX_CSV_ITEMS.
    change (Z.to_nat 8) with 8%nat. cbn [length Frame.deref] in Hn.
    split_and!; first [done | lia | by right].
  - intros [= <- <-]. cbn [route type args count].
    pose proof (parse_numeric_length strtof 8 (Frame.deref mem (Some off)) []) as Hn.
    unfold parse_float_csv, parse_numeric_csv, MAX_CSV_ITEMS.
    change (Z.to_nat 8) with 8%nat. cbn [length Frame.deref] in Hn.
    split_and!; first [done | lia | by right].
  - pose proof (parse_string_length (length mem) mem
                  (Frame.offset (Some off)) [Some (Frame.offset (Some off))]) as Hn.
    unfold parse_string_csv.
    destruct (parse_string_csv_from _ _ _ _) as [m ptrs].
    cbn [snd length] in Hn.
    intros [= <- <-]. cbn [route type args count].
    split_and!; first [done | lia | by right].
Qed.

(** What the loop over the table can end in: a call on behalf of the
    first entry with the frame's path, and none on behalf of any other
    entry. *)
Lemma dispatch_shape atoi strtof table i frame mem mem' c :
  dispatch atoi strtof table i frame mem = (mem', Some c) ->
  exists k entry,
    route c = (i + k)%nat /\ table !! k = Some entry
    /\ strcmp (Frame.deref mem (Frame.path frame)) (path entry) = 0
    /\ (forall j e, (j < k)%nat -> table !! j = Some e ->
         strcmp (Frame.deref mem (Frame.path frame)) (path e) <> 0)
    /\ call_for mem frame entry c mem'.
Proof.
  revert i. induction table as [|entry rest IH]; intros i; [done|].
  destruct (Z.eq_dec (strcmp (Frame.deref mem (Frame.path frame)) (path entry)) 0)
    as [Hpath|Hpath].
  - intros Hcall.
    destruct (dispatch_head_shape _ _ _ _ _ _ _ _ _ Hpath Hcall) as [Hr Hc].
    exists 0%nat, entry. rewrite Nat.add_0_r.
    split_and!; [done|done|done|lia|done].
  - cbn [dispatch]. rewrite (proj2 (Z.eqb_neq _ _) Hpath). cbn [negb].
    intros Hcall.
    destruct (IH (S i) Hcall) as (k & e & Hr & He & H0 & Hfirst & Hrest).
    exists (S k), e. split_and!; [lia|done|done| |done].
    intros [|j] e' Hj He'.
    + by injection He' as <-.
    + apply (Hfirst j); [lia|done].
Qed.

(** X16. A call of [poll] invokes at most the handler of the first entry of
    the table whose path is, as a C string, the string found at the path
    pointer of the frame it took from the queue: the bytes up to the
    first NUL, [path_len] not being consulted. The call is without
    data, for a frame whose data pointer is null or whose [data_len] is
    0, or of the type the entry expects, which is then the type
    [detect_type] finds in the string at the data pointer; its count is
    8 at most and is the number of values handed over; the work buffer
    is written to only for a string call. *)
Theorem poll_calls_first_route atoi strtof table fq mem c :
  invoked (poll atoi strtof table fq mem) = Some c ->
  exists frame entry,
    fst (pop fq) = Some frame
    /\ table !! route c = Some entry
    /\ c_str (Frame.deref mem (Frame.path frame)) = c_str (path entry)
    /\ (forall j e, (j < route c)%nat -> table !! j = Some e ->
         c_str (Frame.deref mem (Frame.path frame)) <> c_str (path e))
    /\ call_for mem frame entry c (memory (poll atoi strtof table fq mem)).
Proof.
  unfold poll. destruct (pop fq) as [[frame|] q]; [|done].
  destruct (dispatch atoi strtof table 0 frame mem) as [mem' call] eqn:E.
  cbn [invoked memory fst]. intros ->.
  destruct (dispatch_shape _ _ _ _ _ _ _ _ E)
    as (k & entry & Hr & He & H0 & Hfirst & Hcall).
  cbn [Nat.add] in Hr. subst k.
  exists frame, entry. split_and!; [done|done|by apply strcmp_zero| |done].
  intros j e Hj Hje. rewrite <- strcmp_zero. by eapply Hfirst.
Qed.

Lemma poll_calls_first_route_witness :
  exists frame entry,
    fst (pop (pending "ctrl/arm" "12")) = Some frame
    /\ [Entry (text "sys/reset") NONE; Entry (text "ctrl/arm") INT;
        Entry (text "ctrl/arm") STRING]
       !! 1%nat = Some entry
    /\ c_str (Frame.deref (parsed "ctrl/arm" "12") (Frame.path frame))
       = c_str (path entry)
    /\ (forall j e, (j < 1)%nat ->
         [Entry (text "sys/reset") NONE; Entry (text "ctrl/arm") INT;
          Entry (text "ctrl/arm") STRING] !! j = Some e ->
         c_str (Frame.deref (parsed "ctrl/arm" "12") (Frame.path frame))
         <> c_str (path e))
    /\ call_for (parsed "ctrl/arm" "12") frame entry
         (Call 1 INT (int_values [2]) 1)
         (memory (poll (fun s => Z.of_nat (length s)) (fun _ => F32.zero)
                    [Entry (text "sys/reset") NONE; Entry (text "ctrl/arm") INT;
                     Entry (text "ctrl/arm") STRING]
                    (pending "ctrl/arm" "12") (parsed "ctrl/arm" "12"))).
Proof.
  exact (poll_calls_first_route (fun s => Z.of_nat (length s)) (fun _ => F32.zero)
           [Entry (text "sys/reset") NONE; Entry (text "ctrl/arm") INT;
            Entry (text "ctrl/arm") STRING]
           (pending "ctrl/arm" "12") (parsed "ctrl/arm" "12")
           (Call 1 INT (int_values [2]) 1) eq_refl).
Defined.

(** ** Frames without data *)

(** At the first entry with the frame's path, a frame without data
    makes the call without data, whatever type the entry expects. *)
Lemma dispatch_no_data atoi strtof entry rest i frame mem :
  strcmp (Frame.deref mem (Frame.path frame)) (path entry) = 0 ->
  Frame.data frame = None \/ Frame.data_len frame = 0 ->
  dispatch atoi strtof (entry :: rest) i frame mem
  = (mem, Some (Call i NONE no_values 0)).
Proof.
  intros Hpath Hdata. cbn [dispatch]. rewrite Hpath.
  change (negb (0 =? 0)) with false. cbn iota.
  destruct Hdata as [->| ->]; [done|].
  by rewrite orb_true_r.
Qed.

Lemma c_str_idem s : c_str (c_str s) = c_str s.
Proof.
  induction s as [|c s IH]; [done|]. simpl.
  destruct (is_nul c) eqn:E; [done|]. simpl. by rewrite E, IH.
Qed.

Lemma send_trigger_emits region :
  Sender.emits (Sender.send_trigger region) (frame_text (c_str region) []).
Proof.
  eapply SenderFacts.emits_eq.
  - apply SenderFacts.emits_and_then;
      [apply SenderFacts.begin_frame_emits|apply SenderFacts.end_frame_emits].
  - unfold frame_text. by rewrite <- !app_assoc.
Qed.

(** X17. A trigger from the sender to the handler: the frame [send_trigger]
    puts on the wire is parsed into one frame without data, and the
    dispatcher then calls the first entry with that path with [NONE],
    no values and count 0, whatever type the entry expects. *)
Theorem trigger_reaches_handler atoi strtof region s s' p pre entry post :
  Forall (fun c => c <> ":"%char) (c_str region) ->
  wf (Sender.tx_queue s) -> empty (Sender.tx_queue s) ->
  Sender.send_trigger region s = (true, s') ->
  Parser.state p = Parser.WAIT_START -> Parser.idx p = 0 ->
  wf (Parser.rx_queue p) ->
  contents (Parser.rx_queue p) = contents (Sender.tx_queue s') ->
  length (Parser.workBuffer p) = Z.to_nat (Parser.work_buf_size p) ->
  Parser.work_buf_size p < 65536 ->
  Z.of_nat (length (c_str region)) + 2 <= Parser.work_buf_size p ->
  wf (Parser.frame_queue p) -> empty (Parser.frame_queue p) ->
  Forall (fun e => c_str (path e) <> c_str region) pre ->
  c_str (path entry) = c_str region ->
  exists p',
    Parser.poll p = Some p'
    /\ invoked (poll atoi strtof (pre ++ entry :: post)
                  (Parser.frame_queue p') (Parser.workBuffer p'))
       = Some (Call (length pre) NONE no_values 0)
    /\ memory (poll atoi strtof (pre ++ entry :: post)
                 (Parser.frame_queue p') (Parser.workBuffer p'))
       = Parser.workBuffer p'
    /\ empty (frames (poll atoi strtof (pre ++ entry :: post)
                        (Parser.frame_queue p') (Parser.workBuffer p'))).
Proof.
  intros HP Htx Hempty Hsend Hst Hidx Hrx Hbytes Hlen Hcap Hfit Hwf Hnone
    Hpre Hentry.
  rewrite send_trigger_emits in Hsend.
  destruct (SenderFacts.push_chars_true _ _ _ Htx Hsend) as (_ & Hsent & _).
  rewrite (contents_empty _ Htx Hempty) in Hsent. simpl app in Hsent.
  rewrite Hsent in Hbytes.
  assert (~ full (Parser.frame_queue p)) as Hnf.
  { pose proof (proj1 (empty_count _ Hwf) Hnone).
    pose proof (wf_size _ Hwf).
    rewrite full_count by done. lia. }
  destruct (ParserFacts.poll_feed p Hrx) as (q & Hpoll & _).
  eexists. split; [exact Hpoll|].
  rewrite Hbytes, (ParserFacts.feed_frame p (c_str region) []);
    [|by left|done|done|constructor|done|done|simpl; lia|done|done].
  cbn [Parser.set_rx_queue Parser.rx_queue Parser.frame_queue Parser.workBuffer
       Parser.work_buf_size Parser.idx Parser.state Parser.path_ptr
       Parser.path_len Parser.data_ptr Parser.data_len].
  set (f := Frame.Build (Some 0) (Z.of_nat (length (c_str region)))
              (Some (Z.of_nat (length (c_str region)) + 1)) (Z.of_nat (length []))).
  set (mem := (c_str region ++ NUL :: [] ++ [NUL]) ++ _).
  pose proof (push_wf f _ Hwf) as Hwf1.
  pose proof (push_count f _ Hwf Hnf) as Hcount1.
  pose proof (push_contents f _ Hwf Hnf) as Hcont1.
  rewrite (contents_empty _ Hwf Hnone) in Hcont1. simpl app in Hcont1.
  rewrite (proj1 (empty_count _ Hwf) Hnone) in Hcount1.
  assert (~ empty (snd (push f (Parser.frame_queue p)))) as Hne
    by (rewrite empty_count by done; lia).
  destruct (pop_contents _ Hwf1 Hne) as (x & Hx & Hrest).
  rewrite Hcont1 in Hrest. injection Hrest as <- Hrest.
  pose proof (pop_wf _ Hwf1) as Hwf2.
  pose proof (pop_count _ Hwf1 Hne) as Hcount2.
  assert (empty (snd (pop (snd (push f (Parser.frame_queue p)))))) as Hdone
    by (rewrite empty_count by done; lia).
  unfold poll.
  destruct (pop (snd (push f (Parser.frame_queue p)))) as [o q'].
  cbn [fst snd] in *. subst o.
  assert (c_str (Frame.deref mem (Frame.path f)) = c_str region) as Hread.
  { unfold mem. cbn [Frame.deref Frame.path f].
    change (drop (Z.to_nat 0) ?l) with l.
    rewrite <- app_assoc. cbn [app]. by rewrite ExecuterFacts.c_str_before_nul, c_str_idem. }
  rewrite dispatch_skip.
  2: { eapply Forall_impl; [exact Hpre|]. intros e He. cbv beta.
       rewrite strcmp_zero, Hread. congruence. }
  rewrite dispatch_no_data; [|by rewrite strcmp_zero, Hread|by right].
  done.
Qed.

Lemma trigger_reaches_handler_witness :
  exists p',
    Parser.poll (listening (contents (Sender.tx_queue triggered))) = Some p'
    /\ invoked (poll (fun _ => 0) (fun _ => F32.zero)
                  ([Entry (text "ctrl/arm") INT]
                   ++ Entry (text "sys/reset") FLOAT :: [])
                  (Parser.frame_queue p') (Parser.workBuffer p'))
       = Some (Call (length [Entry (text "ctrl/arm") INT]) NONE no_values 0)
    /\ memory (poll (fun _ => 0) (fun _ => F32.zero)
                 ([Entry (text "ctrl/arm") INT]
                  ++ Entry (text "sys/reset") FLOAT :: [])
                 (Parser.frame_queue p') (Parser.workBuffer p'))
       = Parser.workBuffer p'
    /\ empty (frames (poll (fun _ => 0) (fun _ => F32.zero)
                        ([Entry (text "ctrl/arm") INT]
                         ++ Entry (text "sys/reset") FLOAT :: [])
                        (Parser.frame_queue p') (Parser.workBuffer p'))).
Proof.
  destruct (ParserFacts.listening_wf (contents (Sender.tx_queue triggered)))
    as [Hwf Hc]; [vm_compute; lia|].
  refine (trigger_reaches_handler (fun _ => 0) (fun _ => F32.zero)
            (text "sys/reset") idle triggered
            (listening (contents (Sender.tx_queue triggered)))
            [Entry (text "ctrl/arm") INT] (Entry (text "sys/reset") FLOAT) []
            _ SenderFacts.idle_wf eq_refl _ eq_refl eq_refl Hwf Hc
            eq_refl eq_refl _
            (proj1 (ParserFacts.frame_queue_ready _)) eq_refl _ eq_refl).
  - repeat (constructor; [discriminate|]). constructor.
  - by vm_compute.
  - by vm_compute.
  - repeat constructor. discriminate.
Defined.
End ExecuterMore.

(* ================================================================== *)
(** * From the sender to the handler *)
(* ================================================================== *)

Module Pipeline.
Import RingBuffer RingBufferFacts Executer ExecuterFacts ExecuterMore.
Import Wire Fields Routing Samples MoreSamples.

(** ** The frame the dispatcher finds *)

Lemma deref_data P D tail :
  Frame.deref (P ++ NUL :: D ++ NUL :: tail) (Some (Z.of_nat (length P) + 1))
  = D ++ NUL :: tail.
Proof.
  unfold Frame.deref.
  replace (Z.to_nat (Z.of_nat (length P) + 1)) with (length (P ++ [NUL]))
    by (rewrite length_app; simpl; lia).
  replace (P ++ NUL :: D ++ NUL :: tail) with ((P ++ [NUL]) ++ D ++ NUL :: tail)
    by (by rewrite <- app_assoc).
  apply drop_app_length.
Qed.

(** A frame on the wire, read by a parser whose frame queue is empty,
    is what the next call of the dispatcher works on. *)
Lemma frame_to_dispatch p P D :
  Parser.state p = Parser.WAIT_START -> Parser.idx p = 0 ->
  Forall (fun c => c <> ":"%char) P -> Forall (fun c => c <> "}"%char) D ->
  wf (Parser.rx_queue p) -> contents (Parser.rx_queue p) = frame_text P D ->
  length (Parser.workBuffer p) = Z.to_nat (Parser.work_buf_size p) ->
  Parser.work_buf_size p < 65536 ->
  Z.of_nat (length P) + Z.of_nat (length D) + 2 <= Parser.work_buf_size p ->
  wf (Parser.frame_queue p) -> empty (Parser.frame_queue p) ->
  exists p' q tail,
    Parser.poll p = Some p'
    /\ Parser.workBuffer p' = P ++ NUL :: D ++ NUL :: tail
    /\ empty q
    /\ forall atoi strtof table,
         poll atoi strtof table (Parser.frame_queue p') (Parser.workBuffer p')
         = let r := dispatch atoi strtof table 0
                      (Frame.Build (Some 0) (Z.of_nat (length P))
                         (Some (Z.of_nat (length P) + 1)) (Z.of_nat (length D)))
                      (Parser.workBuffer p') in
           {| frames := q; memory := fst r; invoked := snd r |}.
Proof.
  intros Hst Hidx HP HD Hrx Hbytes Hlen Hcap Hfit Hwf Hnone.
  assert (~ full (Parser.frame_queue p)) as Hnf.
  { pose proof (proj1 (empty_count _ Hwf) Hnone).
    pose proof (wf_size _ Hwf).
    rewrite full_count by done. lia. }
  destruct (ParserFacts.poll_feed p Hrx) as (q & Hpoll & _).
  rewrite Hbytes, (ParserFacts.feed_frame p P D) in Hpoll
    by (done || by left).
  set (f := Frame.Build (Some 0) (Z.of_nat (length P))
              (Some (Z.of_nat (length P) + 1)) (Z.of_nat (length D))) in *.
  pose proof (push_wf f _ Hwf) as Hwf1.
  pose proof (push_count f _ Hwf Hnf) as Hcount1.
  pose proof (push_contents f _ Hwf Hnf) as Hcont1.
  rewrite (contents_empty _ Hwf Hnone) in Hcont1. simpl app in Hcont1.
  rewrite (proj1 (empty_count _ Hwf) Hnone) in Hcount1.
  assert (~ empty (snd (push f (Parser.frame_queue p)))) as Hne
    by (rewrite empty_count by done; lia).
  destruct (pop_contents _ Hwf1 Hne) as (x & Hx & Hrest).
  rewrite Hcont1 in Hrest. injection Hrest as <- Hrest.
  pose proof (pop_wf _ Hwf1) as Hwf2.
  pose proof (pop_count _ Hwf1 Hne) as Hcount2.
  assert (empty (snd (pop (snd (push f (Parser.frame_queue p)))))) as Hdone
    by (rewrite empty_count by done; lia).
  eexists _, (snd (pop (snd (push f (Parser.frame_queue p))))),
    (drop (length P + length D + 2) (Parser.workBuffer p)).
  split; [exact Hpoll|].
  cbn [Parser.set_rx_queue Parser.rx_queue Parser.frame_queue Parser.workBuffer
       Parser.work_buf_size Parser.idx Parser.state Parser.path_ptr
       Parser.path_len Parser.data_ptr Parser.data_len].
  split_and!; [|done|].
  - rewrite <- !app_assoc. cbn [app]. by rewrite <- !app_assoc.
  - intros atoi strtof table. unfold poll.
    destruct (pop (snd (push f (Parser.frame_queue p)))) as [o q'].
    cbn [fst snd] in *. subst o. cbv zeta.
    by destruct (dispatch atoi strtof table 0 f _).
Qed.

Lemma path_in_buffer P rest :
  c_str (Frame.deref (P ++ NUL :: rest) (Some 0)) = c_str P.
Proof.
  unfold Frame.deref. change (drop (Z.to_nat 0) ?l) with l.
  apply ExecuterFacts.c_str_before_nul.
Qed.

(** ** Integers *)

Lemma digit_plain c : is_digit c = true -> c <> ","%char /\ c <> NUL /\ c <> "."%char.
Proof. intros H. split_and!; by intros ->. Qed.

Lemma decimal_plain s v : is_decimal s v = true -> plain s /\ s <> [].
Proof.
  intros H. split.
  - apply Forall_forall. intros c Hc. apply list_elem_of_In in Hc.
    destruct (SenderFacts.is_decimal_chars _ _ _ H Hc) as [Hd| ->].
    + by destruct (digit_plain c Hd) as (? & ? & _).
    + by split.
  - intros ->. unfold is_decimal in H. by destruct (v <? 0).
Qed.

Lemma decimals_plain fields values :
  Forall2 (fun field v => is_decimal field v = true) fields values ->
  Forall plain fields /\ Forall (fun f => f <> []) fields.
Proof.
  induction 1 as [|f v fields values Hf _ [IH1 IH2]]; [by split|].
  destruct (decimal_plain _ _ Hf). split; by constructor.
Qed.

Lemma converted_all fs : Forall (fun f => f <> []) fs -> converted fs = length fs.
Proof.
  intros Hfs. unfold converted.
  destruct (last fs) as [[|]|] eqn:E; try done.
  apply last_Some in E as [l ->].
  apply Forall_app in Hfs as [_ Hfs]. by apply Forall_cons in Hfs as [? _].
Qed.

Lemma decimal_payload_is_int fields values tail :
  Forall2 (fun field v => is_decimal field v = true) fields values ->
  detect_type (csv_join fields ++ NUL :: tail) = INT.
Proof.
  intros Hfields. rewrite detect_type_classify.
  destruct (decimals_plain _ _ Hfields) as [Hplain _].
  rewrite c_str_until_nul by (by apply csv_join_no_nul).
  unfold classify.
  assert (forall c, In c (csv_join fields) ->
            numeric_char c = true /\ Ascii.eqb c "." = false) as Hchars.
  { intros c Hc.
    destruct (SenderFacts.csv_join_chars _ _ _ Hfields Hc) as [Hd|[->| ->]];
      [|done|done].
    unfold numeric_char. rewrite Hd. split; [done|].
    apply Ascii.eqb_neq. by destruct (digit_plain c Hd) as (_ & _ & ?). }
  assert (forallb numeric_char (csv_join fields) = true) as ->.
  { apply forallb_forall. intros c Hc. by destruct (Hchars c Hc). }
  assert (existsb (fun c => Ascii.eqb c ".") (csv_join fields) = false) as ->; [|done].
  destruct (existsb _ _) eqn:E; [|done].
  apply existsb_exists in E as (c & Hc & Hdot).
  destruct (Hchars c Hc) as [_ Hno]. congruence.
Qed.

Lemma atoi_suffixes atoi fields values :
  reads_decimals atoi ->
  Forall (fun v => Sender.INT32_MIN <= v <= Sender.INT32_MAX) values ->
  Forall2 (fun field v => is_decimal field v = true) fields values ->
  map (fun k => atoi (csv_join (drop k fields))) (seq 0 (length fields)) = values.
Proof.
  intros Hatoi Hrange.
  induction 1 as [|f v fields values Hf Hrest IH]; [done|].
  apply Forall_cons in Hrange as [Hv Hrange].
  cbn [length seq map drop]. f_equal.
  - destruct fields as [|g fields].
    + by destruct (Hatoi f v [] Hv Hf).
    + rewrite csv_join_more.
      by destruct (Hatoi f v (csv_join (g :: fields)) Hv Hf).
  - rewrite <- seq_shift, map_map. by apply IH.
Qed.

(** X18. Integers from the sender to the handler: the values [send_int]
    puts on the wire are handed, in order and unchanged, to the first
    entry with the frame's path when it expects [INT], for any [atoi]
    that reads the decimal numeral of an [int32_t] value up to a
    comma. *)
Theorem integers_reach_handler atoi strtof region values n s s' p pre entry post :
  reads_decimals atoi ->
  Forall (fun c => c <> ":"%char) (c_str region) ->
  Z.of_nat (length values) = n -> 1 <= n <= 8 ->
  Forall (fun v => Sender.INT32_MIN <= v <= Sender.INT32_MAX) values ->
  wf (Sender.tx_queue s) -> empty (Sender.tx_queue s) ->
  Sender.send_int region values n s = (true, s') ->
  Parser.state p = Parser.WAIT_START -> Parser.idx p = 0 ->
  wf (Parser.rx_queue p) ->
  contents (Parser.rx_queue p) = contents (Sender.tx_queue s') ->
  length (Parser.workBuffer p) = Z.to_nat (Parser.work_buf_size p) ->
  Parser.work_buf_size p < 65536 ->
  Z.of_nat (length (contents (Sender.tx_queue s'))) - 5 <= Parser.work_buf_size p ->
  wf (Parser.frame_queue p) -> empty (Parser.frame_queue p) ->
  Forall (fun e => c_str (path e) <> c_str region) pre ->
  c_str (path entry) = c_str region -> expected_type entry = INT ->
  exists p',
    Parser.poll p = Some p'
    /\ invoked (poll atoi strtof (pre ++ entry :: post)
                  (Parser.frame_queue p') (Parser.workBuffer p'))
       = Some (Call (length pre) INT (int_values values) n).
Proof.
  intros Hatoi HP Hn Hcount Hrange Htx Hempty Hsend Hst Hidx Hrx Hbytes Hlen
    Hcap Hfit Hwf Hnone Hpre Hentry Hexp.
  destruct (SenderFacts.send_int_emits region values Hrange)
    as (fields & Hfields & Hemit).
  subst n. rewrite Hemit in Hsend.
  destruct (SenderFacts.push_chars_true _ _ _ Htx Hsend) as (_ & Hsent & _).
  rewrite (contents_empty _ Htx Hempty) in Hsent. simpl app in Hsent.
  rewrite Hsent in Hbytes, Hfit. rewrite RoundTrip.frame_text_length in Hfit.
  destruct (decimals_plain _ _ Hfields) as [Hplain Hfull].
  pose proof (Forall2_length _ _ _ Hfields) as Hsame.
  destruct (frame_to_dispatch p (c_str region) (csv_join fields))
    as (p' & q & tail & Hpoll & Hmem & _ & Hrun); try done.
  { apply Forall_forall. intros c Hc ->. apply list_elem_of_In in Hc.
    by destruct (SenderFacts.csv_join_chars _ _ _ Hfields Hc) as [?|[?|?]]. }
  { lia. }
  exists p'. split; [done|].
  rewrite Hrun, Hmem. cbv zeta. cbn [invoked].
  rewrite dispatch_skip.
  2: { eapply Forall_impl; [exact Hpre|]. intros e He. cbv beta.
       cbn [Frame.path]. rewrite strcmp_zero, path_in_buffer, c_str_idem.
       congruence. }
  cbn [dispatch Frame.path Frame.data Frame.data_len].
  rewrite (proj2 (strcmp_zero _ _))
    by (rewrite path_in_buffer, c_str_idem; congruence).
  change (negb (0 =? 0)) with false. cbn iota. cbn [orb].
  assert (fields <> []) as Hsome
    by (intros ->; apply Forall2_nil_inv_l in Hfields; subst; simpl in *; lia).
  assert (csv_join fields <> []) as Hdata.
  { destruct fields as [|f [|g fields]]; [done| |].
    - by apply Forall_cons in Hfull as [? _].
    - rewrite csv_join_more. by destruct f. }
  rewrite (proj2 (Z.eqb_neq _ _))
    by (destruct (csv_join fields); [done|simpl; lia]).
  rewrite deref_data, (decimal_payload_is_int fields values) by done.
  rewrite Hexp. cbn [data_type_eqb negb snd].
  unfold parse_int_csv, parse_numeric_csv.
  rewrite parse_numeric_fields by done. cbn [app].
  rewrite converted_all by done.
  change (Z.to_nat MAX_CSV_ITEMS) with 8%nat.
  rewrite Nat.min_r by lia.
  by rewrite (atoi_suffixes atoi fields values).
Qed.

Lemma leading_digits_all ds acc tail :
  forallb is_digit ds = true ->
  match tail with [] => True | c :: _ => is_digit c = false end ->
  leading_digits acc (ds ++ tail)
  = fold_left (fun acc c => 10 * acc + (code c - code "0")) ds acc.
Proof.
  intros Hds Htail. revert acc.
  induction ds as [|d ds IH]; intros acc.
  - destruct tail as [|c tail]; [done|]. simpl. by rewrite Htail.
  - simpl in Hds. apply andb_true_iff in Hds as [Hd Hds].
    simpl. rewrite Hd. by apply IH.
Qed.

Lemma numeral_value ds n tail :
  is_numeral ds n = true ->
  match tail with [] => True | c :: _ => is_digit c = false end ->
  leading_digits 0 (ds ++ tail) = n
  /\ exists d more, ds = d :: more /\ is_digit d = true.
Proof.
  intros H Htail. destruct ds as [|d more]; [done|].
  unfold is_numeral in H.
  apply andb_true_iff in H as [H Hvalue].
  apply andb_true_iff in H as [Hdigits _].
  apply Z.eqb_eq in Hvalue. split.
  - by rewrite leading_digits_all.
  - exists d, more. split; [done|].
    simpl in Hdigits. by apply andb_true_iff in Hdigits as [? _].
Qed.

(** The conversion [decimal_prefix] reads every decimal numeral. *)
Lemma decimal_prefix_reads s v tail :
  is_decimal s v = true ->
  match tail with [] => True | c :: _ => is_digit c = false end ->
  decimal_prefix (s ++ tail) = v.
Proof.
  intros H Htail. unfold is_decimal in H. destruct (v <? 0).
  - destruct s as [|c ds]; [done|].
    apply andb_true_iff in H as [Hc Hds].
    cbn [app decimal_prefix]. rewrite Hc.
    destruct (numeral_value _ _ tail Hds Htail) as [-> _]. lia.
  - destruct (numeral_value _ _ tail H Htail) as [Hv (d & more & -> & Hd)].
    cbn [app decimal_prefix].
    destruct (Ascii.eqb_spec d "-") as [->|_]; [done|].
    exact Hv.
Qed.

(** [int_prefix] gives an [int32_t] on every string, and reads the
    numerals of the [int32_t] values. *)
Lemma int_prefix_range s :
  Sender.INT32_MIN <= int_prefix s <= Sender.INT32_MAX.
Proof. unfold int_prefix, Sender.INT32_MIN, Sender.INT32_MAX. lia. Qed.

Lemma int_prefix_reads : reads_decimals int_prefix.
Proof.
  intros s v rest Hv H. unfold int_prefix. split.
  - rewrite <- (app_nil_r s), (decimal_prefix_reads s v []) by done. lia.
  - rewrite (decimal_prefix_reads s v (","%char :: rest)) by done. lia.
Qed.

Lemma integers_reach_handler_witness :
  exists p',
    Parser.poll (listening (contents (Sender.tx_queue sent))) = Some p'
    /\ invoked (poll int_prefix (fun _ => F32.zero)
                  ([Entry (text "sys/reset") NONE]
                   ++ Entry (text "ctrl/set_pid") INT :: [])
                  (Parser.frame_queue p') (Parser.workBuffer p'))
       = Some (Call (length [Entry (text "sys/reset") NONE]) INT
                 (int_values [10; 20; -5]) 3).
Proof.
  destruct (ParserFacts.listening_wf (contents (Sender.tx_queue sent)))
    as [Hwf Hc]; [vm_compute; lia|].
  refine (integers_reach_handler int_prefix (fun _ => F32.zero)
            (text "ctrl/set_pid") [10; 20; -5] 3 idle sent
            (listening (contents (Sender.tx_queue sent)))
            [Entry (text "sys/reset") NONE] (Entry (text "ctrl/set_pid") INT) []
            int_prefix_reads _ eq_refl _ _ SenderFacts.idle_wf eq_refl _
            eq_refl eq_refl Hwf Hc eq_refl eq_refl _
            (proj1 (ParserFacts.frame_queue_ready _)) eq_refl _ eq_refl eq_refl).
  - repeat (constructor; [discriminate|]). constructor.
  - lia.
  - repeat (constructor; [unfold Sender.INT32_MIN, Sender.INT32_MAX; lia|]).
    constructor.
  - by vm_compute.
  - vm_compute. discriminate.
  - repeat constructor. discriminate.
Defined.

(** ** Strings *)

Lemma c_str_no_nul s : Forall (fun c => c <> NUL) (c_str s).
Proof.
  induction s as [|c s IH]; [constructor|]. simpl.
  unfold is_nul. destruct (Ascii.eqb_spec c NUL); by constructor.
Qed.

Lemma csv_join_forall (Q : ascii -> Prop) fs :
  Q ","%char -> Forall (Forall Q) fs -> Forall Q (csv_join fs).
Proof.
  intros Hcomma. induction 1 as [|f fs Hf Hfs IH]; [constructor|].
  destruct fs as [|g fs]; [done|].
  rewrite csv_join_more. apply Forall_app. split; [done|by constructor].
Qed.

Lemma fields_of_strings values :
  Forall (Forall (fun c => c <> ","%char /\ c <> "}"%char)) (map c_str values) ->
  Forall plain (map c_str values)
  /\ Forall (fun c => c <> "}"%char) (csv_join (map c_str values)).
Proof.
  intros H. split.
  - induction values as [|v values IH]; [constructor|].
    cbn [map] in *. apply Forall_cons in H as [Hv H].
    constructor; [|by apply IH].
    apply Forall_and. split; [|apply c_str_no_nul].
    eapply Forall_impl; [exact Hv|]. by intros c [? _].
  - apply csv_join_forall; [done|].
    eapply Forall_impl; [exact H|]. intros f Hf.
    eapply Forall_impl; [exact Hf|]. by intros c [_ ?].
Qed.

(** X19. Strings from the sender to the handler: up to 8 strings without
    commas or closing braces, put on the wire by [send_string], are what
    the handler of the first entry with the frame's path reads at the
    pointers it is given, when the entry expects [STRING] and the
    payload has a character that makes it one. *)
Theorem strings_reach_handler atoi strtof region values n s s' p pre entry post :
  Forall (fun c => c <> ":"%char) (c_str region) ->
  Z.of_nat (length values) = n -> 1 <= n <= 8 ->
  Forall (Forall (fun c => c <> ","%char /\ c <> "}"%char)) (map c_str values) ->
  classify (csv_join (map c_str values)) = STRING ->
  wf (Sender.tx_queue s) -> empty (Sender.tx_queue s) ->
  Sender.send_string region values n s = (true, s') ->
  Parser.state p = Parser.WAIT_START -> Parser.idx p = 0 ->
  wf (Parser.rx_queue p) ->
  contents (Parser.rx_queue p) = contents (Sender.tx_queue s') ->
  length (Parser.workBuffer p) = Z.to_nat (Parser.work_buf_size p) ->
  Parser.work_buf_size p < 65536 ->
  Z.of_nat (length (contents (Sender.tx_queue s'))) - 5 <= Parser.work_buf_size p ->
  wf (Parser.frame_queue p) -> empty (Parser.frame_queue p) ->
  Forall (fun e => c_str (path e) <> c_str region) pre ->
  c_str (path entry) = c_str region -> expected_type entry = STRING ->
  exists p' ptrs,
    Parser.poll p = Some p'
    /\ invoked (poll atoi strtof (pre ++ entry :: post)
                  (Parser.frame_queue p') (Parser.workBuffer p'))
       = Some (Call (length pre) STRING (string_values ptrs) n)
    /\ map (string_at
              (memory (poll atoi strtof (pre ++ entry :: post)
                         (Parser.frame_queue p') (Parser.workBuffer p'))))
         ptrs
       = map c_str values.
Proof.
  intros HP Hn Hcount Hvalues Hclass Htx Hempty Hsend Hst Hidx Hrx Hbytes Hlen
    Hcap Hfit Hwf Hnone Hpre Hentry Hexp.
  subst n. rewrite SenderMore.send_string_emits in Hsend.
  destruct (SenderFacts.push_chars_true _ _ _ Htx Hsend) as (_ & Hsent & _).
  rewrite (contents_empty _ Htx Hempty) in Hsent. simpl app in Hsent.
  rewrite Hsent in Hbytes, Hfit. rewrite RoundTrip.frame_text_length in Hfit.
  destruct (fields_of_strings values Hvalues) as [Hplain Hbrace].
  assert (length (map c_str values) = length values) as Hsame
    by apply length_map.
  set (strings := map c_str values) in *.
  assert (strings <> []) as Hsome by (intros E; rewrite E in Hsame; simpl in *; lia).
  assert (csv_join strings <> []) as Hdata by (by intros E; rewrite E in Hclass).
  destruct (frame_to_dispatch p (c_str region) (csv_join strings))
    as (p' & q & tail & Hpoll & Hmem & _ & Hrun); try done; [lia|].
  set (mem := c_str region ++ [NUL]).
  assert (dispatch atoi strtof (pre ++ entry :: post) 0
            (Frame.Build (Some 0) (Z.of_nat (length (c_str region)))
               (Some (Z.of_nat (length (c_str region)) + 1))
               (Z.of_nat (length (csv_join strings))))
            (Parser.workBuffer p')
          = (mem ++ cut 7 strings ++ NUL :: tail,
             Some (Call (length pre) STRING
                     (string_values
                        (Some (Z.of_nat (length mem))
                         :: starts 7 (Z.of_nat (length mem)) strings))
                     (Z.of_nat (length values))))) as Hcall.
  { rewrite Hmem, dispatch_skip.
    2: { eapply Forall_impl; [exact Hpre|]. intros e He. cbv beta.
         cbn [Frame.path]. rewrite strcmp_zero, path_in_buffer, c_str_idem.
         congruence. }
    cbn [dispatch Frame.path Frame.data Frame.data_len].
    rewrite (proj2 (strcmp_zero _ _))
      by (rewrite path_in_buffer, c_str_idem; congruence).
    change (negb (0 =? 0)) with false. cbn iota. cbn [orb].
    rewrite (proj2 (Z.eqb_neq _ _))
      by (destruct (csv_join strings); [done|simpl; lia]).
    rewrite deref_data, detect_type_classify.
    rewrite c_str_until_nul by (by apply csv_join_no_nul).
    rewrite Hclass, Hexp. cbn [data_type_eqb negb Frame.offset].
    replace (c_str region ++ NUL :: csv_join strings ++ NUL :: tail)
      with (mem ++ csv_join strings ++ NUL :: tail)
      by (unfold mem; by rewrite <- app_assoc).
    replace (Z.of_nat (length (c_str region)) + 1) with (Z.of_nat (length mem))
      by (unfold mem; rewrite length_app; simpl; lia).
    rewrite parse_string_csv_run by done.
    do 3 f_equal. cbn [length]. rewrite length_starts. lia. }
  exists p', (Some (Z.of_nat (length mem))
              :: starts 7 (Z.of_nat (length mem)) strings).
  rewrite Hrun, Hcall. cbv zeta. cbn [invoked memory fst snd].
  split_and!; [done|done|].
  rewrite strings_read by done.
  rewrite Nat.min_r by lia. by apply csv_join_last.
Qed.

Lemma strings_reach_handler_witness :
  exists p' ptrs,
    Parser.poll (listening (contents (Sender.tx_queue spoken))) = Some p'
    /\ invoked (poll (fun _ => 0) (fun _ => F32.zero)
                  ([Entry (text "sys/reset") NONE]
                   ++ Entry (text "log/print") STRING :: [])
                  (Parser.frame_queue p') (Parser.workBuffer p'))
       = Some (Call (length [Entry (text "sys/reset") NONE]) STRING
                 (string_values ptrs) 2)
    /\ map (string_at
              (memory (poll (fun _ => 0) (fun _ => F32.zero)
                         ([Entry (text "sys/reset") NONE]
                          ++ Entry (text "log/print") STRING :: [])
                         (Parser.frame_queue p') (Parser.workBuffer p'))))
         ptrs
       = map c_str [text "on"; text "fan 2"].
Proof.
  destruct (ParserFacts.listening_wf (contents (Sender.tx_queue spoken)))
    as [Hwf Hc]; [vm_compute; lia|].
  refine (strings_reach_handler (fun _ => 0) (fun _ => F32.zero)
            (text "log/print") [text "on"; text "fan 2"] 2 idle spoken
            (listening (contents (Sender.tx_queue spoken)))
            [Entry (text "sys/reset") NONE] (Entry (text "log/print") STRING) []
            _ eq_refl _ _ eq_refl SenderFacts.idle_wf eq_refl _
            eq_refl eq_refl Hwf Hc eq_refl eq_refl _
            (proj1 (ParserFacts.frame_queue_ready _)) eq_refl _ eq_refl eq_refl).
  - repeat (constructor; [discriminate|]). constructor.
  - lia.
  - repeat (constructor; [repeat (constructor; [split; discriminate|]); constructor|]).
    constructor.
  - by vm_compute.
  - vm_compute. discriminate.
  - repeat constructor. discriminate.
Defined.
End Pipeline.

(* ================================================================== *)
(** * The baud rate register *)
(* ================================================================== *)

Module Usart2Facts.
Import Usart2.

(** Mantissa and fraction put together again are the divider. *)
Lemma mantissa_fraction x :
  0 <= x < 4294967296 ->
  Z.lor (u32 (Z.shiftl (x / 16) 4)) (Z.land (x mod 16) 15) = x.
Proof.
  intros Hx.
  assert (0 <= x mod 16 < 16) as Hf by (apply Z.mod_pos_bound; lia).
  assert (0 <= x / 16) as Hm by (apply Z.div_pos; lia).
  rewrite Z.shiftl_mul_pow2 by lia. change (2 ^ 4) with 16.
  unfold u32. rewrite (Z.mod_small (x / 16 * 16)) by (split; [lia|];
    pose proof (Z.div_mod x 16); lia).
  change 15 with (Z.ones 4). rewrite Z.land_ones by lia.
  change (2 ^ 4) with 16. rewrite Z.mod_mod by lia.
  assert (Z.land (x / 16 * 16) (x mod 16) = 0) as Hland.
  { apply Z.bits_inj'. intros n Hn. rewrite Z.land_spec, Z.bits_0.
    destruct (Z.lt_ge_cases n 4) as [Hlow|Hhigh].
    - replace (x / 16 * 16) with (Z.shiftl (x / 16) 4)
        by (rewrite Z.shiftl_mul_pow2; [done|lia]).
      by rewrite Z.shiftl_spec_low.
    - assert (Z.testbit (x mod 16) n = false) as ->;
        [|apply andb_false_r].
      apply Z.testbit_false; [lia|].
      rewrite Z.div_small; [done|]. split; [lia|].
      assert (2 ^ 4 <= 2 ^ n) by (apply Z.pow_le_mono_r; lia).
      change (2 ^ 4) with 16 in *. lia. }
  rewrite <- Z.lxor_lor, <- Z.add_nocarry_lxor by done.
  pose proof (Z.div_mod x 16). lia.
Qed.

(** X20. The register value [usart_calc_brr] computes is the clock divided
    by the baud rate, rounded, in 16 bits: splitting the quotient into
    mantissa and fraction and putting them together changes nothing.
    When the sum and the quotient fit their types, the value is the
    divider nearest to the exact ratio. *)
Theorem usart_calc_brr_nearest pclk baudrate :
  0 <= pclk < 4294967296 -> 0 < baudrate < 4294967296 ->
  usart_calc_brr pclk baudrate
  = Some (u16 (u32 (pclk + baudrate / 2) / baudrate))
  /\ (pclk + baudrate / 2 < 65536 * baudrate ->
      pclk + baudrate / 2 < 4294967296 ->
      exists brr,
        usart_calc_brr pclk baudrate = Some brr
        /\ 0 <= brr < 65536
        /\ 2 * Z.abs (brr * baudrate - pclk) <= baudrate).
Proof.
  intros Hpclk Hbaud.
  assert (usart_calc_brr pclk baudrate
          = Some (u16 (u32 (pclk + baudrate / 2) / baudrate))) as Hvalue.
  { unfold usart_calc_brr. rewrite (proj2 (Z.eqb_neq _ _)) by lia.
    cbv zeta. rewrite mantissa_fraction; [done|].
    assert (0 <= u32 (pclk + baudrate / 2) < 4294967296) as Hsum
      by (apply Z.mod_pos_bound; lia).
    split; [apply Z.div_pos; lia|].
    apply Z.div_lt_upper_bound; nia. }
  split; [done|]. intros Hfit Hsum.
  assert (0 <= baudrate / 2) as Hhalf by (apply Z.div_pos; lia).
  exists ((pclk + baudrate / 2) / baudrate).
  assert (0 <= (pclk + baudrate / 2) / baudrate < 65536) as Hq.
  { split; [apply Z.div_pos; lia|]. apply Z.div_lt_upper_bound; lia. }
  split; [|split; [done|]].
  - rewrite Hvalue. unfold u32. rewrite (Z.mod_small (pclk + baudrate / 2)) by lia.
    by rewrite u16_small.
  - pose proof (Z.div_mod (pclk + baudrate / 2) baudrate ltac:(lia)) as Hdiv.
    pose proof (Z.mod_pos_bound (pclk + baudrate / 2) baudrate ltac:(lia)) as Hrem.
    pose proof (Z.div_mod baudrate 2 ltac:(lia)) as Hdiv2.
    pose proof (Z.mod_pos_bound baudrate 2 ltac:(lia)) as Hrem2.
    lia.
Qed.

Lemma usart_calc_brr_nearest_witness :
  exists brr,
    usart_calc_brr PCLK1_FREQ 115200 = Some brr
    /\ 0 <= brr < 65536
    /\ 2 * Z.abs (brr * 115200 - PCLK1_FREQ) <= 115200.
Proof.
  apply (usart_calc_brr_nearest PCLK1_FREQ 115200);
    [unfold PCLK1_FREQ; lia|lia|reflexivity|reflexivity].
Defined.
End Usart2Facts.
